(** * quickbuddy: command transport, configuration renderer and lifecycle probes

    A shallow embedding of the Go package [quickbuddy] (commands.go,
    cgroups.go, container.go, limits.go, util.go) together with the
    properties the specification states about it.

    Conventions.
    - A Go [string] and a Go [[]byte] are both sequences of bytes; both are
      modelled by [string] (a list of 8-bit [ascii] characters).
    - A Go [int] is the 64-bit integer of the amd64 target the package
      configures ([lxc.arch = amd64]); it is modelled by [Z].
    - A Go [map[string][]string] is a [gmap string (list string)]; the
      unspecified iteration order of [range] is an explicit argument.
    - The operating system is an explicit environment: the results of
      [stat], [open], [flock], [write] and [ReadLine] are inputs. *)

From Stdlib Require Import ZArith Lia Bool Ascii String.
From stdpp Require Import gmap strings list fin_maps.

Local Open Scope string_scope.
Local Open Scope Z_scope.

(** ** The parts of the Go standard library the package calls *)

Module GoLib.

(** [strings.HasPrefix(s, prefix)]. *)
Definition HasPrefix (s prefix : string) : bool := String.prefix prefix s.

(** [strings.Split(s, sep)] for a separator of one byte (the package only
    splits on [" "]): the pieces between the separators, [[s]] when the
    separator does not occur. *)
Fixpoint Split (s : string) (sep : ascii) : list string :=
  match s with
  | EmptyString => [EmptyString]
  | String c r =>
      if Ascii.eqb c sep then EmptyString :: Split r sep
      else match Split r sep with
           | h :: t => String c h :: t
           | [] => [String c EmptyString]
           end
  end.

(** The two error kinds of [strconv.NumError]. *)
Inductive NumError := ErrSyntax | ErrRange.

Definition maxUint64 : Z := 2 ^ 64 - 1.

(** The value of a decimal digit byte, [None] for any other byte. *)
Definition digit_of (c : ascii) : option Z :=
  let n := Z.of_N (N_of_ascii c) in
  if (48 <=? n) && (n <=? 57) then Some (n - 48) else None.

(** The loop of [strconv.ParseUint(s, 10, 64)]: [n] is the value read so
    far; the multiplication cannot overflow below the cutoff, the addition
    wraps around at 2^64 and is checked afterwards. *)
Fixpoint ParseUint_loop (n : Z) (s : string) : Z * option NumError :=
  match s with
  | EmptyString => (n, None)
  | String c r =>
      match digit_of c with
      | None => (0, Some ErrSyntax)
      | Some d =>
          if (maxUint64 / 10 + 1) <=? n then (maxUint64, Some ErrRange)
          else
            let n10 := n * 10 in
            let n1 := (n10 + d) mod 2 ^ 64 in
            if (n1 <? n10) || (maxUint64 <? n1) then (maxUint64, Some ErrRange)
            else ParseUint_loop n1 r
      end
  end.

Definition ParseUint (s : string) : Z * option NumError :=
  match s with
  | EmptyString => (0, Some ErrSyntax)
  | _ => ParseUint_loop 0 s
  end.

(** [strconv.ParseInt(s, 10, 64)]: an optional sign, then [ParseUint]; a
    syntax error yields 0, a value out of range is clamped. *)
Definition ParseInt (s : string) : Z * option NumError :=
  match s with
  | EmptyString => (0, Some ErrSyntax)
  | String c r =>
      let neg := Ascii.eqb c "-"%char in
      let s' := if Ascii.eqb c "+"%char || Ascii.eqb c "-"%char then r else s in
      let (un, err) := ParseUint s' in
      match err with
      | Some ErrSyntax => (0, err)
      | _ =>
          let cutoff := 2 ^ 63 in
          if negb neg && (cutoff <=? un) then (cutoff - 1, Some ErrRange)
          else if neg && (cutoff <? un) then (- cutoff, Some ErrRange)
          else (if neg then - un else un, None)
      end
  end.

(** The byte of a decimal digit. *)
Definition digit_char (d : Z) : ascii := ascii_of_N (Z.to_N (48 + d)).

(** Decimal digits of a non-negative number, most significant first, in
    front of [acc]; [fuel] bounds the number of digits. *)
Fixpoint utoa (fuel : nat) (n : Z) (acc : string) : string :=
  match fuel with
  | O => acc
  | S f =>
      let acc' := String (digit_char (n mod 10)) acc in
      if n / 10 =? 0 then acc' else utoa f (n / 10) acc'
  end.

(** The verb [%d] of [fmt.Sprintf] at an [int]: a minus sign for a negative
    number, then the decimal digits without leading zeros. *)
Definition FormatInt (n : Z) : string :=
  if n <? 0 then String "-"%char (utoa (S (Z.to_nat (Z.log2 (- n)))) (- n) EmptyString)
  else utoa (S (Z.to_nat (Z.log2 n))) n EmptyString.


(** The line feed that ends every token and record on the pipes. *)
Definition nl : string := String (ascii_of_nat 10) EmptyString.

(** [strings.Join(elems, "/")]. *)
Fixpoint join_slash (elems : list string) : string :=
  match elems with
  | [] => EmptyString
  | [e] => e
  | e :: r => e +:+ "/" +:+ join_slash r
  end.

(** The element pass of [path.Clean]: empty and [.] elements are dropped, a
    [..] element removes the element before it, is dropped at the root and
    kept at the start of a relative path. [stack] holds the elements kept
    so far, the last one first. *)
Fixpoint clean_elems (rooted : bool) (stack elems : list string) : list string :=
  match elems with
  | [] => rev stack
  | e :: r =>
      if String.eqb e EmptyString || String.eqb e "." then clean_elems rooted stack r
      else if String.eqb e ".." then
        match stack with
        | top :: below =>
            if String.eqb top ".." then clean_elems rooted (e :: stack) r
            else clean_elems rooted below r
        | [] => if rooted then clean_elems rooted [] r
                else clean_elems rooted [e] r
        end
      else clean_elems rooted (e :: stack) r
  end.

(** [path.Clean(p)]. *)
Definition Clean (p : string) : string :=
  if String.eqb p EmptyString then "."
  else
    let rooted := HasPrefix p "/" in
    let body := join_slash (clean_elems rooted [] (Split p "/"%char)) in
    let out := if rooted then "/" +:+ body else body in
    if String.eqb out EmptyString then "." else out.

(** [path.Join(a, b)]: empty elements are ignored, the rest is joined by a
    slash and cleaned; the empty string when both are empty. *)
Definition Join (a b : string) : string :=
  if String.eqb a EmptyString then (if String.eqb b EmptyString then EmptyString else Clean b)
  else if String.eqb b EmptyString then Clean a
  else Clean (a +:+ "/" +:+ b).

(** [path.Base(p)]: the last element, trailing slashes removed. *)
Definition Base (p : string) : string :=
  if String.eqb p EmptyString then "."
  else match last (filter (fun e => e ≠ EmptyString) (Split p "/"%char)) with
       | Some e => e
       | None => "/"
       end.

(** Every byte of the string passes the test. *)
Fixpoint string_forall (P : ascii -> bool) (s : string) : bool :=
  match s with
  | EmptyString => true
  | String c r => P c && string_forall P r
  end.

Definition is_digit (c : ascii) : bool :=
  match digit_of c with Some _ => true | None => false end.

Definition not_space (c : ascii) : bool := negb (Ascii.eqb c " "%char).

End GoLib.

Import GoLib.

(** ** Errors

    The package builds its errors with [errors.New] or passes on the one a
    system call returned; the kinds are kept, the message texts are not. *)

Inductive error :=
  | ErrTempDir            (* ioutil.TempDir failed *)
  | ErrMkFIFO             (* mknod of the status pipe failed *)
  | ErrNotAFifo           (* "exists but is not a named FIFO pipe" *)
  | ErrNoSuchFile         (* "does not exist - cannot proceed" *)
  | ErrOpen               (* os.OpenFile failed *)
  | ErrLockHeld           (* "command lock already held by another process" *)
  | ErrEBADF              (* "strange: got EBADF" *)
  | ErrInterrupted        (* "interrupted" *)
  | ErrOutOfKernelMemory  (* "out of kernel memory" *)
  | ErrFlock              (* any other errno of flock, returned as it is *)
  | ErrWrite              (* fmt.Fprintf on the command pipe failed *)
  | ErrRead               (* ReadLine failed with an error other than EOF *)
  | ErrStatus             (* "error while waiting for status" *)
  | ErrRemove             (* the last os.Remove failed *)
  | ErrHomeMissing        (* "User ... home directory ... does not exist" *)
  | ErrInvalidKey (key : string). (* "invalid lxc configuration key: ..." *)

(** ** util.go: file system probes *)

Module Util.

(** What [os.Stat] reports about a path it succeeds on. *)
Inductive file_kind := KDir | KRegular | KFifo | KDevice | KSymlink.

(** A file system state is a [gmap string file_kind]: the paths [os.Stat]
    succeeds on, with their kind. *)

Definition DirExists (fs : gmap string file_kind) (dir : string) : bool :=
  match fs !! dir with Some KDir => true | _ => false end.

Definition NonDirExists (fs : gmap string file_kind) (filename : string) : bool :=
  match fs !! filename with Some KDir => false | Some _ => true | None => false end.

Definition FileExists (fs : gmap string file_kind) (pathname : string) : bool :=
  match fs !! pathname with Some _ => true | None => false end.

Definition IsFIFO (fs : gmap string file_kind) (filename : string) : bool :=
  match fs !! filename with Some KFifo => true | _ => false end.

End Util.

(** ** commands.go: the status reader *)

Module Status.

(** [FIFOCommandResult]. *)
Record FIFOCommandResult := {
  Out : string;
  Err : string;
  SignalCodes : list Z;
  ExitCode : Z;
  Pid : Z
}.

(** The local variables of [WaitUntilDone] that the reading loop updates. *)
Record reader_state := {
  terminated : bool;
  signal_codes : list Z;
  exit_code : Z;
  pid : Z;
  err_occurred : bool
}.

(** Their values before the loop. *)
Definition initial_state : reader_state :=
  {| terminated := false; signal_codes := []; exit_code := -1; pid := 0;
     err_occurred := false |}.

Definition set_terminated (st : reader_state) : reader_state :=
  {| terminated := true; signal_codes := signal_codes st;
     exit_code := exit_code st; pid := pid st; err_occurred := err_occurred st |}.

Definition append_signal (st : reader_state) (code : Z) : reader_state :=
  {| terminated := terminated st; signal_codes := signal_codes st ++ [code];
     exit_code := exit_code st; pid := pid st; err_occurred := err_occurred st |}.

Definition set_exit_code (st : reader_state) (code : Z) : reader_state :=
  {| terminated := terminated st; signal_codes := signal_codes st;
     exit_code := code; pid := pid st; err_occurred := err_occurred st |}.

Definition set_pid (st : reader_state) (code : Z) : reader_state :=
  {| terminated := terminated st; signal_codes := signal_codes st;
     exit_code := exit_code st; pid := code; err_occurred := err_occurred st |}.

Definition set_err_occurred (st : reader_state) : reader_state :=
  {| terminated := terminated st; signal_codes := signal_codes st;
     exit_code := exit_code st; pid := pid st; err_occurred := true |}.

(** [vals := strings.Split(sline, " ")] followed by
    [if len(vals) > 1 { code, _ := strconv.ParseInt(vals[1], 10, 64); ... int(code) }]:
    the code when there is a second field, the parse error is dropped. *)
Definition code_of (sline : string) : option Z :=
  match Split sline " "%char with
  | _ :: v :: _ => Some (fst (ParseInt v))
  | _ => None
  end.

(** The body of [if !prefix { ... }]: one complete line of the status pipe. *)
Definition handle_line (st : reader_state) (sline : string) : reader_state :=
  if HasPrefix sline "kill " then
    let st := set_terminated st in
    match code_of sline with Some code => append_signal st code | None => st end
  else if HasPrefix sline "exit " then
    let st := set_terminated st in
    match code_of sline with Some code => set_exit_code st code | None => st end
  else if HasPrefix sline "pid " then
    let st := set_terminated st in
    match code_of sline with Some code => set_pid st code | None => st end
  else if HasPrefix sline "stop " || HasPrefix sline "cont " then
    match code_of sline with Some code => append_signal st code | None => st end
  else if HasPrefix sline "err" then
    set_terminated (set_err_occurred st)
  else st.

(** One return of [bufReader.ReadLine()] before end of file: a line (or,
    with [isPrefix], a piece of a line longer than the buffer), or an error. *)
Inductive read_event :=
  | ReadLine_ok (line : string) (isPrefix : bool)
  | ReadLine_err.

(** The inner [for] loop over one open of the status pipe; the list ends
    where [ReadLine] returns [io.EOF]. [None] is [return err]. *)
Fixpoint read_lines (st : reader_state) (evs : list read_event) : option reader_state :=
  match evs with
  | [] => Some st
  | ReadLine_err :: _ => None
  | ReadLine_ok line isPrefix :: r =>
      read_lines (if isPrefix then st else handle_line st line) r
  end.

(** One [os.OpenFile(status_fn, O_RDONLY)]: it fails, or it gives what is
    read until end of file. *)
Inductive open_result :=
  | Open_err
  | Open_ok (evs : list read_event).

Inductive loop_outcome :=
  | LoopDone (st : reader_state)     (* the loop condition became false *)
  | LoopError (e : error)            (* [return err] inside the loop *)
  | LoopBlocked (st : reader_state). (* the next open never returns *)

(** The outer loop [for ; !terminated; { open; read until EOF }]. Opening a
    pipe blocks until a writer opens it: when the environment provides no
    further open the reader stays blocked. *)
Fixpoint status_loop (st : reader_state) (opens : list open_result) : loop_outcome :=
  if terminated st then LoopDone st
  else match opens with
       | [] => LoopBlocked st
       | Open_err :: _ => LoopError ErrOpen
       | Open_ok evs :: rest =>
           match read_lines st evs with
           | None => LoopError ErrRead
           | Some st' => status_loop st' rest
           end
       end.

(** What [WaitUntilDone] sees of the outside world. *)
Record status_env := {
  status_exists : bool;               (* FileExists(status_fn) *)
  status_is_fifo : bool;              (* IsFIFO(status_fn) *)
  status_opens : list open_result;    (* the successive opens of status_fn *)
  ReadFile : string -> option string; (* ioutil.ReadFile, None on error *)
  last_remove_fails : bool            (* os.Remove(tmp_dir), the last one, fails *)
}.

Inductive wait_outcome :=
  | WaitReturned (err : option error) (handled : option FIFOCommandResult)
      (* the returned error and the argument of [callback.HandleTerminate],
         when it was called *)
  | WaitBlocked.

(** [stdout := make([]byte, 0)], replaced by the result of
    [ioutil.ReadFile(fn)] when [fn] is not the empty string; the error of
    the read is dropped. *)
Definition read_capture (env : status_env) (fn : string) : string :=
  if String.eqb fn EmptyString then EmptyString
  else match ReadFile env fn with Some b => b | None => EmptyString end.

Definition WaitUntilDone (env : status_env) (stdout_fn stderr_fn : string) : wait_outcome :=
  if negb (status_exists env) then WaitReturned (Some ErrNoSuchFile) None
  else if negb (status_is_fifo env) then WaitReturned (Some ErrNotAFifo) None
  else
    match status_loop initial_state (status_opens env) with
    | LoopError e => WaitReturned (Some e) None
    | LoopBlocked _ => WaitBlocked
    | LoopDone st =>
        let result :=
          {| Out := read_capture env stdout_fn; Err := read_capture env stderr_fn;
             SignalCodes := signal_codes st; ExitCode := exit_code st; Pid := pid st |} in
        if err_occurred st then WaitReturned (Some ErrStatus) None
        else WaitReturned (if last_remove_fails env then Some ErrRemove else None)
                          (Some result)
    end.

(** *** The vocabulary of the statements about the reader *)

(** The terminal set of the status-pipe wire format: a record that starts
    with [kill ], [exit ], [pid ] or [err]. *)
Definition is_terminal_line (sline : string) : bool :=
  HasPrefix sline "kill " || HasPrefix sline "exit " ||
  HasPrefix sline "pid " || HasPrefix sline "err".

(** The non-terminal records that carry a signal: [stop ] and [cont ]. *)
Definition is_signal_line (sline : string) : bool :=
  HasPrefix sline "stop " || HasPrefix sline "cont ".

(** The complete lines among what one open delivers. *)
Definition complete_lines (evs : list read_event) : list string :=
  flat_map (fun ev => match ev with
                      | ReadLine_ok line false => [line]
                      | _ => []
                      end) evs.

Definition lines_of (o : open_result) : list string :=
  match o with Open_ok evs => complete_lines evs | Open_err => [] end.

(** An open without failure: it succeeds and every [ReadLine] before the end
    of file does. *)
Definition clean_open (o : open_result) : bool :=
  match o with
  | Open_err => false
  | Open_ok evs =>
      forallb (fun ev => match ev with ReadLine_ok _ _ => true | ReadLine_err => false end) evs
  end.

(** The complete lines a reader meets that reads every open to its end of
    file and stops after the first open that held a terminal record. *)
Fixpoint consumed (opens : list open_result) : list string :=
  match opens with
  | [] => []
  | o :: rest =>
      if existsb is_terminal_line (lines_of o) then lines_of o
      else lines_of o ++ consumed rest
  end.

(** A complete line: a [ReadLine] that returned with [isPrefix] false. *)
Definition complete (line : string) : read_event := ReadLine_ok line false.

(** An environment in which the status pipe exists and delivers [opens],
    nothing is captured and the clean-up succeeds. *)
Definition env_of (opens : list open_result) : status_env :=
  {| status_exists := true; status_is_fifo := true; status_opens := opens;
     ReadFile := fun _ => None; last_remove_fails := false |}.

(** One write of [pid 4321] and [exit 0], read in one open (scenario
    "blocked iexec"). *)
Definition pid_then_exit : list open_result :=
  [Open_ok [complete "pid 4321"; complete "exit 0"]].

(** An open that delivers an exit record between two kill records. *)
Definition kill_exit_kill : list open_result :=
  [Open_ok [complete "kill 9"; complete "exit 3"; complete "kill 9"]].

(** A stop record in a first open, the exit record in a second one. *)
Definition stop_then_exit : list open_result :=
  [Open_ok [complete "stop 19"; complete "hello"]; Open_ok [complete "exit 7"]].

End Status.

(** ** commands.go: the client write path *)

Module Client.

Import Util Status.

(** [FIFOCommand]. *)
Record FIFOCommand := {
  Filename : string;
  Verbose : bool;
  ServerNonBlocking : bool;
  ClientNonBlocking : bool;
  ClientTTYShare : bool;
  Uid : Z;
  Gid : Z;
  Rootfs : string
}.

Definition NewFIFOCommand (filename client_prefix : string) : FIFOCommand :=
  {| Filename := filename; Verbose := true; ServerNonBlocking := true;
     ClientNonBlocking := false; ClientTTYShare := false; Uid := 0; Gid := 0;
     Rootfs := client_prefix |}.

Definition NewFIFOCommandForUser (filename client_prefix : string) (uid gid : Z)
  : FIFOCommand :=
  {| Filename := filename; Verbose := true; ServerNonBlocking := true;
     ClientNonBlocking := false; ClientTTYShare := false; Uid := uid; Gid := gid;
     Rootfs := client_prefix |}.

(** The three queries of the interface [FIFOCallback]; its two handlers show
    in the outcome of a call. A nil callback is [None]. *)
Record FIFOCallback := {
  ShouldStoreStandardOutput : bool;
  ShouldStoreStandardError : bool;
  ShouldBlockUntilTerminated : bool
}.

(** [NewSimpleFIFOCallback(result, block, store_stdout, store_stderr)]. *)
Definition NewSimpleFIFOCallback (block store_stdout store_stderr : bool) : FIFOCallback :=
  {| ShouldStoreStandardOutput := store_stdout;
     ShouldStoreStandardError := store_stderr;
     ShouldBlockUntilTerminated := block |}.

(** The errno values [syscall.Flock] is tested for. *)
Inductive errno := EWOULDBLOCK | EBADF | EINTR | ENOLCK | EOTHER.

(** One pass through the label [try_again]: the open of the command pipe
    fails, or [flock] returns ([None] when the lock is acquired). *)
Inductive lock_attempt :=
  | OpenFails
  | Flock (r : option errno).

(** The command pipe as the client writes to it: the texts of the writes
    attempted so far, and for the coming writes whether they fail (a write
    beyond the list succeeds). *)
Record pipe := {
  written : list string;
  failing : list bool
}.

(** [_, err = fmt.Fprintf(file, text)]. *)
Definition Fprintf (f : pipe) (text : string) : pipe * option error :=
  match failing f with
  | true :: rest => ({| written := written f ++ [text]; failing := rest |}, Some ErrWrite)
  | false :: rest => ({| written := written f ++ [text]; failing := rest |}, None)
  | [] => ({| written := written f ++ [text]; failing := [] |}, None)
  end.

(** The end-of-command line. *)
Definition sentinel : string := "-*-EOFENDEOFEND-*-" +:+ nl.

(** What [ExecuteDaemonOnServerWithCallback] sees of the outside world. *)
Record client_env := {
  TempDir_suffix : option string; (* the random part ioutil.TempDir adds; None: it fails *)
  MkFIFO_ok : bool;               (* MkFIFO(status_fn) succeeds *)
  fs : gmap string file_kind;     (* the file system the command pipe is looked up in *)
  attempts : list lock_attempt;   (* the passes through try_again *)
  write_failures : list bool;     (* which writes to the command pipe fail *)
  status : status_env             (* what WaitUntilDone will see *)
}.

Inductive acquire_outcome :=
  | Acquired
  | AcquireError (e : error)
  | AcquireBlocked.

(** From the label [try_again] to "we've acquired the lock". *)
Fixpoint acquire (nonblocking : bool) (tries : list lock_attempt) : acquire_outcome :=
  match tries with
  | [] => AcquireBlocked
  | OpenFails :: _ => AcquireError ErrOpen
  | Flock None :: _ => Acquired
  | Flock (Some e) :: rest =>
      match e with
      | EWOULDBLOCK =>
          if nonblocking then AcquireError ErrLockHeld
          else acquire nonblocking rest
      | EBADF => AcquireError ErrEBADF
      | EINTR => AcquireError ErrInterrupted
      | ENOLCK => AcquireError ErrOutOfKernelMemory
      | EOTHER => AcquireError ErrFlock
      end
  end.

(** [args[0] != "@restart" && args[0] != "@exit" && args[0] != "@alive"],
    negated. *)
Definition is_control_verb (a : string) : bool :=
  String.eqb a "@restart" || String.eqb a "@exit" || String.eqb a "@alive".

(** The block guarded by that test: the [iexec] header. [err] is the one
    variable every captured write assigns; the write of [--] does not. *)
Definition write_header (callback : option FIFOCallback)
    (server_tmp_dir stdout_fn stderr_fn : string) (f : pipe) : pipe * option error :=
  let '(f, err) := Fprintf f ("iexec" +:+ nl) in
  match callback with
  | None => (f, err)
  | Some _ =>
      let '(f, err) := Fprintf f ("-s" +:+ nl) in
      let '(f, err) := Fprintf f (Join server_tmp_dir "status" +:+ nl) in
      let '(f, err) :=
        if negb (String.eqb stdout_fn EmptyString) then
          let '(f, err) := Fprintf f ("-o" +:+ nl) in
          Fprintf f (Join server_tmp_dir "stdout" +:+ nl)
        else (f, err) in
      let '(f, err) :=
        if negb (String.eqb stderr_fn EmptyString) then
          let '(f, err) := Fprintf f ("-e" +:+ nl) in
          Fprintf f (Join server_tmp_dir "stderr" +:+ nl)
        else (f, err) in
      let '(f, _) := Fprintf f ("--" +:+ nl) in
      (f, err)
  end.

(** The loop over [args]: [Some r] when it returns [r] from the function
    (after a failed write and the attempt to write the sentinel, whose own
    result is what is returned), [None] when it runs to its end. *)
Fixpoint write_args (f : pipe) (args : list string) : pipe * option (option error) :=
  match args with
  | [] => (f, None)
  | a :: rest =>
      let '(f, err) := Fprintf f (a +:+ nl) in
      match err with
      | Some _ =>
          let '(f, err) := Fprintf f sentinel in
          (f, Some err)
      | None => write_args f rest
      end
  end.

Inductive outcome :=
  | Returned (err : option error)
  | Blocked    (* waits for the lock or for the status pipe *)
  | Panicked.  (* run-time panic *)

(** A call of [ExecuteDaemonOnServerWithCallback] as seen from outside. *)
Record run := {
  ret : outcome;
  frame : list string;                 (* the writes attempted on the command pipe *)
  handled : option FIFOCommandResult;  (* the argument of HandleTerminate, when called *)
  background : bool                    (* a goroutine was started for WaitUntilDone *)
}.

Definition stop (o : outcome) : run :=
  {| ret := o; frame := []; handled := None; background := false |}.

(** From "we've acquired the lock" to the end of the function. *)
Definition write_frame (env : client_env) (args : list string)
    (callback : option FIFOCallback) (server_tmp_dir stdout_fn stderr_fn : string) : run :=
  let f := {| written := []; failing := write_failures env |} in
  match args with
  | [] => stop Panicked (* args[0]: index out of range *)
  | a0 :: _ =>
      let '(f, err) :=
        if negb (is_control_verb a0)
        then write_header callback server_tmp_dir stdout_fn stderr_fn f
        else (f, None) in
      match err with
      | Some e => {| ret := Returned (Some e); frame := written f;
                     handled := None; background := false |}
      | None =>
          match write_args f args with
          | (f, Some r) => {| ret := Returned r; frame := written f;
                              handled := None; background := false |}
          | (f, None) =>
              let '(f, _) := Fprintf f sentinel in
              match callback with
              | None => {| ret := Returned None; frame := written f;
                           handled := None; background := false |}
              | Some cb =>
                  if ShouldBlockUntilTerminated cb then
                    match WaitUntilDone (status env) stdout_fn stderr_fn with
                    | WaitReturned e h =>
                        {| ret := Returned e; frame := written f;
                           handled := h; background := false |}
                    | WaitBlocked =>
                        {| ret := Blocked; frame := written f;
                           handled := None; background := false |}
                    end
                  else {| ret := Returned None; frame := written f;
                          handled := None; background := true |}
              end
          end
      end
  end.

(** [ExecuteDaemonOnServerWithCallback]. The receiver is a pointer: on a nil
    receiver the first field access panics. *)
Definition ExecuteDaemonOnServerWithCallback (this : option FIFOCommand)
    (env : client_env) (args : list string) (callback : option FIFOCallback) : run :=
  match this with
  | None => stop Panicked
  | Some this =>
      let setup : error + (string * string * string) :=
        match callback with
        | None => inr (EmptyString, EmptyString, EmptyString)
        | Some cb =>
            match TempDir_suffix env with
            | None => inl ErrTempDir
            | Some suffix =>
                let tmp_dir := Join (Join (Rootfs this) "/tmp") ("iexec" +:+ suffix) in
                let server_tmp_dir := Join "/tmp" (Base tmp_dir) in
                if negb (MkFIFO_ok env) then inl ErrMkFIFO
                else
                  inr (server_tmp_dir,
                       if ShouldStoreStandardOutput cb then Join tmp_dir "stdout" else EmptyString,
                       if ShouldStoreStandardError cb then Join tmp_dir "stderr" else EmptyString)
            end
        end in
      match setup with
      | inl e => stop (Returned (Some e))
      | inr (server_tmp_dir, stdout_fn, stderr_fn) =>
          if negb (FileExists (fs env) (Filename this)) then stop (Returned (Some ErrNoSuchFile))
          else if negb (IsFIFO (fs env) (Filename this)) then stop (Returned (Some ErrNotAFifo))
          else
            match acquire (ClientNonBlocking this) (attempts env) with
            | AcquireError e => stop (Returned (Some e))
            | AcquireBlocked => stop Blocked
            | Acquired => write_frame env args callback server_tmp_dir stdout_fn stderr_fn
            end
      end
  end.

(** [ExecuteDaemonOnServer]. *)
Definition ExecuteDaemonOnServer (this : option FIFOCommand) (env : client_env)
    (args : list string) : run :=
  ExecuteDaemonOnServerWithCallback this env args None.

(** [ExecuteDaemonOnServerBlockOnClient]: the result starts as
    [FIFOCommandResult{nil, nil, nil, 0, 0}] and [HandleTerminate] copies
    the reader's result into it. *)
Definition ExecuteDaemonOnServerBlockOnClient (this : option FIFOCommand)
    (env : client_env) (args : list string) : FIFOCommandResult * run :=
  let r := ExecuteDaemonOnServerWithCallback this env args
             (Some (NewSimpleFIFOCallback true true true)) in
  (match handled r with
   | Some result => result
   | None => {| Out := EmptyString; Err := EmptyString; SignalCodes := []; ExitCode := 0; Pid := 0 |}
   end, r).

(** [RequestServerShutdown], [RequestServerRestart], [WaitUntilServerIsAlive]. *)
Definition RequestServerShutdown (this : option FIFOCommand) (env : client_env) : run :=
  ExecuteDaemonOnServerWithCallback this env ["@exit"] None.

Definition RequestServerRestart (this : option FIFOCommand) (env : client_env) : run :=
  ExecuteDaemonOnServerWithCallback this env ["@restart"] None.

Definition WaitUntilServerIsAlive (this : option FIFOCommand) (env : client_env) : run :=
  ExecuteDaemonOnServerWithCallback this env ["@alive"] None.

(** *** The vocabulary of the statements about the write path *)

(** A token as it is written: followed by a line feed. *)
Definition line (token : string) : string := token +:+ nl.

(** Everything before the label [try_again] succeeds: the temporary
    directory and the status pipe are made when a callback is given, and
    the command pipe exists and is a FIFO. *)
Definition pre_lock_ok (this : FIFOCommand) (env : client_env)
    (callback : option FIFOCallback) : bool :=
  match callback with
  | None => true
  | Some _ => match TempDir_suffix env with Some _ => MkFIFO_ok env | None => false end
  end && FileExists (fs env) (Filename this) && IsFIFO (fs env) (Filename this).



(** An environment with a command pipe at [/root/.cmd]: the given passes
    through [try_again], the given failing writes, a status pipe that
    reports [exit 0]. *)
Definition sample_env (tries : list lock_attempt) (failures : list bool) : client_env :=
  {| TempDir_suffix := Some "123"; MkFIFO_ok := true;
     fs := {[ "/root/.cmd" := KFifo ]};
     attempts := tries; write_failures := failures;
     status := env_of [Open_ok [complete "exit 0"]] |}.

Definition sample_command (nonblocking : bool) : FIFOCommand :=
  {| Filename := "/root/.cmd"; Verbose := false; ServerNonBlocking := true;
     ClientNonBlocking := nonblocking; ClientTTYShare := false; Uid := 0; Gid := 0;
     Rootfs := EmptyString |}.

(** The position of the first operation that fails, counted from 0, in a
    sequence of operations of which [failures] tells which ones fail. *)
Fixpoint first_failure (failures : list bool) : option nat :=
  match failures with
  | [] => None
  | true :: _ => Some 0%nat
  | false :: rest => option_map S (first_failure rest)
  end.

(** How many of [n] operations are attempted by a loop that stops at the
    first one that fails: those up to and including the failing one, and
    all [n] when none of them fails. *)
Definition attempted (failures : list bool) (n : nat) : nat :=
  match first_failure failures with
  | Some i => Nat.min (S i) n
  | None => n
  end.

(** One of the first [n] operations fails. *)
Definition fails_within (failures : list bool) (n : nat) : bool :=
  match first_failure failures with
  | Some i => (i <? n)%nat
  | None => false
  end.

End Client.

(** ** cgroups.go: the configuration renderer *)

Module Cgroups.

(** [GetCGroupKeys]: the valid LXC configuration keys, in their order. *)
Definition GetCGroupKeys : list string :=
  [ "lxc.utsname";
    "lxc.tty";
    "lxc.pts";
    "lxc.devttydir";
    "lxc.rootfs";
    "lxc.rootfs.mount";
    "lxc.mount";
    "lxc.arch";
    "lxc.cap.drop";
    "lxc.pivotdir";
    "lxc.network.type";
    "lxc.network.flags";
    "lxc.network.name";
    "lxc.network.link";
    "lxc.network.macvlan.mode";
    "lxc.network.hwaddr";
    "lxc.network.ipv4";
    "lxc.network.ipv4.gateway";
    "lxc.network.ipv6";
    "lxc.network.ipv6.gateway";
    "lxc.network.vlan.id";
    "lxc.network.mtu";
    "lxc.network.script.up";
    "lxc.network.veth.pair";
    "lxc.cgroup.devices.deny";
    "lxc.cgroup.devices.allow";
    "lxc.cgroup.cpu.shares";
    "lxc.cgroup.memory.force_empty";
    "lxc.cgroup.memory.limit_in_bytes";
    "lxc.cgroup.memory.memsw.limit_in_bytes";
    "lxc.cgroup.memory.move_charge_at_immigrate";
    "lxc.cgroup.memory.oom_control";
    "lxc.cgroup.memory.soft_limit_in_bytes";
    "lxc.cgroup.memory.swappiness";
    "lxc.cgroup.memory.usage_in_bytes";
    "lxc.cgroup.memory.use_hierarchy";
    "lxc.cgroup.cpuset.cpu_exclusive";
    "lxc.cgroup.cpuset.cpus";
    "lxc.cgroup.cpuset.mem_exclusive";
    "lxc.cgroup.cpuset.mem_hardwall";
    "lxc.cgroup.cpuset.memory_migrate";
    "lxc.cgroup.cpuset.memory_spread_page";
    "lxc.cgroup.cpuset.memory_spread_slab";
    "lxc.cgroup.cpuset.mems";
    "lxc.cgroup.cpuset.sched_load_balance";
    "lxc.cgroup.cpuset.sched_relax_domain_level";
    "lxc.cgroup.blkio.reset_stats";
    "lxc.cgroup.blkio.sectors";
    "lxc.cgroup.blkio.throttle.read_bps_device";
    "lxc.cgroup.blkio.throttle.read_iops_device";
    "lxc.cgroup.blkio.throttle.write_bps_device";
    "lxc.cgroup.blkio.throttle.write_iops_device";
    "lxc.cgroup.blkio.weight";
    "lxc.cgroup.blkio.weight_device" ].

(** [GetCGroupKeyArrayAndSet]: the keys and the set of them, a map to [true]. *)
Definition GetCGroupKeyArrayAndSet : list string * gmap string bool :=
  let keys := GetCGroupKeys in
  (keys, fold_left (fun keyset key => <[key := true]> keyset) keys ∅).

(** [keyset[key]]: indexing a Go map at an absent key gives the zero value. *)
Definition index_set (keyset : gmap string bool) (key : string) : bool :=
  match keyset !! key with Some b => b | None => false end.

(** [info[key]]: a nil slice at an absent key; a nil slice and an empty one
    are both ranged over zero times. *)
Definition index_info (info : gmap string (list string)) (key : string) : list string :=
  match info !! key with Some value_list => value_list | None => [] end.

(** [fmt.Sprintf("%s = %s\n", key, value)]. *)
Definition config_line (key value : string) : string :=
  key +:+ " = " +:+ value +:+ nl.

(** The first loop of [GetCgroupInfoBytes]: [order] is the order in which
    [range info] yields the keys of [info]; the first key outside the set
    stops the function. *)
Fixpoint first_invalid (keyset : gmap string bool) (order : list string) : option string :=
  match order with
  | [] => None
  | key :: rest =>
      if negb (index_set keyset key) then Some key else first_invalid keyset rest
  end.

(** The inner loop of the second one: [buffer = append(buffer, line...)]
    for every value. *)
Fixpoint append_values (buffer key : string) (value_list : list string) : string :=
  match value_list with
  | [] => buffer
  | value :: rest => append_values (buffer +:+ config_line key value) key rest
  end.

(** The second loop, over the keys in their fixed order. *)
Fixpoint append_keys (buffer : string) (info : gmap string (list string))
    (keys : list string) : string :=
  match keys with
  | [] => buffer
  | key :: rest => append_keys (append_values buffer key (index_info info key)) info rest
  end.

(** [GetCgroupInfoBytes(info)], with the iteration order of [range info].
    The nil byte slice of the error case is the empty string. *)
Definition GetCgroupInfoBytes (order : list string) (info : gmap string (list string))
  : string * option error :=
  let '(keys, keyset) := GetCGroupKeyArrayAndSet in
  match first_invalid keyset order with
  | Some key => (EmptyString, Some (ErrInvalidKey key))
  | None => (append_keys EmptyString info keys, None)
  end.

(** An order in which [range info] can yield the keys: every key of the map
    once. *)
Definition iteration_of (info : gmap string (list string)) (order : list string) : Prop :=
  NoDup order ∧ dom info = list_to_set (C:=gset string) order.

(** *** The vocabulary of the statements about the renderer *)

(** A line [key = value] of the configuration file, byte by byte: the
    key, a space, the equals sign, a space, the value and a line feed. *)
Definition key_value_line (key value : string) : string :=
  key +:+ String " " (String "=" (String " " (value +:+ String "010" EmptyString))).

(** The lines of a configuration: for the keys of the allow-list in their
    order, one line [key = value] for each value of a key the mapping has. *)
Definition config_lines (info : gmap string (list string)) : list string :=
  flat_map (fun key => match info !! key with
                       | Some value_list => map (key_value_line key) value_list
                       | None => []
                       end) GetCGroupKeys.

(** The bytes of a sequence of lines. *)
Definition concat_lines (lines : list string) : string :=
  fold_right String.append EmptyString lines.

(** A mapping with two valid keys and two keys outside the allow-list. *)
Definition two_bogus_keys : gmap string (list string) :=
  {[ "lxc.tty" := ["4"]; "lxc.bogus" := ["1"]; "lxc.arch" := ["amd64"];
     "lxc.other" := [] ]}.

(** A mapping of valid keys only, one of them with two values. *)
Definition small_info : gmap string (list string) :=
  {[ "lxc.tty" := ["4"]; "lxc.cgroup.devices.allow" := ["c 1:3 rwm"; "c 1:5 rwm"];
     "lxc.arch" := ["amd64"] ]}.

(** [GetDefaultCgroupInfo]. *)
Definition GetDefaultCgroupInfo (container_name rootfs fstab : string)
  : gmap string (list string) :=
  list_to_map
    [ ("lxc.utsname", [container_name]);
      ("lxc.tty", ["4"]);
      ("lxc.pts", ["1024"]);
      ("lxc.rootfs", [rootfs]);
      ("lxc.mount", [fstab]);
      ("lxc.arch", ["amd64"]);
      ("lxc.cap.drop", ["sys_module"]);
      ("lxc.network.type", ["veth"]);
      ("lxc.network.flags", ["up"]);
      ("lxc.network.name", ["eth0"]);
      ("lxc.network.link", ["br0"]);
      ("lxc.network.ipv4", ["0.0.0.0"]);
      ("lxc.cgroup.devices.deny", ["a"]);
      ("lxc.cgroup.devices.allow",
       ["c *:* m"; "b *:* m"; "c 1:3 rwm"; "c 1:5 rwm"; "c 5:1 rwm";
        "c 5:0 rwm"; "c 4:0 rwm"; "c 4:1 rwm"; "c 1:9 rwm"; "c 1:8 rwm";
        "c 136:* rwm"; "c 5:2 rwm"; "c 254:0 rwm"; "c 10:229 rwm";
        "c 10:200 rwm"]) ].

End Cgroups.

(** ** limits.go: the resource limits *)

Module Limits.

Definition RLIMIT_UNCHANGED : Z := -2.

(** [ResourceLimits] (the field [as] is spelled [as_]). *)
Record ResourceLimits := {
  cpu : Z;
  fsize : Z;
  data : Z;
  stack : Z;
  core : Z;
  rss : Z;
  nofile : Z;
  as_ : Z;
  nproc : Z;
  memproc : Z;
  locks : Z;
  sigpending : Z;
  msgqueue : Z;
  nice : Z;
  rtprio : Z
}.

(** [NewResourceLimits]. *)
Definition NewResourceLimits : ResourceLimits :=
  {| cpu := RLIMIT_UNCHANGED; fsize := RLIMIT_UNCHANGED; data := RLIMIT_UNCHANGED; stack := RLIMIT_UNCHANGED; core := RLIMIT_UNCHANGED; rss := RLIMIT_UNCHANGED; nofile := RLIMIT_UNCHANGED; as_ := RLIMIT_UNCHANGED; nproc := RLIMIT_UNCHANGED; memproc := RLIMIT_UNCHANGED; locks := RLIMIT_UNCHANGED; sigpending := RLIMIT_UNCHANGED; msgqueue := RLIMIT_UNCHANGED; nice := RLIMIT_UNCHANGED; rtprio := RLIMIT_UNCHANGED |}.

(** [make([]byte, n)]: [n] zero bytes. *)
Fixpoint make_bytes (n : nat) : string :=
  match n with
  | O => EmptyString
  | S m => String Ascii.zero (make_bytes m)
  end.

(** [if v != RLIMIT_UNCHANGED { buffer = append(buffer, fmt.Sprintf(flag + "%d", v)...) }] *)
Definition emit (buffer flag : string) (v : Z) : string :=
  if negb (v =? RLIMIT_UNCHANGED) then buffer +:+ flag +:+ FormatInt v else buffer.

(** [ResourceLimitsToIexecArgString(soft, hard)]; a nil record is [None]. *)
Definition ResourceLimitsToIexecArgString (soft hard : option ResourceLimits) : string :=
  let buffer := make_bytes 1024 in
  let buffer :=
    match soft with
    | None => buffer
    | Some soft =>
      let buffer := emit buffer " --rlimit-cpu-soft " (cpu soft) in
      let buffer := emit buffer " --rlimit-fsize-soft " (fsize soft) in
      let buffer := emit buffer " --rlimit-data-soft " (data soft) in
      let buffer := emit buffer " --rlimit-stack-soft " (stack soft) in
      let buffer := emit buffer " --rlimit-core-soft " (core soft) in
      let buffer := emit buffer " --rlimit-rss-soft " (rss soft) in
      let buffer := emit buffer " --rlimit-nofile-soft " (nofile soft) in
      let buffer := emit buffer " --rlimit-as-soft " (as_ soft) in
      let buffer := emit buffer " --rlimit-nproc-soft " (nproc soft) in
      let buffer := emit buffer " --rlimit-memproc-soft " (memproc soft) in
      let buffer := emit buffer " --rlimit-locks-soft " (locks soft) in
      let buffer := emit buffer " --rlimit-sigpending-soft " (sigpending soft) in
      let buffer := emit buffer " --rlimit-msgqueue-soft " (msgqueue soft) in
      let buffer := emit buffer " --rlimit-nice-soft " (nice soft) in
      let buffer := emit buffer " --rlimit-rtprio-soft " (rtprio soft) in
      buffer
    end in
  let buffer :=
    match hard with
    | None => buffer
    | Some hard =>
      let buffer := emit buffer " --rlimit-cpu-hard " (cpu hard) in
      let buffer := emit buffer " --rlimit-fsize-hard " (fsize hard) in
      let buffer := emit buffer " --rlimit-data-hard " (data hard) in
      let buffer := emit buffer " --rlimit-stack-hard " (stack hard) in
      let buffer := emit buffer " --rlimit-core-hard " (core hard) in
      let buffer := emit buffer " --rlimit-rss-hard " (rss hard) in
      let buffer := emit buffer " --rlimit-nofile-hard " (nofile hard) in
      let buffer := emit buffer " --rlimit-as-hard " (as_ hard) in
      let buffer := emit buffer " --rlimit-nproc-hard " (nproc hard) in
      let buffer := emit buffer " --rlimit-memproc-hard " (memproc hard) in
      let buffer := emit buffer " --rlimit-locks-hard " (locks hard) in
      let buffer := emit buffer " --rlimit-sigpending-hard " (sigpending hard) in
      let buffer := emit buffer " --rlimit-msgqueue-hard " (msgqueue hard) in
      let buffer := emit buffer " --rlimit-nice-hard " (nice hard) in
      let buffer := emit buffer " --rlimit-rtprio-hard " (rtprio hard) in
      buffer
    end in
  buffer.

End Limits.

(** ** container.go: the container and its lifecycle probes *)

Module Containers.

Import Util Status Client Limits.

(** [ImageSet] (image_set.go). *)
Record ImageSet := {
  is_name : string;
  idir : string;
  is_rootfs : string;
  rootfs_archive_path : string
}.

(** [Container]. *)
Record Container := {
  name : string;
  cdir : string;
  meta_dir : string;
  rootfs : string;
  private_dir : string;
  config_pathname : string;
  fstab_pathname : string;
  image_set : option ImageSet;
  Cgroup_info : gmap string (list string);
  Soft_limits : option ResourceLimits;
  Hard_limits : option ResourceLimits
}.

(** [NewContainerFromDefaultCache]. *)
Definition NewContainerFromDefaultCache (container_name containers_path : string)
  : Container :=
  let container_dir := Join containers_path container_name in
  let rootfs := Join container_dir "rootfs" in
  let fstab := Join container_dir "fstab" in
  {| name := container_name;
     cdir := container_dir;
     meta_dir := Join container_dir "meta";
     rootfs := rootfs;
     private_dir := Join container_dir "private-data";
     config_pathname := Join container_dir "config";
     fstab_pathname := fstab;
     image_set := None;
     Cgroup_info := Cgroups.GetDefaultCgroupInfo container_name rootfs fstab;
     Soft_limits := None;
     Hard_limits := None |}.

(** [NewContainerFromImageSet]. *)
Definition NewContainerFromImageSet (container_name containers_path : string)
    (image_set : option ImageSet) : Container :=
  let container_dir := Join containers_path container_name in
  let rootfs := Join container_dir "rootfs" in
  let fstab := Join container_dir "fstab" in
  {| name := container_name;
     cdir := container_dir;
     meta_dir := Join container_dir "meta";
     rootfs := Join container_dir "rootfs";
     private_dir := Join container_dir "private-data";
     config_pathname := Join container_dir "config";
     fstab_pathname := Join container_dir "fstab";
     image_set := image_set;
     Cgroup_info := Cgroups.GetDefaultCgroupInfo container_name rootfs fstab;
     Soft_limits := None;
     Hard_limits := None |}.

(** [GetHomeDirectory]. *)
Definition GetHomeDirectory (user : string) : string :=
  if String.eqb user "root" then "/root" else "/home/" +:+ user.

(** [IsMounted]. *)
Definition IsMounted (this : Container) (fs : gmap string file_kind) : bool :=
  DirExists fs (Join (rootfs this) "/etc").

(** [IsRunning]. *)
Definition IsRunning (this : Container) (fs : gmap string file_kind) : bool :=
  DirExists fs (Join "/cgroup/lxc" (name this)).

(** [IsCreated]. *)
Definition IsCreated (this : Container) (fs : gmap string file_kind) : bool :=
  DirExists fs (rootfs this) &&
  DirExists fs (meta_dir this) &&
  DirExists fs (private_dir this) &&
  FileExists fs (config_pathname this) &&
  FileExists fs (fstab_pathname this).

Inductive exec_outcome :=
  | ExecReturned (result : option FIFOCommandResult) (err : option error)
  | ExecBlocked
  | ExecPanicked.

(** [ExecuteImpl]. For a user other than [root] and [web] the error value
    is built and dropped, and [fifo_command] stays nil. *)
Definition ExecuteImpl (this : Container) (env : client_env)
    (user : string) (args : list string) (blocked : bool) : exec_outcome :=
  let home_dir := GetHomeDirectory user in
  let home_dir_on_host := Join (rootfs this) home_dir in
  if negb (DirExists (fs env) home_dir_on_host) then
    ExecReturned None (Some ErrHomeMissing)
  else
    let cmd_file := Join home_dir_on_host ".cmd" in
    let fifo_command :=
      if String.eqb user "root" then
        Some (NewFIFOCommandForUser cmd_file (rootfs this) 0 0)
      else if String.eqb user "web" then
        Some (NewFIFOCommandForUser cmd_file (rootfs this) 1000 1000)
      else None in
    if blocked then
      let '(result, r) := ExecuteDaemonOnServerBlockOnClient fifo_command env args in
      match ret r with
      | Returned cmd_err => ExecReturned (Some result) cmd_err
      | Blocked => ExecBlocked
      | Panicked => ExecPanicked
      end
    else
      match ret (ExecuteDaemonOnServer fifo_command env args) with
      | Returned cmd_err => ExecReturned None cmd_err
      | Blocked => ExecBlocked
      | Panicked => ExecPanicked
      end.

(** [Execute] and [ExecuteBlocked]. *)
Definition Execute (this : Container) (env : client_env) (user : string)
    (args : list string) : exec_outcome :=
  ExecuteImpl this env user args false.

Definition ExecuteBlocked (this : Container) (env : client_env) (user : string)
    (args : list string) : exec_outcome :=
  ExecuteImpl this env user args true.

(** *** The vocabulary of the statements about the container *)

(** The container [c1] under [/web]. *)
Definition sample_container : Container := NewContainerFromDefaultCache "c1" "/web".

(** The file system [Create] leaves behind when [WriteConfig] fails after
    the mount: every component but the configuration file is there, and the
    root file system is mounted. *)
Definition mounted_without_config : gmap string file_kind :=
  list_to_map
  [ ("/web", KDir); ("/web/c1", KDir); ("/web/c1/rootfs", KDir);
    ("/web/c1/meta", KDir); ("/web/c1/private-data", KDir);
    ("/web/c1/fstab", KRegular); ("/web/c1/rootfs/etc", KDir) ].

(** A created container whose control group exists while its root file
    system is not mounted (unmounted while it runs). *)
Definition running_unmounted : gmap string file_kind :=
  list_to_map
  [ ("/web", KDir); ("/web/c1", KDir); ("/web/c1/rootfs", KDir);
    ("/web/c1/meta", KDir); ("/web/c1/private-data", KDir);
    ("/web/c1/config", KRegular); ("/web/c1/fstab", KRegular); ("/cgroup", KDir);
    ("/cgroup/lxc", KDir); ("/cgroup/lxc/c1", KDir) ].

(** A created, mounted and running container with the home directories of
    [root], [web] and a third user [bob], and the two command pipes. *)
Definition running_with_bob : gmap string file_kind :=
  list_to_map
  [ ("/web", KDir); ("/web/c1", KDir); ("/web/c1/rootfs", KDir);
    ("/web/c1/meta", KDir); ("/web/c1/private-data", KDir);
    ("/web/c1/config", KRegular); ("/web/c1/fstab", KRegular);
    ("/web/c1/rootfs/etc", KDir); ("/web/c1/rootfs/root", KDir);
    ("/web/c1/rootfs/home", KDir); ("/web/c1/rootfs/home/web", KDir);
    ("/web/c1/rootfs/home/bob", KDir); ("/web/c1/rootfs/root/.cmd", KFifo);
    ("/web/c1/rootfs/home/web/.cmd", KFifo); ("/cgroup", KDir);
    ("/cgroup/lxc", KDir); ("/cgroup/lxc/c1", KDir) ].

(** The environment of a call in that file system: the lock is free, no
    write fails, the status pipe reports [exit 0]. *)
Definition env_with_bob : client_env :=
  {| TempDir_suffix := Some "123"; MkFIFO_ok := true; fs := running_with_bob;
     attempts := [Flock None]; write_failures := [];
     status := env_of [Open_ok [complete "exit 0"]] |}.

End Containers.

(** ** commands.go: the command server *)

Module Server.

Import Util Status Client.

(** The errors [RunServer] returns. *)
Inductive server_error :=
  | SrvLockFile      (* "server: cannot open daemon-lock file" *)
  | SrvLockHeld      (* "daemon lock already held by another process" *)
  | SrvEBADF         (* "strange: got EBADF" *)
  | SrvInterrupted   (* "interrupted" *)
  | SrvOutOfKernelMemory (* "out of kernel memory" *)
  | SrvNotAFifo      (* "exists but is not a named FIFO pipe" *)
  | SrvOpen          (* os.OpenFile of the command pipe failed *)
  | SrvRun           (* cmd.Run() failed *)
  | SrvUnlock.       (* flock(LOCK_UN) failed *)

(** The sentinel as [ReadLine] returns it, without the line feed. *)
Definition sentinel_token : string := "-*-EOFENDEOFEND-*-".

(** The variables of the reading loop: the bytes buffered for the current
    line and the argument lists; [args] points at the last of them. *)
Record parse_state := {
  buffer : string;
  arg_lists : list (list string)
}.

(** [*args = append( *args, sline)]. *)
Fixpoint append_to_last (lists : list (list string)) (sline : string)
  : list (list string) :=
  match lists with
  | [] => []
  | [args] => [(args ++ [sline])%list]
  | first :: rest => first :: append_to_last rest sline
  end.

(** The body of the reading loop for one return of [ReadLine]. The loop has
    no test of the error: a failed [ReadLine] has returned a nil line with
    [isPrefix] false and is treated as the end of a line. *)
Definition read_line_step (st : parse_state) (ev : read_event) : parse_state :=
  let '(line, isPrefix) :=
    match ev with
    | ReadLine_ok line isPrefix => (line, isPrefix)
    | ReadLine_err => (EmptyString, false)
    end in
  let buffer := buffer st +:+ line in
  if isPrefix then {| buffer := buffer; arg_lists := arg_lists st |}
  else if String.eqb buffer sentinel_token then
    {| buffer := EmptyString; arg_lists := (arg_lists st ++ [[]])%list |}
  else {| buffer := EmptyString; arg_lists := append_to_last (arg_lists st) buffer |}.

(** The reading loop over one open of the command pipe. *)
Definition read_frames (evs : list read_event) : list (list string) :=
  arg_lists (fold_left read_line_step evs
               {| buffer := EmptyString; arg_lists := [[]] |}).

(** The commands run so far, and for the coming runs whether [cmd.Run()]
    fails (a run beyond the list succeeds). *)
Record runner := {
  executed : list (list string);
  run_failures : list bool
}.

(** [exec.Command(argv[0], argv[1:]...)] followed by [cmd.Run()]. *)
Definition Run (r : runner) (argv : list string) : runner * option server_error :=
  match run_failures r with
  | true :: rest =>
      ({| executed := (executed r ++ [argv])%list; run_failures := rest |}, Some SrvRun)
  | false :: rest =>
      ({| executed := (executed r ++ [argv])%list; run_failures := rest |}, None)
  | [] => ({| executed := (executed r ++ [argv])%list; run_failures := [] |}, None)
  end.

Inductive batch_outcome :=
  | BatchDone      (* the loop over the frames ran to its end *)
  | BatchExit      (* @exit *)
  | BatchRestart   (* @restart *)
  | BatchFailed.   (* a command failed *)

(** The loop [for k := 0; k < len(arg_lists); k++]. *)
Fixpoint process_frames (r : runner) (frames : list (list string))
  : runner * batch_outcome :=
  match frames with
  | [] => (r, BatchDone)
  | frame :: rest =>
      match frame with
      | [] => process_frames r rest
      | a0 :: _ =>
          if String.eqb a0 "@exit" then (r, BatchExit)
          else if String.eqb a0 "@restart" then (r, BatchRestart)
          else if String.eqb a0 "@alive" then process_frames r rest
          else
            let '(r, run_err) := Run r frame in
            match run_err with
            | Some _ => (r, BatchFailed)
            | None => process_frames r rest
            end
      end
  end.

(** One pass through the server's label [try_again]: the open of the lock
    file fails, or [flock] returns. *)
Inductive lock_file_attempt :=
  | LockFileOpenFails
  | LockFileFlock (r : option errno).

Inductive server_acquire :=
  | SrvAcquired (rest : list lock_file_attempt)
  | SrvAcquireError (e : server_error)
  | SrvAcquireBlocked.

(** From [try_again] to "daemon-lock: acquired". The switch over the errno
    has no default case: any other errno leaves the switch and the server
    goes on. *)
Fixpoint server_acquire_lock (nonblocking : bool) (tries : list lock_file_attempt)
  : server_acquire :=
  match tries with
  | [] => SrvAcquireBlocked
  | LockFileOpenFails :: _ => SrvAcquireError SrvLockFile
  | LockFileFlock None :: rest => SrvAcquired rest
  | LockFileFlock (Some e) :: rest =>
      match e with
      | EWOULDBLOCK =>
          if nonblocking then SrvAcquireError SrvLockHeld
          else server_acquire_lock nonblocking rest
      | EBADF => SrvAcquireError SrvEBADF
      | EINTR => SrvAcquireError SrvInterrupted
      | ENOLCK => SrvAcquireError SrvOutOfKernelMemory
      | EOTHER => SrvAcquired rest
      end
  end.

(** One turn of the loop [for true]: what [os.Stat] says about the command
    pipe ([None] when it is absent and [MkFIFO] is called), and what the
    open delivers until end of file ([None] when it fails). *)
Record turn := {
  pipe_stat : option file_kind;
  pipe_open : option (list read_event)
}.

Inductive server_outcome :=
  | SrvReturned (err : option server_error)
  | SrvBlocked.  (* waits for the lock or for a client to open the pipe *)

(** The loop [for true], with the jumps back to [try_again]. *)
Fixpoint serve (nonblocking unlock_fails : bool) (turns : list turn)
    (tries : list lock_file_attempt) (r : runner) : runner * server_outcome :=
  match turns with
  | [] => (r, SrvBlocked)
  | t :: rest =>
      match pipe_stat t with
      | Some KFifo | None =>
          match pipe_open t with
          | None => (r, SrvReturned (Some SrvOpen))
          | Some evs =>
              match process_frames r (read_frames evs) with
              | (r, BatchDone) => serve nonblocking unlock_fails rest tries r
              | (r, BatchExit) =>
                  (r, SrvReturned (if unlock_fails then Some SrvUnlock else None))
              | (r, BatchFailed) => (r, SrvReturned (Some SrvRun))
              | (r, BatchRestart) =>
                  match server_acquire_lock nonblocking tries with
                  | SrvAcquired tries => serve nonblocking unlock_fails rest tries r
                  | SrvAcquireError e => (r, SrvReturned (Some e))
                  | SrvAcquireBlocked => (r, SrvBlocked)
                  end
              end
          end
      | Some _ => (r, SrvReturned (Some SrvNotAFifo))
      end
  end.

(** What [RunServer] sees of the outside world. *)
Record server_env := {
  lock_tries : list lock_file_attempt;
  turns : list turn;
  command_failures : list bool;
  unlock_fails : bool
}.

(** [RunServer]. *)
Definition RunServer (this : FIFOCommand) (env : server_env) : runner * server_outcome :=
  let r := {| executed := []; run_failures := command_failures env |} in
  match server_acquire_lock (ServerNonBlocking this) (lock_tries env) with
  | SrvAcquired tries => serve (ServerNonBlocking this) (unlock_fails env) (turns env) tries r
  | SrvAcquireError e => (r, SrvReturned (Some e))
  | SrvAcquireBlocked => (r, SrvBlocked)
  end.

(** *** The vocabulary of the statements about the server *)

(** The line feed and the carriage return. *)
Definition LF : ascii := ascii_of_nat 10.
Definition CR : ascii := ascii_of_nat 13.

(** A line without the carriage return that ended it. *)
Fixpoint strip_cr (s : string) : string :=
  match s with
  | EmptyString => EmptyString
  | String c EmptyString => if Ascii.eqb c CR then EmptyString else s
  | String c r => String c (strip_cr r)
  end.

(** The lines [ReadLine] finds in a stream of bytes: the pieces between the
    line feeds, each without a carriage return just before its line feed,
    and what follows the last line feed when it is not empty. *)
Definition lines_of_bytes (bytes : string) : list string :=
  let pieces := Split bytes LF in
  (map strip_cr (removelast pieces) ++
   match last pieces with
   | Some EmptyString | None => []
   | Some rest => [rest]
   end)%list.

(** The bytes a sequence of writes puts on the pipe. *)
Definition bytes_of (writes : list string) : string :=
  fold_right String.append EmptyString writes.

(** The lines a sequence of returns of [ReadLine] stands for: the pieces
    delivered with [isPrefix] are joined to the piece that ends the line. *)
Fixpoint assemble (pending : string) (evs : list read_event) : list string :=
  match evs with
  | [] => []
  | ReadLine_ok piece true :: rest => assemble (pending +:+ piece) rest
  | ReadLine_ok piece false :: rest => (pending +:+ piece) :: assemble EmptyString rest
  | ReadLine_err :: rest => pending :: assemble EmptyString rest
  end.

(** The frames of a sequence of lines: a sentinel line ends a frame; the
    last frame holds the lines after the last sentinel. *)
Fixpoint split_frames (lines : list string) : list (list string) :=
  match lines with
  | [] => [[]]
  | l :: rest =>
      if String.eqb l sentinel_token then [] :: split_frames rest
      else match split_frames rest with
           | frame :: frames => (l :: frame) :: frames
           | [] => [[l]]
           end
  end.

(** A token that goes through the pipe unchanged: no line feed in it, no
    carriage return at its end, and not the sentinel. *)
Definition plain_token (t : string) : Prop :=
  string_forall (fun c => negb (Ascii.eqb c LF)) t = true /\
  strip_cr t = t /\ t <> sentinel_token.

(** A frame that is handled by the server itself or skipped. *)
Definition is_control_frame (frame : list string) : bool :=
  match frame with
  | a0 :: _ => String.eqb a0 "@exit" || String.eqb a0 "@restart"
  | [] => false
  end.

Definition is_skipped_frame (frame : list string) : bool :=
  match frame with
  | a0 :: _ => String.eqb a0 "@alive"
  | [] => true
  end.

(** The commands of a batch: the frames before the first [@exit] or
    [@restart], without the empty ones and the [@alive] ones. *)
Fixpoint commands_of (frames : list (list string)) : list (list string) :=
  match frames with
  | [] => []
  | frame :: rest =>
      if is_control_frame frame then []
      else if is_skipped_frame frame then commands_of rest
      else frame :: commands_of rest
  end.

(** How a batch ends when no command fails: on the first [@exit] or
    [@restart] frame, and at the end of the frames without one. *)
Fixpoint batch_end (frames : list (list string)) : batch_outcome :=
  match frames with
  | [] => BatchDone
  | [] :: rest => batch_end rest
  | (a0 :: _) :: rest =>
      if String.eqb a0 "@exit" then BatchExit
      else if String.eqb a0 "@restart" then BatchRestart
      else batch_end rest
  end.

(** The frames of a turn. *)
Definition frames_of_turn (t : turn) : list (list string) :=
  match pipe_open t with Some evs => read_frames evs | None => [] end.

(** A server with a free lock that is sent three frames in one open. *)
Definition three_frames : server_env :=
  {| lock_tries := [LockFileFlock None];
     turns := [ {| pipe_stat := Some KFifo;
                   pipe_open := Some [complete "@alive"; complete sentinel_token;
                                      complete "ls"; ReadLine_ok "-" true;
                                      complete "l"; complete sentinel_token;
                                      complete "@exit"; complete sentinel_token;
                                      complete "never"; complete sentinel_token] |} ];
     command_failures := []; unlock_fails := false |}.

End Server.

(** ** commands.go: the vocabulary of the [iexec] frame *)

Module Frames.

Import Util Status Client.

(** The temporary directory and the status pipe are made, when a callback
    asks for them. *)
Definition setup_ok (env : client_env) (callback : option FIFOCallback) : bool :=
  match callback with
  | None => true
  | Some _ => match TempDir_suffix env with Some _ => MkFIFO_ok env | None => false end
  end.

(** The temporary directory as the server sees it. *)
Definition server_dir (this : FIFOCommand) (suffix : string) : string :=
  Join "/tmp" (Base (Join (Join (Rootfs this) "/tmp") ("iexec" +:+ suffix))).

(** The option lines of the header: the status pipe, the two capture files
    the callback asks for, and the separator; nothing without a callback. *)
Definition option_lines (dir : string) (callback : option FIFOCallback) : list string :=
  match callback with
  | None => []
  | Some cb =>
      ([line "-s"; line (Join dir "status")] ++
       (if ShouldStoreStandardOutput cb then [line "-o"; line (Join dir "stdout")] else []) ++
       (if ShouldStoreStandardError cb then [line "-e"; line (Join dir "stderr")] else []) ++
       [line "--"])%list
  end.

(** The tokens of the header, as the server reads them back. *)
Definition option_tokens (dir : string) (callback : option FIFOCallback) : list string :=
  match callback with
  | None => []
  | Some cb =>
      (["-s"; Join dir "status"] ++
       (if ShouldStoreStandardOutput cb then ["-o"; Join dir "stdout"] else []) ++
       (if ShouldStoreStandardError cb then ["-e"; Join dir "stderr"] else []) ++
       ["--"])%list
  end.

(** An environment in which the client can write its frame: the command
    pipe is a FIFO, the lock is free and no write fails. *)
Definition quiet_env (cmd_fifo : string) (st : status_env) : client_env :=
  {| TempDir_suffix := Some "7"; MkFIFO_ok := true;
     fs := {[ cmd_fifo := KFifo ]};
     attempts := [Flock None]; write_failures := []; status := st |}.

(** An environment in which the path of the command pipe is a regular file. *)
Definition regular_file_env : client_env :=
  {| TempDir_suffix := Some "7"; MkFIFO_ok := true;
     fs := {[ "/root/.cmd" := KRegular ]};
     attempts := [Flock None]; write_failures := [];
     status := env_of [] |}.

End Frames.

(** ** commands.go: the records of the status pipe *)

Module StatusRecords.

Import Status.

(** The records with an integer that [iexec] writes to the status pipe. *)
Inductive status_record :=
  | RecKill (n : Z)
  | RecExit (n : Z)
  | RecPid (n : Z)
  | RecStop (n : Z)
  | RecCont (n : Z).

(** A record as a line of the status pipe. *)
Definition record_line (rec : status_record) : string :=
  match rec with
  | RecKill n => "kill " +:+ FormatInt n
  | RecExit n => "exit " +:+ FormatInt n
  | RecPid n => "pid " +:+ FormatInt n
  | RecStop n => "stop " +:+ FormatInt n
  | RecCont n => "cont " +:+ FormatInt n
  end.

Definition record_value (rec : status_record) : Z :=
  match rec with
  | RecKill n | RecExit n | RecPid n | RecStop n | RecCont n => n
  end.

(** The integer of the record fits a 64-bit [int]. *)
Definition in_range (rec : status_record) : Prop :=
  - 2 ^ 63 <= record_value rec < 2 ^ 63.

(** The signals a sequence of records reports, in their order. *)
Definition signals_of (recs : list status_record) : list Z :=
  flat_map (fun rec => match rec with
                       | RecKill n | RecStop n | RecCont n => [n]
                       | _ => []
                       end) recs.

(** The exit code of the last exit record after [code]. *)
Fixpoint exit_of (code : Z) (recs : list status_record) : Z :=
  match recs with
  | [] => code
  | RecExit n :: rest => exit_of n rest
  | _ :: rest => exit_of code rest
  end.

(** The process id of the last pid record after [p]. *)
Fixpoint pid_of (p : Z) (recs : list status_record) : Z :=
  match recs with
  | [] => p
  | RecPid n :: rest => pid_of n rest
  | _ :: rest => pid_of p rest
  end.

(** A line that reports a failure of the wait. *)
Definition is_err_line (sline : string) : bool := HasPrefix sline "err".

(** A process that is stopped and continued, then stopped and killed, in
    two opens. *)
Definition stop_cont_kill : list open_result :=
  [Open_ok [complete "stop 19"; complete "cont 18"];
   Open_ok [complete "pid 4321"; complete "stop 19"; complete "kill 9"]].

(** An exit record followed by an error record in the same open. *)
Definition exit_then_err : list open_result :=
  [Open_ok [complete "exit 0"; complete "err"]].

(** A line of the status pipe that does not report a failed wait: a record,
    or a text with none of the six prefixes. *)
Inductive status_line :=
  | Rec (rec : status_record)
  | Unknown (text : string).

Definition line_text (l : status_line) : string :=
  match l with
  | Rec rec => record_line rec
  | Unknown text => text
  end.

(** The integer of a record fits a 64-bit [int]; an unknown text starts
    with none of [kill ], [exit ], [pid ], [err], [stop ] and [cont ]. *)
Definition well_formed (l : status_line) : Prop :=
  match l with
  | Rec rec => in_range rec
  | Unknown text => is_terminal_line text = false /\ is_signal_line text = false
  end.

(** The records among the lines, in their order. *)
Definition records_of (ls : list status_line) : list status_record :=
  flat_map (fun l => match l with Rec rec => [rec] | Unknown _ => [] end) ls.

(** An open that delivers a stop record and a further exit record after a
    first exit record. *)
Definition exit_stop_exit : list open_result :=
  [Open_ok [complete "exit 0"; complete "stop 5"; complete "exit 9"]].

(** The same open cut after its first terminal record. *)
Definition exit_alone : list open_result :=
  [Open_ok [complete "exit 0"]].

(** Three opens: a stop record and an unknown line; an exit record followed
    by a cont record; a kill record. *)
Definition three_opens : list open_result :=
  [Open_ok [complete "stop 19"; complete "hello"];
   Open_ok [complete "exit 7"; complete "cont 18"];
   Open_ok [complete "kill 9"]].

End StatusRecords.

(** ** util.go and commands.go: the pipe helpers *)

Module Pipes.

Import Util Client.

(** [FIFOCommand.Exists] and [FIFOCommand.FileExists]. *)
Definition Exists (this : FIFOCommand) (fs : gmap string file_kind) : bool :=
  Util.FileExists fs (Filename this) && IsFIFO fs (Filename this).

Definition FileExists (this : FIFOCommand) (fs : gmap string file_kind) : bool :=
  Util.FileExists fs (Filename this).

(** What [file.Read] returns: a number of bytes, the end of file or another
    error. *)
Inductive read_result :=
  | ReadBytes (n : nat)
  | ReadEOF
  | ReadFailed.

Inductive io_error := IoOpen | IoEOF | IoRead.

(** The error of a read, nil when it delivered bytes. *)
Definition read_error (r : read_result) : option io_error :=
  match r with
  | ReadBytes _ => None
  | ReadEOF => Some IoEOF
  | ReadFailed => Some IoRead
  end.

(** What [FlushFIFO] sees of the outside world: whether the open succeeds
    and what the successive reads of the pipe would return. *)
Record flush_env := {
  flush_open_ok : bool;
  flush_reads : list read_result
}.

(** The loop [for file_err != nil { _, file_err = file.Read(buffer) }]:
    the last value of [file_err] and the number of reads made; [None] when
    the reads of the environment are used up. *)
Fixpoint flush_loop (file_err : option io_error) (reads : list read_result)
    (count : nat) : option (option io_error * nat) :=
  match file_err with
  | None => Some (file_err, count)
  | Some _ =>
      match reads with
      | [] => None
      | r :: rest => flush_loop (read_error r) rest (S count)
      end
  end.

(** [FlushFIFO]: the returned error and the number of reads made. *)
Definition FlushFIFO (env : flush_env) : option (option io_error * nat) :=
  if negb (flush_open_ok env) then Some (Some IoOpen, 0%nat)
  else
    match flush_loop None (flush_reads env) 0 with
    | None => None
    | Some (file_err, count) =>
        match file_err with
        | Some IoEOF => Some (None, count)
        | _ => Some (file_err, count)
        end
    end.

(** [IsEmptyFile]: the open fails, or the first read fails or returns no
    byte. *)
Definition IsEmptyFile (open_ok : bool) (first_read : read_result) : bool :=
  if negb open_ok then true
  else match first_read with
       | ReadBytes n => Nat.eqb n 0
       | ReadEOF | ReadFailed => true
       end.

End Pipes.

(** ** cgroups.go: the default configuration *)

Module DefaultConfig.

Import Cgroups.

(** The keys and values of the default configuration file, line by line. *)
Definition default_entries (container_name rootfs fstab : string) : list (string * string) :=
  [ ("lxc.utsname", container_name); ("lxc.tty", "4"); ("lxc.pts", "1024");
    ("lxc.rootfs", rootfs); ("lxc.mount", fstab); ("lxc.arch", "amd64");
    ("lxc.cap.drop", "sys_module"); ("lxc.network.type", "veth");
    ("lxc.network.flags", "up"); ("lxc.network.name", "eth0");
    ("lxc.network.link", "br0"); ("lxc.network.ipv4", "0.0.0.0");
    ("lxc.cgroup.devices.deny", "a");
    ("lxc.cgroup.devices.allow", "c *:* m"); ("lxc.cgroup.devices.allow", "b *:* m");
    ("lxc.cgroup.devices.allow", "c 1:3 rwm"); ("lxc.cgroup.devices.allow", "c 1:5 rwm");
    ("lxc.cgroup.devices.allow", "c 5:1 rwm"); ("lxc.cgroup.devices.allow", "c 5:0 rwm");
    ("lxc.cgroup.devices.allow", "c 4:0 rwm"); ("lxc.cgroup.devices.allow", "c 4:1 rwm");
    ("lxc.cgroup.devices.allow", "c 1:9 rwm"); ("lxc.cgroup.devices.allow", "c 1:8 rwm");
    ("lxc.cgroup.devices.allow", "c 136:* rwm"); ("lxc.cgroup.devices.allow", "c 5:2 rwm");
    ("lxc.cgroup.devices.allow", "c 254:0 rwm");
    ("lxc.cgroup.devices.allow", "c 10:229 rwm");
    ("lxc.cgroup.devices.allow", "c 10:200 rwm") ].

(** The keys of the default configuration, in the order of the literal. *)
Definition default_keys : list string :=
  [ "lxc.utsname"; "lxc.tty"; "lxc.pts"; "lxc.rootfs"; "lxc.mount"; "lxc.arch";
    "lxc.cap.drop"; "lxc.network.type"; "lxc.network.flags"; "lxc.network.name";
    "lxc.network.link"; "lxc.network.ipv4"; "lxc.cgroup.devices.deny";
    "lxc.cgroup.devices.allow" ].

End DefaultConfig.

(** ** aufs.go and container.go: mounting *)

Module Mounting.

Import Util Containers.

(** image_set.go: the two default paths. *)
Definition DEFAULT_LXC_CACHE_PATH : string := "/var/cache/lxc/oneiric/rootfs-amd64".
Definition DEFAULT_LXC_VAR_PATH : string := "/usr/local/var/lib/lxc".

(** [GetAufsCowMountOptionString]. *)
Definition GetAufsCowMountOptionString (read_only_dir copy_on_write_dir mount_point : string)
  : string :=
  "br=" +:+ copy_on_write_dir +:+ "=rw:" +:+ read_only_dir +:+ "=ro".

(** The flags of [mount(2)] and [umount2(2)] the package uses. *)
Definition MS_MGC_VAL : Z := 3236757504.
Definition MS_REMOUNT : Z := 32.
Definition MNT_DETACH : Z := 2.

(** The arguments of [syscall.Mount]. *)
Record mount_call := {
  source : string;
  target : string;
  fstype : string;
  flags : Z;
  data : string
}.

(** [MountAufsCoW]; [sys_Mount] is the system call, its result the errno,
    nil on success. *)
Definition MountAufsCoW (sys_Mount : mount_call -> option Z)
    (read_only_dir copy_on_write_dir mount_point : string) : option Z :=
  let mount_option_string :=
    GetAufsCowMountOptionString read_only_dir copy_on_write_dir mount_point in
  sys_Mount {| source := "aufs"; target := mount_point; fstype := "aufs";
               flags := MS_MGC_VAL; data := mount_option_string |}.

(** [RemountAufsCoWReadWrite]. *)
Definition RemountAufsCoWReadWrite (sys_Mount : mount_call -> option Z)
    (read_only_dir copy_on_write_dir mount_point : string) : option Z :=
  let mount_option_string :=
    GetAufsCowMountOptionString read_only_dir copy_on_write_dir mount_point in
  sys_Mount {| source := "aufs"; target := mount_point; fstype := "aufs";
               flags := Z.lor MS_MGC_VAL MS_REMOUNT; data := mount_option_string |}.

Inductive mount_error :=
  | AlreadyMounted   (* "cannot mount container ...: directory ... is already mounted." *)
  | Errno (e : Z)    (* the errno of the system call *)
  | LxcStopFailed.   (* cmd.Run() of lxc-stop failed *)

Inductive mount_outcome :=
  | MountReturned (err : option mount_error)
  | MountPanicked.

Definition of_errno (r : option Z) : option mount_error :=
  match r with Some e => Some (Errno e) | None => None end.

(** [Container.Mount]. *)
Definition Mount (this : Container) (fs : gmap string file_kind)
    (sys_Mount : mount_call -> option Z) : option mount_error :=
  if IsMounted this fs then Some AlreadyMounted
  else
    match image_set this with
    | None =>
        of_errno (MountAufsCoW sys_Mount DEFAULT_LXC_CACHE_PATH (private_dir this)
                    (rootfs this))
    | Some image_set =>
        of_errno (MountAufsCoW sys_Mount (is_rootfs image_set) (private_dir this)
                    (rootfs this))
    end.

(** [Container.Remount]: on a mounted container the image set is
    dereferenced, nil or not. *)
Definition Remount (this : Container) (fs : gmap string file_kind)
    (sys_Mount : mount_call -> option Z) : mount_outcome :=
  if IsMounted this fs then
    match image_set this with
    | None => MountPanicked
    | Some image_set =>
        MountReturned (of_errno (RemountAufsCoWReadWrite sys_Mount (is_rootfs image_set)
                                   (private_dir this) (rootfs this)))
    end
  else MountReturned (Mount this fs sys_Mount).

(** [Container.Unmount]. *)
Definition Unmount (this : Container) (sys_Unmount : string -> Z -> option Z)
  : option mount_error :=
  of_errno (sys_Unmount (rootfs this) MNT_DETACH).

(** [Container.Stop]: [lxc_stop_ok] tells whether [lxc-stop -n name] ran
    without error, [fs] is the file system after it. The result of the
    remount is dropped. *)
Definition Stop (this : Container) (lxc_stop_ok : bool) (fs : gmap string file_kind)
    (sys_Mount : mount_call -> option Z) : mount_outcome :=
  if negb lxc_stop_ok then MountReturned (Some LxcStopFailed)
  else
    match Remount this fs sys_Mount with
    | MountPanicked => MountPanicked
    | MountReturned _ => MountReturned None
    end.

(** A system call that always fails with [EPERM]. *)
Definition mount_denied (call : mount_call) : option Z := Some 1.

(** The container [c1] of the image set [oneiric] under [/isx]. *)
Definition container_of_oneiric : Container :=
  NewContainerFromImageSet "c1" "/web"
    (Some {| is_name := "oneiric"; idir := "/isx/oneiric";
             is_rootfs := "/isx/oneiric/rootfs";
             rootfs_archive_path := "/isx/oneiric/rootfs.tar.gz" |}).

End Mounting.

(** ** image_set.go and container.go: the persisted image set *)

Module Meta.

Import Util Containers.

(** The directory part of [path.Split]: the path up to and including its
    last slash, empty when it has none. *)
Fixpoint dir_part (p : string) : string :=
  match p with
  | EmptyString => EmptyString
  | String c r =>
      if negb (string_forall (fun x => negb (Ascii.eqb x "/"%char)) r)
      then String c (dir_part r)
      else if Ascii.eqb c "/"%char then String c EmptyString
      else EmptyString
  end.

(** [path.Dir(p)]. *)
Definition Dir (p : string) : string := Clean (dir_part p).

(** [NewImageSet]. *)
Definition NewImageSet (image_set_name image_sets_path : string) : ImageSet :=
  let image_set_dir := Join image_sets_path image_set_name in
  {| is_name := image_set_name;
     idir := image_set_dir;
     is_rootfs := Join image_set_dir "rootfs";
     rootfs_archive_path := Join image_set_dir "rootfs.tar.gz" |}.

(** [ImageSet.IsCreated]. *)
Definition ImageSet_IsCreated (this : ImageSet) (fs : gmap string file_kind) : bool :=
  DirExists fs (idir this).

Inductive meta_error :=
  | NoImageSetName   (* "could not ascertain image set for container" *)
  | NoImageSetDir    (* "could not ascertain image set directory for container" *)
  | MetaRead.        (* ioutil.ReadFile failed *)

(** [NewContainerFromImageSetMeta]; [read] is [ioutil.ReadFile], [None]
    when it fails. When the second read fails the function returns the
    error variable of the first one, which is nil. *)
Definition NewContainerFromImageSetMeta (container_name containers_path : string)
    (fs : gmap string file_kind) (read : string -> option string)
  : option Container * option meta_error :=
  let container_dir := Join containers_path container_name in
  let image_set_name_meta_filename := Join container_dir "/meta/image-set-name" in
  let image_set_dir_meta_filename := Join container_dir "/meta/image-set-dir" in
  if negb (FileExists fs image_set_name_meta_filename) then (None, Some NoImageSetName)
  else
    match read image_set_name_meta_filename with
    | None => (None, Some MetaRead)
    | Some image_set_name =>
        if negb (FileExists fs image_set_dir_meta_filename) then (None, Some NoImageSetDir)
        else
          match read image_set_dir_meta_filename with
          | None => (None, None)
          | Some image_set_dir =>
              let image_set := NewImageSet image_set_name (Dir image_set_dir) in
              let rootfs := Join container_dir "rootfs" in
              let fstab := Join container_dir "fstab" in
              (Some {| name := container_name;
                       cdir := container_dir;
                       meta_dir := Join container_dir "meta";
                       rootfs := rootfs;
                       private_dir := Join container_dir "private-data";
                       config_pathname := Join container_dir "config";
                       fstab_pathname := fstab;
                       image_set := Some image_set;
                       Cgroup_info :=
                         Cgroups.GetDefaultCgroupInfo container_name rootfs fstab;
                       Soft_limits := None;
                       Hard_limits := None |}, None)
          end
    end.

(** The two meta files [Create] writes for a container with an image set:
    the name of the image set at [<meta_dir>/image-set-name] and its
    directory at [<meta_dir>/image-set-dir]. *)
Definition written_meta (this : Container) (image_set : ImageSet) (p : string)
  : option string :=
  if String.eqb p (Join (meta_dir this) "/image-set-name") then Some (is_name image_set)
  else if String.eqb p (Join (meta_dir this) "/image-set-dir") then Some (idir image_set)
  else None.

(** A name that is one path element: no slash, not empty, not [.] or [..]. *)
Definition simple_name (n : string) : Prop :=
  string_forall (fun x => negb (Ascii.eqb x "/"%char)) n = true /\
  n <> EmptyString /\ n <> "." /\ n <> "..".

(** No slash in the string. *)
Definition no_slash (s : string) : bool :=
  string_forall (fun x => negb (Ascii.eqb x "/"%char)) s.

(** The absolute path with the given elements. *)
Definition abs_path (elems : list string) : string := "/" +:+ join_slash elems.

(** An element as [path.Clean] meets it between two slashes: a simple name
    or nothing. *)
Definition plain_elem (e : string) : Prop := e = EmptyString \/ simple_name e.

(** A file system in which the two meta files of the container exist. *)
Definition with_meta (this : Container) : gmap string file_kind :=
  {[ Join (meta_dir this) "/image-set-name" := KRegular;
     Join (meta_dir this) "/image-set-dir" := KRegular ]}.

End Meta.

(** ** qb.go: the command line *)

Module CLI.

Import Util Status Client.

(** [required_cmd_nargs]: the number of arguments of each command, a
    negative number for "at least". *)
Definition required_table : list (string * Z) :=
  [ ("execute-bclient", -2); ("execute-client", -2); ("execute-tty", -2);
    ("execute-server", 1); ("execute", -3); ("bexecute", -3);
    ("start", 1); ("s", 1); ("stop", 1); ("st", 1); ("bstart", 1); ("bs", 1);
    ("create", 2); ("c", 2); ("mount", 1); ("m", 1); ("remount", 1);
    ("help", 0); ("--help", 0); ("-h", 0); ("include", 1);
    ("umount", 1); ("unmount", 1); ("u", 1);
    ("destroy", 1); ("delete", 1); ("d", 1);
    ("create-image-set", 1); ("copy-image-set", 2); ("delete-image-set", 1);
    ("trim-image-set", 1) ].

Definition required_cmd_nargs : gmap string Z := list_to_map required_table.

(** The function [ProcessInput] calls, with its arguments. *)
Inductive action :=
  | StartContainer (cname : string)
  | BlockedStartContainer (cname : string)
  | CreateContainer (cname iname : string)
  | StopContainer (cname : string)
  | DeleteContainer (cname : string)
  | ExecuteInContainer (cname user : string) (args : list string)
  | ExecuteInContainerBlocked (cname user : string) (args : list string)
  | ExecuteClient (args : list string)
  | ExecuteClientBlocked (args : list string)
  | ExecuteClientTTY (args : list string)
  | ExecuteServer (args : list string)
  | MountContainer (cname : string)
  | UnmountContainer (cname : string)
  | RemountContainer (cname : string)
  | IncludeFile (filename : string)
  | CreateImageSet (iname : string)
  | CopyImageSet (src_iname dest_iname : string)
  | TrimImageSet (iname : string)
  | DeleteImageSet (iname : string)
  | HelpAndExit.

Inductive input_error :=
  | AtLeast (atleast_nargs actual_nargs : Z)   (* "requires at least %d argument(s)" *)
  | Exactly (required_nargs actual_nargs : Z)  (* "requires %d argument(s)" *)
  | InvalidCommand.                            (* "invalid command" *)

Inductive input_outcome :=
  | InputError (e : input_error)
  | Calls (a : action)
  | NoCase        (* no case of the switch applies: nil is returned *)
  | InputPanics.  (* index out of range *)

(** [f(args[0])]. *)
Definition with_one (f : string -> action) (args : list string) : input_outcome :=
  match args with
  | a :: _ => Calls (f a)
  | [] => InputPanics
  end.

(** [f(args[0], args[1])]. *)
Definition with_two (f : string -> string -> action) (args : list string) : input_outcome :=
  match args with
  | a :: b :: _ => Calls (f a b)
  | _ => InputPanics
  end.

(** [f(args[0], args[1], args[2:])]. *)
Definition with_two_and_rest (f : string -> string -> list string -> action)
    (args : list string) : input_outcome :=
  match args with
  | a :: b :: rest => Calls (f a b rest)
  | _ => InputPanics
  end.

Definition one_of (command : string) (names : list string) : bool :=
  existsb (String.eqb command) names.

(** The switch over the command. *)
Definition dispatch (command : string) (args : list string) : input_outcome :=
  if one_of command ["start"; "s"] then with_one StartContainer args
  else if one_of command ["bstart"; "bs"] then with_one BlockedStartContainer args
  else if one_of command ["create"; "c"] then with_two CreateContainer args
  else if one_of command ["stop"; "st"] then with_one StopContainer args
  else if one_of command ["destroy"; "delete"; "d"] then with_one DeleteContainer args
  else if one_of command ["execute"] then with_two_and_rest ExecuteInContainer args
  else if one_of command ["bexecute"] then with_two_and_rest ExecuteInContainerBlocked args
  else if one_of command ["execute-client"] then Calls (ExecuteClient args)
  else if one_of command ["execute-bclient"] then Calls (ExecuteClientBlocked args)
  else if one_of command ["execute-tty"] then Calls (ExecuteClientTTY args)
  else if one_of command ["execute-server"] then Calls (ExecuteServer args)
  else if one_of command ["mount"; "m"] then with_one MountContainer args
  else if one_of command ["unmount"; "umount"; "u"] then with_one UnmountContainer args
  else if one_of command ["remount"] then with_one RemountContainer args
  else if one_of command ["include"] then with_one IncludeFile args
  else if one_of command ["create-image-set"] then with_one CreateImageSet args
  else if one_of command ["copy-image-set"] then with_two CopyImageSet args
  else if one_of command ["trim-image-set"] then with_one TrimImageSet args
  else if one_of command ["delete-image-set"] then with_one DeleteImageSet args
  else if one_of command ["help"; "--help"; "-h"] then Calls HelpAndExit
  else NoCase.

(** The test of the number of arguments; [int(math.Abs(float64(n)))] is
    the absolute value. *)
Definition check_nargs (required_nargs : Z) (args : list string) : option input_error :=
  let actual_nargs := Z.of_nat (length args) in
  if required_nargs <? 0 then
    let atleast_nargs := Z.abs required_nargs in
    if actual_nargs <? atleast_nargs then Some (AtLeast atleast_nargs actual_nargs)
    else None
  else if negb (actual_nargs =? required_nargs)
       then Some (Exactly required_nargs actual_nargs)
       else None.

(** [ProcessInput]. *)
Definition ProcessInput (command : string) (args : list string) : input_outcome :=
  match required_cmd_nargs !! command with
  | Some required_nargs =>
      match check_nargs required_nargs args with
      | Some e => InputError e
      | None => dispatch command args
      end
  | None => InputError InvalidCommand
  end.

(** [CommandExecuteClient], [CommandExecuteClientBlocked] and
    [CommandExecuteClientTTY]: the pipe is [args[0]], the command
    [args[1:]]. *)
Definition client_of (filename : string) (tty : bool) : FIFOCommand :=
  {| Filename := filename; Verbose := false; ServerNonBlocking := true;
     ClientNonBlocking := false; ClientTTYShare := tty; Uid := 0; Gid := 0;
     Rootfs := EmptyString |}.

Definition CommandExecuteClient (args : list string) (env : client_env) : outcome :=
  match args with
  | [] => Panicked
  | filename :: rest => ret (ExecuteDaemonOnServer (Some (client_of filename false)) env rest)
  end.

Definition CommandExecuteClientBlocked (args : list string) (env : client_env) : outcome :=
  match args with
  | [] => Panicked
  | filename :: rest =>
      ret (snd (ExecuteDaemonOnServerBlockOnClient (Some (client_of filename false)) env rest))
  end.

Definition CommandExecuteClientTTY (args : list string) (env : client_env) : outcome :=
  match args with
  | [] => Panicked
  | filename :: rest => ret (ExecuteDaemonOnServer (Some (client_of filename true)) env rest)
  end.

(** The number of arguments fits the entry of the table. *)
Definition nargs_ok (required_nargs : Z) (args : list string) : Prop :=
  if required_nargs <? 0 then - required_nargs <= Z.of_nat (length args)
  else Z.of_nat (length args) = required_nargs.

Definition is_call (o : input_outcome) : Prop :=
  match o with Calls _ => True | _ => False end.

End CLI.

(** ** image_set.go: copying an image set *)

Module ImageSets.

Import Util Containers Meta.

Inductive image_set_error :=
  | DestinationExists  (* "The destination image set ... already exists" *)
  | SourceMissing      (* "The source image set ... does not exist" *)
  | SameName           (* "... have the same name - copy cannot proceed." *)
  | SameDirectory      (* "... use the same directory - copy cannot proceed." *)
  | CommandFailed.     (* cp failed *)

(** [ImageSet.Copy]; [cp_ok] tells whether [cp -a src.idir this.idir] runs
    without error. *)
Definition Copy (this src : ImageSet) (fs : gmap string file_kind) (cp_ok : bool)
  : option image_set_error :=
  if ImageSet_IsCreated this fs then Some DestinationExists
  else if negb (ImageSet_IsCreated src fs) then Some SourceMissing
  else if String.eqb (is_name src) (is_name this) then Some SameName
  else if String.eqb (idir src) (idir this) then Some SameDirectory
  else if negb cp_ok then Some CommandFailed
  else None.

End ImageSets.

(** * Properties *)

(** ** Decimal numbers: printing and parsing *)

Section Decimal.

Example FormatInt_4321 : FormatInt 4321 = "4321". Proof. reflexivity. Qed.
Example FormatInt_neg : FormatInt (-2) = "-2". Proof. reflexivity. Qed.
Example FormatInt_0 : FormatInt 0 = "0". Proof. reflexivity. Qed.
Example ParseInt_19 : ParseInt "19" = (19, None). Proof. reflexivity. Qed.
Example ParseInt_neg : ParseInt "-1" = (-1, None). Proof. reflexivity. Qed.
Example ParseInt_bad : ParseInt "abc" = (0, Some ErrSyntax). Proof. reflexivity. Qed.
Example ParseInt_big : ParseInt "99999999999999999999" = (2 ^ 63 - 1, Some ErrRange).
Proof. vm_compute. reflexivity. Qed.
Example Split_ex : Split "stop 19 x" " "%char = ["stop"; "19"; "x"]. Proof. reflexivity. Qed.
Example Join_ex1 : Join "/web/c1/rootfs" "/etc" = "/web/c1/rootfs/etc". Proof. reflexivity. Qed.
Example Join_ex2 : Join EmptyString "/tmp" = "/tmp". Proof. reflexivity. Qed.
Example Join_ex3 : Join "/web/" "c1" = "/web/c1". Proof. reflexivity. Qed.
Example Join_ex4 : Join "a/../.." "b" = "../b". Proof. reflexivity. Qed.
Example Clean_ex : Clean "/.." = "/". Proof. reflexivity. Qed.
Example Clean_ex2 : Clean "a/.." = ".". Proof. reflexivity. Qed.
Example Base_ex : Base "/web/c1/rootfs/tmp/iexec123" = "iexec123". Proof. reflexivity. Qed.
Example Base_ex2 : Base "///" = "/". Proof. reflexivity. Qed.

Ltac digit_cases d :=
  let H := fresh in
  assert (H : d = 0 \/ d = 1 \/ d = 2 \/ d = 3 \/ d = 4 \/ d = 5 \/ d = 6 \/
              d = 7 \/ d = 8 \/ d = 9) by lia;
  repeat (destruct H as [-> | H]); try subst d.

Lemma digit_of_digit_char (d : Z) : 0 <= d < 10 -> digit_of (digit_char d) = Some d.
Proof. intros Hd. digit_cases d; reflexivity. Qed.

Lemma utoa_digits (fuel : nat) : forall n acc,
  0 <= n -> string_forall is_digit acc = true ->
  string_forall is_digit (utoa fuel n acc) = true.
Proof.
  induction fuel as [|f IH]; intros n acc Hn Hacc; simpl; [exact Hacc|].
  assert (Hd : 0 <= n mod 10 < 10) by (apply Z.mod_pos_bound; lia).
  assert (Hacc' : string_forall is_digit (String (digit_char (n mod 10)) acc) = true).
  { simpl. unfold is_digit at 1. rewrite (digit_of_digit_char _ Hd). exact Hacc. }
  destruct (n / 10 =? 0); [exact Hacc'|].
  apply IH; [apply Z.div_pos; lia | exact Hacc'].
Qed.

Lemma utoa_cons (fuel : nat) : forall n c r,
  utoa fuel n (String c r) <> EmptyString.
Proof.
  induction fuel as [|f IH]; intros n c r; simpl; [discriminate|].
  destruct (n / 10 =? 0); [discriminate | apply IH].
Qed.

Lemma ParseUint_loop_utoa (fuel : nat) : forall n acc,
  0 <= n < 2 ^ Z.of_nat fuel -> n <= maxUint64 ->
  ParseUint_loop 0 (utoa fuel n acc) = ParseUint_loop n acc.
Proof.
  unfold maxUint64. change (2 ^ 64 - 1) with 18446744073709551615.
  induction fuel as [|f IH]; intros n acc Hn Hmax.
  - simpl in *. replace n with 0 by lia. reflexivity.
  - assert (Hd : 0 <= n mod 10 < 10) by (apply Z.mod_pos_bound; lia).
    assert (Hq : 0 <= n / 10) by (apply Z.div_pos; lia).
    assert (Hdm : n = 10 * (n / 10) + n mod 10) by (apply Z.div_mod; lia).
    assert (Hstep : forall a, a = n / 10 ->
              ParseUint_loop a (String (digit_char (n mod 10)) acc)
              = ParseUint_loop n acc).
    { intros a ->. cbn [ParseUint_loop]. rewrite (digit_of_digit_char _ Hd).
      unfold maxUint64. change (2 ^ 64 - 1) with 18446744073709551615.
      change (18446744073709551615 / 10 + 1) with 1844674407370955162.
      change (2 ^ 64) with 18446744073709551616.
      destruct (Z.leb_spec 1844674407370955162 (n / 10)); [lia|].
      cbv zeta. replace (n / 10 * 10 + n mod 10) with n by lia.
      rewrite Z.mod_small by lia.
      destruct (Z.ltb_spec n (n / 10 * 10)); [lia|].
      destruct (Z.ltb_spec 18446744073709551615 n); [lia|].
      reflexivity. }
    cbn [utoa]. destruct (Z.eqb_spec (n / 10) 0) as [E|E].
    + apply Hstep. lia.
    + rewrite IH.
      * apply Hstep. reflexivity.
      * rewrite Nat2Z.inj_succ, Z.pow_succ_r in Hn by lia. lia.
      * lia.
Qed.

Lemma log2_fuel (n : Z) : 0 <= n -> n < 2 ^ Z.of_nat (S (Z.to_nat (Z.log2 n))).
Proof.
  intros Hn. rewrite Nat2Z.inj_succ, Z2Nat.id by apply Z.log2_nonneg.
  destruct (Z.eq_dec n 0) as [->|Hz]; [reflexivity|].
  apply Z.log2_spec. lia.
Qed.

Lemma not_sign_of_digit (c : ascii) :
  is_digit c = true -> Ascii.eqb c "+"%char = false /\ Ascii.eqb c "-"%char = false.
Proof.
  intros H. split.
  - destruct (Ascii.eqb_spec c "+"%char) as [->|]; [discriminate H | reflexivity].
  - destruct (Ascii.eqb_spec c "-"%char) as [->|]; [discriminate H | reflexivity].
Qed.

(** Parsing what [%d] printed gives the number back, over the whole range
    of a 64-bit [int]. *)
Lemma ParseInt_FormatInt (n : Z) :
  - 2 ^ 63 <= n < 2 ^ 63 -> ParseInt (FormatInt n) = (n, None).
Proof.
  change (2 ^ 63) with 9223372036854775808. intros Hn. unfold FormatInt.
  destruct (Z.ltb_spec n 0) as [Hneg|Hpos].
  - set (m := - n). assert (Hm : 0 <= m) by lia.
    unfold ParseInt. change (Ascii.eqb "-" "-") with true.
    change (Ascii.eqb "-" "+") with false. cbn [orb].
    remember (utoa (S (Z.to_nat (Z.log2 m))) m EmptyString) as s eqn:Hs.
    assert (Hne : s <> EmptyString).
    { subst s. cbn [utoa]. destruct (m / 10 =? 0); [discriminate|].
      apply utoa_cons. }
    assert (Hp : ParseUint s = (m, None)).
    { destruct s as [|c r]; [congruence|]. unfold ParseUint. rewrite Hs.
      rewrite ParseUint_loop_utoa; [reflexivity | split; [lia | apply log2_fuel; lia] |].
      unfold maxUint64. change (2 ^ 64 - 1) with 18446744073709551615. lia. }
    rewrite Hp. change (2 ^ 63) with 9223372036854775808. cbn [negb andb].
    destruct (Z.ltb_spec 9223372036854775808 m); [lia|].
    f_equal. lia.
  - remember (utoa (S (Z.to_nat (Z.log2 n))) n EmptyString) as s eqn:Hs.
    assert (Hdig : string_forall is_digit s = true)
      by (subst s; apply utoa_digits; [lia | reflexivity]).
    assert (Hne : s <> EmptyString).
    { subst s. cbn [utoa]. destruct (n / 10 =? 0); [discriminate|].
      apply utoa_cons. }
    destruct s as [|c r]; [congruence|].
    simpl in Hdig. apply andb_true_iff in Hdig as [Hc _].
    destruct (not_sign_of_digit c Hc) as [Hplus Hminus].
    unfold ParseInt. rewrite Hplus, Hminus. cbn [orb].
    unfold ParseUint. rewrite Hs.
    rewrite ParseUint_loop_utoa; [| split; [lia | apply log2_fuel; lia] |].
    + cbn [ParseUint_loop]. change (2 ^ 63) with 9223372036854775808. cbn [negb andb].
      destruct (Z.leb_spec 9223372036854775808 n); [lia | reflexivity].
    + unfold maxUint64. change (2 ^ 64 - 1) with 18446744073709551615. lia.
Qed.

Lemma Split_no_space (s : string) :
  string_forall not_space s = true -> Split s " "%char = [s].
Proof.
  induction s as [|c r IH]; intros H; simpl in *; [reflexivity|].
  apply andb_true_iff in H as [Hc Hr]. unfold not_space in Hc.
  destruct (Ascii.eqb c " "); [discriminate|]. rewrite (IH Hr). reflexivity.
Qed.

Lemma string_forall_impl (P Q : ascii -> bool) (s : string) :
  (forall c, P c = true -> Q c = true) ->
  string_forall P s = true -> string_forall Q s = true.
Proof.
  intros HPQ. induction s as [|c r IH]; simpl; [reflexivity|].
  intros H. apply andb_true_iff in H as [Hc Hr].
  rewrite (HPQ c Hc), (IH Hr). reflexivity.
Qed.

Lemma FormatInt_no_space (n : Z) : string_forall not_space (FormatInt n) = true.
Proof.
  assert (Hd : forall c, is_digit c = true -> not_space c = true).
  { intros c Hc. unfold not_space.
    destruct (Ascii.eqb_spec c " "%char) as [->|]; [discriminate Hc | reflexivity]. }
  unfold FormatInt. destruct (Z.ltb_spec n 0).
  - cbn [string_forall]. change (not_space "-") with true. cbn [andb].
    apply (string_forall_impl is_digit); [exact Hd|].
    apply utoa_digits; [lia | reflexivity].
  - apply (string_forall_impl is_digit); [exact Hd|].
    apply utoa_digits; [lia | reflexivity].
Qed.

End Decimal.

(** ** The status reader *)

Section StatusReader.

Import Status.

Lemma HasPrefix_cons (a : ascii) (p l : string) :
  HasPrefix l (String a p) = true -> exists r, l = String a r /\ HasPrefix r p = true.
Proof.
  unfold HasPrefix. destruct l as [|b r]; simpl; [discriminate|].
  destruct (ascii_dec a b) as [->|]; [|discriminate]. intros H. exists r. auto.
Qed.

(** Two prefixes that differ in their first byte exclude each other. *)
Lemma HasPrefix_disjoint (a b : ascii) (p q l : string) :
  HasPrefix l (String a p) = true -> a <> b -> HasPrefix l (String b q) = false.
Proof.
  intros H Hab. apply HasPrefix_cons in H as (r & -> & _).
  unfold HasPrefix. simpl. destruct (ascii_dec b a); [congruence | reflexivity].
Qed.

Lemma signal_not_terminal (l : string) :
  is_signal_line l = true -> is_terminal_line l = false.
Proof.
  unfold is_signal_line, is_terminal_line. intros H.
  apply orb_true_iff in H as [H|H];
    rewrite (HasPrefix_disjoint _ "k" _ "ill " _ H) by discriminate;
    rewrite (HasPrefix_disjoint _ "e" _ "xit " _ H) by discriminate;
    rewrite (HasPrefix_disjoint _ "p" _ "id " _ H) by discriminate;
    rewrite (HasPrefix_disjoint _ "e" _ "rr" _ H) by discriminate; reflexivity.
Qed.

Lemma terminated_set_terminated st : terminated (set_terminated st) = true.
Proof. reflexivity. Qed.

(** A line sets [terminated] exactly when it is in the terminal set. *)
Lemma handle_line_terminated (st : reader_state) (l : string) :
  terminated (handle_line st l) = terminated st || is_terminal_line l.
Proof.
  destruct (is_signal_line l) eqn:Hsig.
  - rewrite (signal_not_terminal l Hsig), orb_false_r.
    pose proof (signal_not_terminal l Hsig) as Ht.
    unfold is_terminal_line in Ht. unfold is_signal_line in Hsig.
    apply orb_false_iff in Ht as [Ht He]. apply orb_false_iff in Ht as [Ht Hp].
    apply orb_false_iff in Ht as [Hk Hx].
    unfold handle_line. rewrite Hk, Hx, Hp, Hsig.
    destruct (code_of l); reflexivity.
  - unfold is_terminal_line, handle_line. unfold is_signal_line in Hsig. rewrite Hsig.
    destruct (HasPrefix l "kill "); [destruct (code_of l); simpl; apply eq_sym, orb_true_r|].
    destruct (HasPrefix l "exit "); [destruct (code_of l); simpl; apply eq_sym, orb_true_r|].
    destruct (HasPrefix l "pid "); [destruct (code_of l); simpl; apply eq_sym, orb_true_r|].
    destruct (HasPrefix l "err"); simpl; [apply eq_sym, orb_true_r | apply eq_sym, orb_false_r].
Qed.

(** A line outside the terminal set and without signal leaves every
    variable as it was. *)
Lemma handle_line_ignored (st : reader_state) (l : string) :
  is_terminal_line l = false -> is_signal_line l = false -> handle_line st l = st.
Proof.
  unfold is_terminal_line, is_signal_line, handle_line. intros Ht Hs.
  apply orb_false_iff in Ht as [Ht He]. apply orb_false_iff in Ht as [Ht Hp].
  apply orb_false_iff in Ht as [Hk Hx]. rewrite Hk, Hx, Hp, Hs, He. reflexivity.
Qed.

Lemma Split_nonempty (s : string) (sep : ascii) : exists h t, Split s sep = h :: t.
Proof.
  induction s as [|c r (h & t & IH)]; simpl; [eauto|].
  destruct (Ascii.eqb c sep); [eauto|]. rewrite IH. eauto.
Qed.

Lemma Split_app_space (verb s : string) :
  string_forall not_space verb = true ->
  Split (verb +:+ String " " s) " " = verb :: Split s " ".
Proof.
  induction verb as [|c r IH]; simpl; intros H; [reflexivity|].
  apply andb_true_iff in H as [Hc Hr]. unfold not_space in Hc.
  destruct (Ascii.eqb c " "); [discriminate|]. rewrite (IH Hr). reflexivity.
Qed.

(** The code of a record [verb N] is [N]. *)
Lemma code_of_formatted (verb : string) (n : Z) :
  string_forall not_space verb = true -> - 2 ^ 63 <= n < 2 ^ 63 ->
  code_of (verb +:+ String " " (FormatInt n)) = Some n.
Proof.
  intros Hv Hn. unfold code_of.
  rewrite (Split_app_space _ _ Hv), (Split_no_space _ (FormatInt_no_space n)).
  rewrite (ParseInt_FormatInt n Hn). reflexivity.
Qed.

(** A record with a space has a second field. *)
Lemma code_of_prefix (l r : string) (verb : string) :
  string_forall not_space verb = true -> l = verb +:+ String " " r ->
  exists code, code_of l = Some code.
Proof.
  intros Hv ->. unfold code_of. rewrite (Split_app_space _ _ Hv).
  destruct (Split_nonempty r " ") as (h & t & ->). eauto.
Qed.

Lemma HasPrefix_app (p l : string) :
  HasPrefix l p = true -> exists r, l = p +:+ r.
Proof.
  revert l. induction p as [|a p IH]; intros l H; [exists l; reflexivity|].
  apply HasPrefix_cons in H as (r & -> & Hr). destruct (IH r Hr) as (r' & ->).
  exists r'. reflexivity.
Qed.

Lemma signal_line_code (l : string) :
  is_signal_line l = true -> exists code, code_of l = Some code.
Proof.
  unfold is_signal_line. intros H. apply orb_true_iff in H as [H|H];
    apply HasPrefix_app in H as (r & ->).
  - apply (code_of_prefix _ r "stop"); reflexivity.
  - apply (code_of_prefix _ r "cont"); reflexivity.
Qed.

(** A [stop ] or [cont ] line appends its code and does nothing else. *)
Lemma handle_line_signal (st : reader_state) (l : string) :
  is_signal_line l = true ->
  exists code, code_of l = Some code /\ handle_line st l = append_signal st code.
Proof.
  intros Hsig. destruct (signal_line_code l Hsig) as (code & Hc). exists code.
  split; [exact Hc|].
  pose proof (signal_not_terminal l Hsig) as Ht. unfold is_terminal_line in Ht.
  apply orb_false_iff in Ht as [Ht He]. apply orb_false_iff in Ht as [Ht Hp].
  apply orb_false_iff in Ht as [Hk Hx]. unfold is_signal_line in Hsig.
  unfold handle_line. rewrite Hk, Hx, Hp, Hsig, Hc. reflexivity.
Qed.

Lemma HasPrefix_self (p r : string) : HasPrefix (p +:+ r) p = true.
Proof.
  unfold HasPrefix. induction p as [|a p IH]; simpl; [destruct r; reflexivity|].
  destruct (ascii_dec a a); [exact IH | congruence].
Qed.

Lemma handle_line_exit (st : reader_state) (n : Z) :
  - 2 ^ 63 <= n < 2 ^ 63 ->
  handle_line st ("exit " +:+ FormatInt n) = set_exit_code (set_terminated st) n.
Proof.
  intros Hn. unfold handle_line.
  pose proof (HasPrefix_self "exit " (FormatInt n)) as Hx.
  rewrite (HasPrefix_disjoint _ "k" _ "ill " _ Hx) by discriminate. rewrite Hx.
  change ("exit " +:+ FormatInt n) with ("exit" +:+ String " " (FormatInt n)).
  rewrite (code_of_formatted "exit" n eq_refl Hn). reflexivity.
Qed.

(** A record [stop N] or [cont N] appends [N]. *)
Lemma handle_line_signal_formatted (st : reader_state) (verb : string) (n : Z) :
  verb = "stop" \/ verb = "cont" -> - 2 ^ 63 <= n < 2 ^ 63 ->
  handle_line st (verb +:+ String " " (FormatInt n)) = append_signal st n.
Proof.
  intros Hv Hn.
  assert (Hsig : is_signal_line (verb +:+ String " " (FormatInt n)) = true).
  { unfold is_signal_line. destruct Hv as [->| ->].
    - change ("stop" +:+ String " " (FormatInt n)) with ("stop " +:+ FormatInt n).
      rewrite HasPrefix_self. reflexivity.
    - change ("cont" +:+ String " " (FormatInt n)) with ("cont " +:+ FormatInt n).
      rewrite HasPrefix_self. apply orb_true_r. }
  destruct (handle_line_signal st _ Hsig) as (code & Hc & ->).
  rewrite code_of_formatted in Hc; [congruence | | exact Hn].
  destruct Hv as [->| ->]; reflexivity.
Qed.

(** *** The loops *)

Lemma read_lines_clean (evs : list read_event) : forall st,
  clean_open (Open_ok evs) = true ->
  read_lines st evs = Some (fold_left handle_line (complete_lines evs) st).
Proof.
  induction evs as [|ev r IH]; intros st H; simpl in *; [reflexivity|].
  destruct ev as [line [|]|]; simpl in *; try discriminate; apply IH; exact H.
Qed.

Lemma terminated_fold (ls : list string) : forall st,
  terminated (fold_left handle_line ls st)
  = terminated st || existsb is_terminal_line ls.
Proof.
  induction ls as [|l r IH]; intros st; simpl; [rewrite orb_false_r; reflexivity|].
  rewrite IH, handle_line_terminated, orb_assoc. reflexivity.
Qed.

Lemma status_loop_terminated (st : reader_state) (opens : list open_result) :
  terminated st = true -> status_loop st opens = LoopDone st.
Proof. intros H. destruct opens; simpl; rewrite H; reflexivity. Qed.

(** On a stream without failure the reader processes exactly the lines of
    [consumed], and finishes when one of them is terminal. *)
Lemma status_loop_clean (opens : list open_result) : forall st,
  forallb clean_open opens = true -> terminated st = false ->
  status_loop st opens
  = (if existsb is_terminal_line (consumed opens) then LoopDone else LoopBlocked)
      (fold_left handle_line (consumed opens) st).
Proof.
  induction opens as [|o rest IH]; intros st Hc Ht; simpl.
  - rewrite Ht. reflexivity.
  - rewrite Ht. simpl in Hc. apply andb_true_iff in Hc as [Ho Hrest].
    destruct o as [|evs]; [discriminate|]. rewrite (read_lines_clean evs st Ho).
    change (lines_of (Open_ok evs)) with (complete_lines evs).
    destruct (existsb is_terminal_line (complete_lines evs)) eqn:E.
    + rewrite E. apply status_loop_terminated. rewrite terminated_fold, E.
      apply orb_true_r.
    + rewrite IH; [| exact Hrest | rewrite terminated_fold, E, Ht; reflexivity].
      rewrite fold_left_app, existsb_app, E. reflexivity.
Qed.

Lemma consumed_terminal (opens : list open_result) :
  existsb is_terminal_line (consumed opens) = true <->
  exists evs l, In (Open_ok evs) opens /\ In (complete l) evs /\ is_terminal_line l = true.
Proof.
  assert (Hin : forall evs l, In l (complete_lines evs) <-> In (complete l) evs).
  { intros evs l. unfold complete_lines. rewrite in_flat_map. split.
    - intros (ev & Hev & Hl). destruct ev as [line [|]|]; simpl in Hl; try tauto.
      destruct Hl as [->|[]]. exact Hev.
    - intros H. exists (complete l). split; [exact H | left; reflexivity]. }
  induction opens as [|o rest IH]; simpl.
  - split; [discriminate | intros (? & ? & [] & _)].
  - destruct (existsb is_terminal_line (lines_of o)) eqn:E.
    + rewrite E. split; [intros _ | reflexivity].
      apply existsb_exists in E as (l & Hl & Ht). destruct o as [|evs]; [destruct Hl|].
      exists evs, l. rewrite <- Hin. auto.
    + rewrite existsb_app, E. simpl. rewrite IH. split.
      * intros (evs & l & H1 & H2 & H3). exists evs, l. auto.
      * intros (evs & l & [->|H1] & H2 & H3); [|exists evs, l; auto].
        exfalso. simpl in E. apply Hin in H2.
        assert (existsb is_terminal_line (complete_lines evs) = true)
          by (apply existsb_exists; eauto).
        congruence.
Qed.

Lemma read_lines_terminal (evs : list read_event) : forall st st',
  read_lines st evs = Some st' -> terminated st = false -> terminated st' = true ->
  exists l, In (complete l) evs /\ is_terminal_line l = true.
Proof.
  induction evs as [|ev r IH]; intros st st' H Ht Ht'; simpl in H.
  - congruence.
  - destruct ev as [line [|]|]; [| |discriminate].
    + destruct (IH _ _ H Ht Ht') as (l & Hl & Hterm). exists l. split; [right|]; auto.
    + destruct (is_terminal_line line) eqn:E.
      * exists line. split; [left; reflexivity | exact E].
      * assert (Hh : terminated (handle_line st line) = false)
          by (rewrite handle_line_terminated, Ht, E; reflexivity).
        destruct (IH _ _ H Hh Ht') as (l & Hl & Hterm). exists l. split; [right|]; auto.
Qed.

(** Whatever the stream, failures included, the loop is left through its
    condition only after a terminal line was read. *)
Lemma status_loop_done_terminal (opens : list open_result) : forall st st',
  terminated st = false -> status_loop st opens = LoopDone st' ->
  exists evs l, In (Open_ok evs) opens /\ In (complete l) evs /\ is_terminal_line l = true.
Proof.
  induction opens as [|o rest IH]; intros st st' Ht H; simpl in H; rewrite Ht in H.
  - discriminate.
  - destruct o as [|evs]; [discriminate|].
    destruct (read_lines st evs) as [st1|] eqn:E; [|discriminate].
    destruct (terminated st1) eqn:Ht1.
    + destruct (read_lines_terminal _ _ _ E Ht Ht1) as (l & Hl & Hterm).
      exists evs, l. split; [left; reflexivity | auto].
    + destruct (IH _ _ Ht1 H) as (evs' & l & H1 & H2 & H3).
      exists evs', l. split; [right|]; auto.
Qed.

(** *** The exit code *)

Lemma handle_line_not_exit (st : reader_state) (l : string) :
  HasPrefix l "exit " = false -> exit_code (handle_line st l) = exit_code st.
Proof.
  intros Hx. unfold handle_line. rewrite Hx.
  destruct (HasPrefix l "kill "); [destruct (code_of l); reflexivity|].
  destruct (HasPrefix l "pid "); [destruct (code_of l); reflexivity|].
  destruct (HasPrefix l "stop " || HasPrefix l "cont "); [destruct (code_of l); reflexivity|].
  destruct (HasPrefix l "err"); reflexivity.
Qed.

Lemma exit_code_fold_not_exit (ls : list string) : forall st,
  Forall (fun l => HasPrefix l "exit " = false) ls ->
  exit_code (fold_left handle_line ls st) = exit_code st.
Proof.
  induction ls as [|l r IH]; intros st H; simpl; [reflexivity|].
  inversion H; subst. rewrite IH by assumption. apply handle_line_not_exit. assumption.
Qed.

Lemma exit_code_fold_last_exit (before after : list string) (n : Z) (st : reader_state) :
  Forall (fun l => HasPrefix l "exit " = false) after -> - 2 ^ 63 <= n < 2 ^ 63 ->
  exit_code (fold_left handle_line (before ++ ("exit " +:+ FormatInt n) :: after) st) = n.
Proof.
  intros Ha Hn. rewrite fold_left_app. simpl.
  rewrite (exit_code_fold_not_exit after _ Ha), (handle_line_exit _ n Hn). reflexivity.
Qed.

Lemma filter_singleton_split {A : Type} (f : A -> bool) (ls : list A) (x : A) :
  List.filter f ls = [x] ->
  exists b a, ls = (b ++ x :: a)%list /\ List.filter f b = [] /\ List.filter f a = [].
Proof.
  induction ls as [|h t IH]; simpl; [discriminate|].
  destruct (f h) eqn:E.
  - intros H. injection H as -> Ht. exists [], t. auto.
  - intros H. destruct (IH H) as (b & a & -> & Hb & Ha).
    exists (h :: b), a. simpl. rewrite E. auto.
Qed.

Lemma filter_nil_Forall {A : Type} (f : A -> bool) (ls : list A) :
  List.filter f ls = [] -> Forall (fun x => f x = false) ls.
Proof.
  induction ls as [|h t IH]; simpl; [constructor|].
  destruct (f h) eqn:E; [discriminate|]. intros H. constructor; auto.
Qed.

Lemma not_terminal_not_exit (l : string) :
  is_terminal_line l = false -> HasPrefix l "exit " = false.
Proof.
  unfold is_terminal_line. intros H.
  apply orb_false_iff in H as [H _]. apply orb_false_iff in H as [H _].
  apply orb_false_iff in H as [_ H]. exact H.
Qed.

Lemma WaitUntilDone_result (env : status_env) (so se : string)
    (e : option error) (result : FIFOCommandResult) :
  WaitUntilDone env so se = WaitReturned e (Some result) ->
  exists st, status_loop initial_state (status_opens env) = LoopDone st /\
             err_occurred st = false /\
             SignalCodes result = signal_codes st /\
             ExitCode result = exit_code st /\ Pid result = pid st.
Proof.
  unfold WaitUntilDone. destruct (status_exists env); [|discriminate].
  destruct (status_is_fifo env); [|discriminate]. simpl.
  destruct (status_loop initial_state (status_opens env)) as [st| |]; try discriminate.
  destruct (err_occurred st) eqn:E; [discriminate|].
  intros H. injection H as _ <-. exists st. auto.
Qed.

(** C2, as stated, fails. An open that delivers [kill 9], [exit 3], [kill 9]
    is read to its end of file: the first and the last terminal record are
    both [kill 9], and the result handed to the callback has exit code 3,
    not -1. In the same way [pid 4321] followed by [exit 0] in one open ends
    the reader with the terminal record [pid 4321] and exit code 0. *)
Lemma exit_code_after_kill_record :
  WaitUntilDone (env_of kill_exit_kill) EmptyString EmptyString
  = WaitReturned None
      (Some {| Out := EmptyString; Err := EmptyString; SignalCodes := [9; 9]; ExitCode := 3; Pid := 0 |}) /\
  List.find is_terminal_line (consumed kill_exit_kill) = Some "kill 9" /\
  last (List.filter is_terminal_line (consumed kill_exit_kill)) = Some "kill 9" /\
  WaitUntilDone (env_of pid_then_exit) EmptyString EmptyString
  = WaitReturned None
      (Some {| Out := EmptyString; Err := EmptyString; SignalCodes := []; ExitCode := 0; Pid := 4321 |}) /\
  List.find is_terminal_line (consumed pid_then_exit) = Some "pid 4321".
Proof. repeat split; vm_compute; reflexivity. Qed.

(** C2, amended. In the result the reader hands over, the exit code is -1
    when no complete [exit ] record was read up to the end of file of the
    open that delivered a terminal record, and it is the integer [N] of the
    last [exit N] record read up to there otherwise, whatever other terminal
    records were read. In particular, when exactly one terminal record was
    read, the exit code is -1 if it is not an [exit ] record ([kill n],
    [pid n]) and [N] if it is [exit N]. *)
Theorem exit_code_of_last_exit_record (env : status_env) (stdout_fn stderr_fn : string)
    (e : option error) (result : FIFOCommandResult) :
  forallb clean_open (status_opens env) = true ->
  WaitUntilDone env stdout_fn stderr_fn = WaitReturned e (Some result) ->
  let lines := consumed (status_opens env) in
  (Forall (fun l => HasPrefix l "exit " = false) lines -> ExitCode result = -1) /\
  (forall before after N,
     lines = (before ++ ("exit " +:+ FormatInt N) :: after)%list ->
     Forall (fun l => HasPrefix l "exit " = false) after ->
     - 2 ^ 63 <= N < 2 ^ 63 -> ExitCode result = N) /\
  (forall l, List.filter is_terminal_line lines = [l] ->
     (HasPrefix l "exit " = false -> ExitCode result = -1) /\
     (forall N, - 2 ^ 63 <= N < 2 ^ 63 -> l = "exit " +:+ FormatInt N ->
                ExitCode result = N)).
Proof.
  intros Hc Hw lines.
  destruct (WaitUntilDone_result _ _ _ _ _ Hw) as (st & Hloop & _ & _ & Hexit & _).
  pose proof (status_loop_clean _ initial_state Hc eq_refl) as Hl.
  rewrite Hloop in Hl. fold lines in Hl.
  assert (Hst : st = fold_left handle_line lines initial_state).
  { destruct (existsb is_terminal_line lines); congruence. }
  rewrite Hexit, Hst. clear Hl Hloop Hexit Hst Hw.
  assert (H1 : Forall (fun l => HasPrefix l "exit " = false) lines ->
               exit_code (fold_left handle_line lines initial_state) = -1).
  { intros H. rewrite (exit_code_fold_not_exit _ _ H). reflexivity. }
  assert (H2 : forall before after N,
             lines = (before ++ ("exit " +:+ FormatInt N) :: after)%list ->
             Forall (fun l => HasPrefix l "exit " = false) after ->
             - 2 ^ 63 <= N < 2 ^ 63 ->
             exit_code (fold_left handle_line lines initial_state) = N).
  { intros before after N -> Ha HN. apply exit_code_fold_last_exit; assumption. }
  split; [exact H1|]. split; [exact H2|].
  intros l Hf. destruct (filter_singleton_split _ _ _ Hf) as (b & a & Hlines & Hb & Ha).
  apply filter_nil_Forall in Hb, Ha.
  assert (Hne : forall ls, Forall (fun x => is_terminal_line x = false) ls ->
                           Forall (fun x => HasPrefix x "exit " = false) ls).
  { intros ls H. eapply Forall_impl; [exact H|]. exact not_terminal_not_exit. }
  split.
  - intros Hx. apply H1. rewrite Hlines. apply Forall_app. split; [auto|].
    constructor; auto.
  - intros N HN ->. apply (H2 b a N Hlines); auto.
Qed.

(** The exit code on that stream is 7. *)
Lemma exit_code_of_last_exit_record_witness :
  exists e result,
    WaitUntilDone (env_of stop_then_exit) EmptyString EmptyString = WaitReturned e (Some result) /\
    ExitCode result = 7.
Proof.
  eexists. eexists. split; [reflexivity|].
  apply (proj2 (proj2 (proj2 (exit_code_of_last_exit_record
           (env_of stop_then_exit) EmptyString EmptyString _ _ eq_refl eq_refl)) "exit 7" eq_refl) 7);
    [lia | reflexivity].
Defined.

End StatusReader.

(** ** The client write path *)

Section ClientWritePath.

Import Util Status Client.

Example frame_alive :
  frame (WaitUntilServerIsAlive (Some (sample_command false)) (sample_env [Flock None] []))
  = [line "@alive"; sentinel].
Proof. vm_compute. reflexivity. Qed.

Example frame_blocked_iexec :
  ExecuteDaemonOnServerBlockOnClient (Some (sample_command false))
    (sample_env [Flock None] []) ["/bin/echo"; "hello"]
  = ({| Out := EmptyString; Err := EmptyString; SignalCodes := []; ExitCode := 0; Pid := 0 |},
     {| ret := Returned None;
        frame := [line "iexec"; line "-s"; line "/tmp/iexec123/status";
                  line "-o"; line "/tmp/iexec123/stdout";
                  line "-e"; line "/tmp/iexec123/stderr"; line "--";
                  line "/bin/echo"; line "hello"; sentinel];
        handled := Some {| Out := EmptyString; Err := EmptyString; SignalCodes := []; ExitCode := 0; Pid := 0 |};
        background := false |}).
Proof. vm_compute. reflexivity. Qed.

Example frame_daemon :
  frame (ExecuteDaemonOnServer (Some (sample_command false)) (sample_env [Flock None] [])
           ["ls"; "-l"])
  = [line "iexec"; line "ls"; line "-l"; sentinel].
Proof. vm_compute. reflexivity. Qed.

Lemma Fprintf_written (f : pipe) (text : string) :
  written (fst (Fprintf f text)) = (written f ++ [text])%list.
Proof. unfold Fprintf. destruct (failing f) as [|[|] ?]; reflexivity. Qed.

Lemma Fprintf_no_failure (f : pipe) (text : string) :
  Forall (fun b => b = false) (failing f) ->
  snd (Fprintf f text) = None /\
  Forall (fun b => b = false) (failing (fst (Fprintf f text))).
Proof.
  unfold Fprintf. intros H. destruct (failing f) as [|b rest]; [auto|].
  inversion H; subst. auto.
Qed.

Lemma write_args_no_failure (args : list string) : forall f,
  Forall (fun b => b = false) (failing f) ->
  snd (write_args f args) = None /\
  written (fst (write_args f args)) = (written f ++ map line args)%list.
Proof.
  induction args as [|a rest IH]; intros f Hf; simpl.
  - rewrite app_nil_r. auto.
  - destruct (Fprintf_no_failure f (a +:+ nl) Hf) as [He Hf1].
    pose proof (Fprintf_written f (a +:+ nl)) as Hw.
    destruct (Fprintf f (a +:+ nl)) as [f1 e]; simpl in *. subst e.
    destruct (IH f1 Hf1) as [Hr Hwr]. rewrite Hr, Hwr, Hw, <- app_assoc. auto.
Qed.

(** With a control verb in front no header is written: the frame is what
    the loop over the arguments wrote, and the sentinel after it when the
    loop ran to its end. *)
Lemma write_frame_control (env : client_env) (a0 : string) (rest : list string)
    (callback : option FIFOCallback) (sd so se : string) :
  is_control_verb a0 = true ->
  frame (write_frame env (a0 :: rest) callback sd so se)
  = let '(f, r) := write_args {| written := []; failing := write_failures env |} (a0 :: rest) in
    match r with
    | Some _ => written f
    | None => (written f ++ [sentinel])%list
    end.
Proof.
  intros Hv. unfold write_frame. rewrite Hv. cbn [negb].
  destruct (write_args _ (a0 :: rest)) as [f [r|]]; [reflexivity|].
  pose proof (Fprintf_written f sentinel) as Hs.
  destruct (Fprintf f sentinel) as [f2 e2]; simpl in Hs.
  destruct callback as [cb|]; [|exact Hs].
  destruct (ShouldBlockUntilTerminated cb); [|exact Hs].
  destruct (WaitUntilDone _ _ _); exact Hs.
Qed.

(** The function either stops before the lock is acquired, with nothing
    written, or goes on with [write_frame]. *)
Lemma call_reaches_write_frame (this : FIFOCommand) (env : client_env)
    (args : list string) (callback : option FIFOCallback) :
  pre_lock_ok this env callback = true ->
  acquire (ClientNonBlocking this) (attempts env) = Acquired ->
  exists sd so se,
    ExecuteDaemonOnServerWithCallback (Some this) env args callback
    = write_frame env args callback sd so se.
Proof.
  unfold pre_lock_ok, ExecuteDaemonOnServerWithCallback. intros Hpre Hacq.
  apply andb_true_iff in Hpre as [Hpre Hfifo]. apply andb_true_iff in Hpre as [Hcb Hex].
  destruct callback as [cb|].
  - destruct (TempDir_suffix env) as [suffix|]; [|discriminate].
    rewrite Hcb, Hex, Hfifo, Hacq. cbn [negb]. eauto.
  - rewrite Hex, Hfifo, Hacq. cbn [negb]. eauto.
Qed.

Lemma call_without_lock (this : FIFOCommand) (env : client_env)
    (args : list string) (callback : option FIFOCallback) :
  pre_lock_ok this env callback = false \/
  acquire (ClientNonBlocking this) (attempts env) <> Acquired ->
  frame (ExecuteDaemonOnServerWithCallback (Some this) env args callback) = [].
Proof.
  unfold pre_lock_ok, ExecuteDaemonOnServerWithCallback. intros H.
  destruct callback as [cb|].
  - destruct (TempDir_suffix env) as [suffix|]; [|reflexivity].
    destruct (MkFIFO_ok env); [|reflexivity]. cbn [negb].
    destruct (FileExists (fs env) (Filename this)); [|reflexivity].
    destruct (IsFIFO (fs env) (Filename this)); [|reflexivity]. cbn [negb].
    destruct (acquire _ _); try reflexivity. destruct H as [H|H]; [discriminate|congruence].
  - destruct (FileExists (fs env) (Filename this)); [|reflexivity].
    destruct (IsFIFO (fs env) (Filename this)); [|reflexivity]. cbn [negb].
    destruct (acquire _ _); try reflexivity. destruct H as [H|H]; [discriminate|congruence].
Qed.

(** C3, as stated, fails when the control verb is followed by further
    tokens: every token of the argument list is written, so the frame of
    [@alive x] has two token lines before the sentinel. *)
Lemma control_verb_with_arguments :
  is_control_verb "@alive" = true /\
  frame (ExecuteDaemonOnServer (Some (sample_command false))
           (sample_env [Flock None] []) ["@alive"; "x"])
  = [line "@alive"; line "x"; sentinel] /\
  frame (ExecuteDaemonOnServer (Some (sample_command false))
           (sample_env [Flock None] []) ["@alive"; "x"])
  <> [line "@alive"; sentinel].
Proof.
  split; [reflexivity|]. split; [vm_compute; reflexivity | vm_compute; discriminate].
Qed.

Lemma attempted_cons_false (rest : list bool) (n : nat) :
  attempted (false :: rest) (S n) = S (attempted rest n).
Proof. unfold attempted. cbn [first_failure]. destruct (first_failure rest); reflexivity. Qed.

Lemma fails_within_cons_false (rest : list bool) (n : nat) :
  fails_within (false :: rest) (S n) = fails_within rest n.
Proof.
  unfold fails_within. cbn [first_failure]. destruct (first_failure rest); reflexivity.
Qed.

Lemma attempted_cons_true (rest : list bool) (n : nat) :
  attempted (true :: rest) (S n) = 1%nat /\ fails_within (true :: rest) (S n) = true.
Proof. split; reflexivity. Qed.

Lemma attempted_nil (n : nat) : attempted [] n = n /\ fails_within [] n = false.
Proof. split; reflexivity. Qed.

Lemma attempted_0 (failures : list bool) :
  attempted failures 0 = 0%nat /\ fails_within failures 0 = false.
Proof.
  unfold attempted, fails_within.
  destruct (first_failure failures); [rewrite Nat.min_0_r|]; auto.
Qed.

(** What the loop over the arguments attempts to write: the lines of the
    tokens up to and including the first whose write fails, and then the
    sentinel, inside the loop when a write failed and after it otherwise. *)
Lemma write_args_attempted (args : list string) : forall f,
  (let '(f', r) := write_args f args in
   match r with Some _ => written f' | None => (written f' ++ [sentinel])%list end)
  = (written f ++ map line (take (attempted (failing f) (length args)) args)
     ++ [sentinel])%list.
Proof.
  induction args as [|a rest IH]; intros f.
  - cbn [write_args length]. replace (attempted (failing f) 0) with 0%nat.
    + reflexivity.
    + unfold attempted. destruct (first_failure (failing f)); [rewrite Nat.min_0_r|]; reflexivity.
  - cbn [write_args length]. unfold Fprintf at 1.
    destruct (failing f) as [|[|] fs] eqn:Ef.
    + specialize (IH {| written := written f ++ [a +:+ nl]; failing := [] |}).
      cbn [written failing] in IH. rewrite IH.
      change (attempted [] (S (length rest))) with (S (attempted [] (length rest))).
      cbn [take map]. rewrite <- app_assoc. reflexivity.
    + pose proof (Fprintf_written {| written := written f ++ [a +:+ nl]; failing := fs |}
                    sentinel) as Hs.
      destruct (Fprintf _ sentinel) as [f2 e2]. cbn [fst written] in Hs. rewrite Hs.
      change (attempted (true :: fs) (S (length rest))) with 1%nat.
      cbn [take map]. rewrite take_0, <- app_assoc. reflexivity.
    + specialize (IH {| written := written f ++ [a +:+ nl]; failing := fs |}).
      cbn [written failing] in IH. rewrite IH, attempted_cons_false.
      cbn [take map]. rewrite <- app_assoc. reflexivity.
Qed.

Lemma attempted_no_failure (failures : list bool) (n : nat) :
  Forall (fun b => b = false) failures -> attempted failures n = n.
Proof.
  intros H. unfold attempted.
  assert (Hn : first_failure failures = None).
  { induction H as [|b rest -> _ IH]; [reflexivity|]. cbn [first_failure]. rewrite IH. reflexivity. }
  rewrite Hn. reflexivity.
Qed.

(** C3, amended. When the first token is [@exit], [@restart] or [@alive]
    and the lock was acquired, no [iexec] header and no option line is
    written or attempted, for every callback. The writes the client
    attempts on the command pipe are the lines of the tokens of the
    argument list, in their order, up to and including the first whose
    write fails, and then the sentinel. When no write fails, what is
    written is the lines of all the tokens followed by the sentinel, and
    for an argument list of that single token exactly its line followed by
    the sentinel. *)
Theorem control_verb_frame (this : FIFOCommand) (env : client_env)
    (callback : option FIFOCallback) (a0 : string) (rest : list string) :
  is_control_verb a0 = true ->
  pre_lock_ok this env callback = true ->
  acquire (ClientNonBlocking this) (attempts env) = Acquired ->
  let args := a0 :: rest in
  let r := ExecuteDaemonOnServerWithCallback (Some this) env args callback in
  frame r = (map line (take (attempted (write_failures env) (length args)) args)
             ++ [sentinel])%list /\
  (Forall (fun b => b = false) (write_failures env) ->
   frame r = (map line args ++ [sentinel])%list /\
   (rest = [] -> frame r = [line a0; sentinel])).
Proof.
  intros Hv Hpre Hacq args r.
  destruct (call_reaches_write_frame this env args callback Hpre Hacq)
    as (sd & so & se & Hr).
  assert (Hframe : frame r
                   = (map line (take (attempted (write_failures env) (length args)) args)
                      ++ [sentinel])%list).
  { subst r. rewrite Hr. unfold args.
    rewrite (write_frame_control env a0 rest callback sd so se Hv).
    exact (write_args_attempted (a0 :: rest)
             {| written := []; failing := write_failures env |}). }
  split; [exact Hframe|].
  intros Hf. rewrite (attempted_no_failure _ (length args) Hf), firstn_all in Hframe.
  split; [exact Hframe|]. intros ->. exact Hframe.
Qed.

(** The attempts for [@alive x y] when the write of [x] fails, with a
    capturing, blocking callback, and the frame of [@exit] when no write
    fails. *)
Lemma control_verb_frame_witness :
  frame (ExecuteDaemonOnServerWithCallback (Some (sample_command false))
           (sample_env [Flock None] [false; true]) ["@alive"; "x"; "y"]
           (Some (NewSimpleFIFOCallback true true true)))
  = ["@alive" +:+ String "010" EmptyString; "x" +:+ String "010" EmptyString;
     "-*-EOFENDEOFEND-*-" +:+ String "010" EmptyString] /\
  frame (RequestServerShutdown (Some (sample_command false)) (sample_env [Flock None] []))
  = ["@exit" +:+ String "010" EmptyString;
     "-*-EOFENDEOFEND-*-" +:+ String "010" EmptyString].
Proof.
  split.
  - exact (proj1 (control_verb_frame (sample_command false)
                    (sample_env [Flock None] [false; true])
                    (Some (NewSimpleFIFOCallback true true true)) "@alive" ["x"; "y"]
                    eq_refl eq_refl eq_refl)).
  - exact (proj2 (proj2 (control_verb_frame (sample_command false)
                           (sample_env [Flock None] []) None "@exit" []
                           eq_refl eq_refl eq_refl) (List.Forall_nil _)) eq_refl).
Defined.

(** *** The lock *)











(** *** A failed write *)

(** C5 on the code. When the write of the [iexec] header line fails, the
    function returns the error and the sentinel is never attempted: the
    frame stays open. In the loop over the arguments a failed write is
    followed by the sentinel, and what is returned is the result of that
    last write: no error when the sentinel went through. With a callback a
    failed header write is forgotten as soon as a later one succeeds. *)
Theorem header_write_failure_skips_sentinel :
  ExecuteDaemonOnServer (Some (sample_command false)) (sample_env [Flock None] [true]) ["ls"]
  = {| ret := Returned (Some ErrWrite); frame := [line "iexec"]; handled := None;
       background := false |} /\
  ExecuteDaemonOnServer (Some (sample_command false))
    (sample_env [Flock None] [false; true]) ["ls"]
  = {| ret := Returned None; frame := [line "iexec"; line "ls"; sentinel];
       handled := None; background := false |} /\
  ExecuteDaemonOnServerWithCallback (Some (sample_command false))
    (sample_env [Flock None] [true]) ["ls"] (Some (NewSimpleFIFOCallback false false false))
  = {| ret := Returned None;
       frame := [line "iexec"; line "-s"; line "/tmp/iexec123/status"; line "--";
                 line "ls"; sentinel];
       handled := None; background := true |}.
Proof. repeat split; vm_compute; reflexivity. Qed.

End ClientWritePath.

(** ** The configuration renderer *)

Section Renderer.

Import Cgroups.

Lemma append_cons (x : ascii) (a b : string) : String x a +:+ b = String x (a +:+ b).
Proof. reflexivity. Qed.

Lemma append_assoc (a b c : string) : (a +:+ b) +:+ c = a +:+ (b +:+ c).
Proof.
  induction a as [|x a IH]; [reflexivity|]. rewrite !append_cons, IH. reflexivity.
Qed.

Lemma append_nil_r (a : string) : a +:+ EmptyString = a.
Proof.
  induction a as [|x a IH]; [reflexivity|]. rewrite append_cons, IH. reflexivity.
Qed.

Lemma concat_lines_cons (x : string) (l : list string) :
  concat_lines (x :: l) = x +:+ concat_lines l.
Proof. reflexivity. Qed.

Lemma concat_lines_app (l1 l2 : list string) :
  concat_lines (l1 ++ l2) = concat_lines l1 +:+ concat_lines l2.
Proof.
  induction l1 as [|x l1 IH]; [reflexivity|].
  rewrite <- app_comm_cons, !concat_lines_cons, IH, append_assoc. reflexivity.
Qed.

(** What [Sprintf] makes of the format [%s = %s] and a line feed. *)
Lemma config_line_format (key value : string) :
  config_line key value = key_value_line key value.
Proof. reflexivity. Qed.

Lemma append_values_spec (key : string) (value_list : list string) : forall buffer,
  append_values buffer key value_list
  = buffer +:+ concat_lines (map (key_value_line key) value_list).
Proof.
  induction value_list as [|v rest IH]; intros buffer.
  - cbn [append_values map]. change (concat_lines []) with EmptyString.
    rewrite append_nil_r. reflexivity.
  - cbn [append_values map].
    rewrite IH, config_line_format, concat_lines_cons, append_assoc. reflexivity.
Qed.

Lemma append_keys_spec (info : gmap string (list string)) (keys : list string) :
  forall buffer,
  append_keys buffer info keys
  = buffer +:+ concat_lines
      (flat_map (fun key => match info !! key with
                            | Some value_list => map (key_value_line key) value_list
                            | None => []
                            end) keys).
Proof.
  induction keys as [|key rest IH]; intros buffer.
  - cbn [append_keys flat_map]. change (concat_lines []) with EmptyString.
    rewrite append_nil_r. reflexivity.
  - cbn [append_keys flat_map].
    rewrite IH, append_values_spec, concat_lines_app, append_assoc.
    unfold index_info. destruct (info !! key); reflexivity.
Qed.

(** The set built by [GetCGroupKeyArrayAndSet] holds exactly the keys. *)
Lemma index_set_fold (keys : list string) : forall (keyset : gmap string bool) key,
  index_set (fold_left (fun ks k => <[k := true]> ks) keys keyset) key = true
  <-> key ∈ keys \/ index_set keyset key = true.
Proof.
  induction keys as [|k rest IH]; intros keyset key; simpl.
  - rewrite elem_of_nil. tauto.
  - rewrite IH, elem_of_cons. unfold index_set.
    destruct (decide (k = key)) as [->|Hne].
    + rewrite lookup_insert_eq. tauto.
    + rewrite lookup_insert_ne by exact Hne.
      split; intros [H|H]; auto. destruct H as [H|H]; [congruence | auto].
Qed.

Lemma index_set_keys (key : string) :
  index_set (snd GetCGroupKeyArrayAndSet) key = true <-> key ∈ GetCGroupKeys.
Proof.
  unfold GetCGroupKeyArrayAndSet. cbn [snd]. rewrite index_set_fold.
  unfold index_set. rewrite lookup_empty. split; [intros [H|H]; [exact H | discriminate] | auto].
Qed.

Lemma first_invalid_Some (keyset : gmap string bool) (order : list string) (key : string) :
  first_invalid keyset order = Some key -> key ∈ order /\ index_set keyset key = false.
Proof.
  induction order as [|k rest IH]; simpl; [discriminate|].
  destruct (index_set keyset k) eqn:E; simpl.
  - intros H. destruct (IH H). split; [right|]; assumption.
  - intros H. injection H as <-. split; [left | exact E].
Qed.

Lemma first_invalid_None (keyset : gmap string bool) (order : list string) :
  first_invalid keyset order = None <-> forall key, key ∈ order -> index_set keyset key = true.
Proof.
  induction order as [|k rest IH]; simpl.
  - split; [intros _ key H; inversion H | reflexivity].
  - destruct (index_set keyset k) eqn:E; simpl.
    + rewrite IH. split.
      * intros H key Hin. apply elem_of_cons in Hin as [->|Hin]; auto.
      * intros H key Hin. apply H. right. exact Hin.
    + split; [discriminate|]. intros H. assert (Hk : k ∈ k :: rest) by (left). specialize (H k Hk). congruence.
Qed.

Lemma iteration_of_elem (info : gmap string (list string)) (order : list string) (key : string) :
  iteration_of info order -> key ∈ order <-> is_Some (info !! key).
Proof.
  intros [_ Hdom]. rewrite <- elem_of_dom, Hdom, elem_of_list_to_set. reflexivity.
Qed.

(** No key occurs twice in the allow-list. *)
Lemma GetCGroupKeys_NoDup : NoDup GetCGroupKeys.
Proof. apply (bool_decide_unpack _). vm_compute. reflexivity. Qed.

Lemma GetCgroupInfoBytes_unfold (order : list string) (info : gmap string (list string)) :
  GetCgroupInfoBytes order info
  = match first_invalid (snd GetCGroupKeyArrayAndSet) order with
    | Some key => (EmptyString, Some (ErrInvalidKey key))
    | None => (append_keys EmptyString info GetCGroupKeys, None)
    end.
Proof. reflexivity. Qed.

(** The renderer fails exactly when the mapping has a key outside the
    allow-list, whatever the iteration order. *)
Lemma render_fails_iff (info : gmap string (list string)) (order : list string) :
  iteration_of info order ->
  first_invalid (snd GetCGroupKeyArrayAndSet) order = None
  <-> forall key, is_Some (info !! key) -> key ∈ GetCGroupKeys.
Proof.
  intros Hit. rewrite first_invalid_None. split; intros H key Hk.
  - apply index_set_keys, H, (iteration_of_elem info order key Hit), Hk.
  - apply index_set_keys, H, (iteration_of_elem info order key Hit), Hk.
Qed.

Example render_small_info :
  GetCgroupInfoBytes ["lxc.cgroup.devices.allow"; "lxc.arch"; "lxc.tty"] small_info
  = ("lxc.tty = 4" +:+ nl +:+ "lxc.arch = amd64" +:+ nl +:+
     "lxc.cgroup.devices.allow = c 1:3 rwm" +:+ nl +:+
     "lxc.cgroup.devices.allow = c 1:5 rwm" +:+ nl, None).
Proof. vm_compute. reflexivity. Qed.

(** Scenario "invalid key". *)
Example render_bogus_key :
  GetCgroupInfoBytes ["lxc.tty"; "lxc.bogus"] {[ "lxc.tty" := ["4"]; "lxc.bogus" := ["1"] ]}
  = (EmptyString, Some (ErrInvalidKey "lxc.bogus")).
Proof. vm_compute. reflexivity. Qed.

(** C6. For every mapping and every order in which its keys are ranged
    over, [GetCgroupInfoBytes] returns an error iff some key of the mapping
    is outside the allow-list, and the error is the invalid-key error of
    such a key; when every key is in the allow-list it succeeds, and the
    bytes are, for the keys of the allow-list in their order, one line
    [key = value] for each value of each key the mapping has, and nothing
    else. No key occurs twice in the allow-list. *)
Theorem render_allow_list (info : gmap string (list string)) (order : list string) :
  iteration_of info order ->
  (snd (GetCgroupInfoBytes order info) <> None
   <-> exists key, is_Some (info !! key) /\ key ∉ GetCGroupKeys) /\
  (forall e, snd (GetCgroupInfoBytes order info) = Some e ->
     exists key, e = ErrInvalidKey key /\ is_Some (info !! key) /\ key ∉ GetCGroupKeys) /\
  ((forall key, is_Some (info !! key) -> key ∈ GetCGroupKeys) ->
   GetCgroupInfoBytes order info = (concat_lines (config_lines info), None)) /\
  NoDup GetCGroupKeys.
Proof.
  intros Hit. rewrite GetCgroupInfoBytes_unfold.
  pose proof (render_fails_iff info order Hit) as Hiff.
  assert (Herr : forall key, first_invalid (snd GetCGroupKeyArrayAndSet) order = Some key ->
                 is_Some (info !! key) /\ key ∉ GetCGroupKeys).
  { intros key H. apply first_invalid_Some in H as [Hin Hset]. split.
    - apply (iteration_of_elem info order key Hit), Hin.
    - intros Hk. apply index_set_keys in Hk. congruence. }
  destruct (first_invalid (snd GetCGroupKeyArrayAndSet) order) as [bad|] eqn:E.
  - destruct (Herr bad eq_refl) as [Hsome Hout]. cbn [snd fst]. repeat split.
    + intros _. exists bad. auto.
    + discriminate.
    + intros e He. injection He as <-. exists bad. auto.
    + intros Hall. exfalso. apply Hout, Hall, Hsome.
    + exact GetCGroupKeys_NoDup.
  - cbn [snd fst]. repeat split.
    + intros H. congruence.
    + intros (key & Hsome & Hout) _. apply Hout, (proj1 Hiff eq_refl), Hsome.
    + discriminate.
    + intros _. rewrite append_keys_spec. reflexivity.
    + exact GetCGroupKeys_NoDup.
Qed.

(** The rendering of [small_info]. *)
Lemma render_allow_list_witness :
  GetCgroupInfoBytes ["lxc.cgroup.devices.allow"; "lxc.arch"; "lxc.tty"] small_info
  = (concat_lines
       (map (fun l => l +:+ String "010" EmptyString)
          ["lxc.tty = 4"; "lxc.arch = amd64";
           "lxc.cgroup.devices.allow = c 1:3 rwm";
           "lxc.cgroup.devices.allow = c 1:5 rwm"]), None).
Proof.
  change (concat_lines (map _ _)) with (concat_lines (config_lines small_info)).
  assert (Hit : iteration_of small_info ["lxc.cgroup.devices.allow"; "lxc.arch"; "lxc.tty"]).
  { split; [apply (bool_decide_unpack _); vm_compute; reflexivity | vm_compute; reflexivity]. }
  apply (proj1 (proj2 (proj2 (render_allow_list small_info _ Hit)))).
  intros key Hk. apply (iteration_of_elem small_info _ key Hit) in Hk.
  apply elem_of_cons in Hk as [->|Hk]; [apply (bool_decide_unpack _); vm_compute; reflexivity|].
  apply elem_of_cons in Hk as [->|Hk]; [apply (bool_decide_unpack _); vm_compute; reflexivity|].
  apply elem_of_cons in Hk as [->|Hk]; [apply (bool_decide_unpack _); vm_compute; reflexivity|].
  inversion Hk.
Defined.

(** With two keys outside the allow-list the key named in the error is the
    one the iteration meets first; the bytes are the same. *)
Example render_error_names_first_met :
  GetCgroupInfoBytes ["lxc.tty"; "lxc.bogus"; "lxc.arch"; "lxc.other"] two_bogus_keys
  = (EmptyString, Some (ErrInvalidKey "lxc.bogus")) /\
  GetCgroupInfoBytes ["lxc.other"; "lxc.arch"; "lxc.bogus"; "lxc.tty"] two_bogus_keys
  = (EmptyString, Some (ErrInvalidKey "lxc.other")).
Proof. split; vm_compute; reflexivity. Qed.

(** C7. Two invocations on the same mapping, whatever the two orders in
    which the keys are ranged over, return the same bytes, and both succeed
    or both fail; when they succeed the two results are equal. *)
Theorem render_deterministic (info : gmap string (list string))
    (order1 order2 : list string) :
  iteration_of info order1 -> iteration_of info order2 ->
  fst (GetCgroupInfoBytes order1 info) = fst (GetCgroupInfoBytes order2 info) /\
  (snd (GetCgroupInfoBytes order1 info) = None
   <-> snd (GetCgroupInfoBytes order2 info) = None) /\
  (snd (GetCgroupInfoBytes order1 info) = None ->
   GetCgroupInfoBytes order1 info = GetCgroupInfoBytes order2 info).
Proof.
  intros H1 H2. rewrite !GetCgroupInfoBytes_unfold.
  pose proof (render_fails_iff info order1 H1) as Hiff1.
  pose proof (render_fails_iff info order2 H2) as Hiff2.
  destruct (first_invalid (snd GetCGroupKeyArrayAndSet) order1) as [k1|];
    destruct (first_invalid (snd GetCGroupKeyArrayAndSet) order2) as [k2|]; cbn [fst snd].
  - repeat split; discriminate.
  - exfalso. assert (Hn : Some k1 = None) by (apply Hiff1, Hiff2; reflexivity). discriminate.
  - exfalso. assert (Hn : Some k2 = None) by (apply Hiff2, Hiff1; reflexivity). discriminate.
  - repeat split; reflexivity.
Qed.

(** Two orders on a mapping with invalid keys and on a valid one. *)
Lemma render_deterministic_witness :
  fst (GetCgroupInfoBytes ["lxc.tty"; "lxc.bogus"; "lxc.arch"; "lxc.other"] two_bogus_keys)
  = fst (GetCgroupInfoBytes ["lxc.other"; "lxc.arch"; "lxc.bogus"; "lxc.tty"] two_bogus_keys) /\
  GetCgroupInfoBytes ["lxc.cgroup.devices.allow"; "lxc.arch"; "lxc.tty"] small_info
  = GetCgroupInfoBytes ["lxc.tty"; "lxc.arch"; "lxc.cgroup.devices.allow"] small_info.
Proof.
  split.
  - apply (render_deterministic two_bogus_keys).
    + split; [apply (bool_decide_unpack _); vm_compute; reflexivity | vm_compute; reflexivity].
    + split; [apply (bool_decide_unpack _); vm_compute; reflexivity | vm_compute; reflexivity].
  - apply (render_deterministic small_info).
    + split; [apply (bool_decide_unpack _); vm_compute; reflexivity | vm_compute; reflexivity].
    + split; [apply (bool_decide_unpack _); vm_compute; reflexivity | vm_compute; reflexivity].
    + reflexivity.
Defined.

End Renderer.

(** ** The container *)

Section ContainerLifecycle.

Import Util Status Client Containers.

Example execute_as_web :
  ExecuteImpl sample_container env_with_bob "web" ["ls"] false = ExecReturned None None.
Proof. vm_compute. reflexivity. Qed.

Example execute_blocked_as_root :
  ExecuteImpl sample_container env_with_bob "root" ["ls"] true
  = ExecReturned
      (Some {| Out := EmptyString; Err := EmptyString; SignalCodes := []; ExitCode := 0; Pid := 0 |}) None.
Proof. vm_compute. reflexivity. Qed.

(** The home directory is [/root] for [root] and [/home/<user>] otherwise. *)
Lemma GetHomeDirectory_spec (user : string) :
  GetHomeDirectory "root" = "/root" /\
  (user <> "root" -> GetHomeDirectory user = "/home/" +:+ user).
Proof.
  split; [reflexivity|]. intros H. unfold GetHomeDirectory.
  destruct (String.eqb_spec user "root"); [contradiction | reflexivity].
Qed.

(** A missing home directory makes [ExecuteImpl] return the home-missing
    error, for every user. *)
Lemma ExecuteImpl_home_missing (this : Container) (env : client_env) (user : string)
    (args : list string) (blocked : bool) :
  DirExists (fs env) (Join (rootfs this) (GetHomeDirectory user)) = false ->
  ExecuteImpl this env user args blocked = ExecReturned None (Some ErrHomeMissing).
Proof. intros H. unfold ExecuteImpl. rewrite H. reflexivity. Qed.

(** For a user that is neither [root] nor [web] and whose home directory
    exists, [fifo_command] is nil when the client is called: the call
    panics, blocked or not. *)
Lemma ExecuteImpl_unsupported_user (this : Container) (env : client_env) (user : string)
    (args : list string) (blocked : bool) :
  user <> "root" -> user <> "web" ->
  DirExists (fs env) (Join (rootfs this) (GetHomeDirectory user)) = true ->
  ExecuteImpl this env user args blocked = ExecPanicked.
Proof.
  intros Hr Hw Hd. unfold ExecuteImpl. rewrite Hd. cbn [negb].
  destruct (String.eqb_spec user "root"); [contradiction|].
  destruct (String.eqb_spec user "web"); [contradiction|].
  destruct blocked; reflexivity.
Qed.

(** C8 on the code. For the user [bob], whose home directory exists in the
    container, [ExecuteImpl] does not return the no-such-user error: the
    error value is built and dropped, the nil [fifo_command] is used, and
    the call panics, blocked or not. *)
Theorem execute_unsupported_user_panics :
  GetHomeDirectory "bob" = "/home/bob" /\
  DirExists (fs env_with_bob) (Join (rootfs sample_container) (GetHomeDirectory "bob")) = true /\
  ExecuteImpl sample_container env_with_bob "bob" ["ls"] false = ExecPanicked /\
  ExecuteImpl sample_container env_with_bob "bob" ["ls"] true = ExecPanicked.
Proof. repeat split; vm_compute; reflexivity. Qed.

(** C9, as stated, fails. In the file system [Create] leaves when the
    configuration could not be written the container is mounted and not
    created; a created container whose control group exists and whose root
    file system is not mounted is running and not mounted. *)
Lemma lifecycle_probes_not_ordered :
  IsMounted sample_container mounted_without_config = true /\
  IsCreated sample_container mounted_without_config = false /\
  IsRunning sample_container running_unmounted = true /\
  IsMounted sample_container running_unmounted = false.
Proof. repeat split; vm_compute; reflexivity. Qed.

(** C9, amended. [IsCreated] implies that the five component paths exist
    (the root file system, the meta-data and the private-data directory as
    directories, the configuration and the fstab as files of any kind).
    [IsMounted] holds exactly when [<rootfs>/etc] is a directory, and
    [IsRunning] exactly when [/cgroup/lxc/<name>] is one: each probe looks
    at its own paths only. *)
Theorem lifecycle_probes (this : Container) (fs : gmap string file_kind) :
  (IsCreated this fs = true ->
   fs !! rootfs this = Some KDir /\ fs !! meta_dir this = Some KDir /\
   fs !! private_dir this = Some KDir /\
   is_Some (fs !! config_pathname this) /\ is_Some (fs !! fstab_pathname this)) /\
  (IsMounted this fs = true <-> fs !! Join (rootfs this) "/etc" = Some KDir) /\
  (IsRunning this fs = true <-> fs !! Join "/cgroup/lxc" (name this) = Some KDir).
Proof.
  assert (Hdir : forall p, DirExists fs p = true <-> fs !! p = Some KDir).
  { intros p. unfold DirExists. destruct (fs !! p) as [[]|]; split; congruence. }
  assert (Hfile : forall p, FileExists fs p = true -> is_Some (fs !! p)).
  { intros p. unfold FileExists. destruct (fs !! p); [eauto | discriminate]. }
  split; [|split; apply Hdir].
  unfold IsCreated. intros H.
  apply andb_true_iff in H as [H H5]. apply andb_true_iff in H as [H H4].
  apply andb_true_iff in H as [H H3]. apply andb_true_iff in H as [H1 H2].
  repeat split; try (apply Hdir; assumption); apply Hfile; assumption.
Qed.

(** The five components of a created container. *)
Lemma lifecycle_probes_witness :
  running_with_bob !! "/web/c1/rootfs" = Some KDir /\
  running_with_bob !! "/web/c1/meta" = Some KDir /\
  running_with_bob !! "/web/c1/private-data" = Some KDir /\
  is_Some (running_with_bob !! "/web/c1/config") /\
  is_Some (running_with_bob !! "/web/c1/fstab").
Proof.
  apply (proj1 (lifecycle_probes sample_container running_with_bob)).
  vm_compute. reflexivity.
Defined.

End ContainerLifecycle.

(** ** The resource limits *)

Section ResourceLimitFlags.

Import Limits.

Lemma make_bytes_length (n : nat) : String.length (make_bytes n) = n.
Proof. induction n as [|n IH]; simpl; [reflexivity | rewrite IH; reflexivity]. Qed.

(** [emit] only appends. *)
Lemma emit_keeps_prefix (p buffer flag : string) (v : Z) :
  (exists rest, buffer = p +:+ rest) -> exists rest, emit buffer flag v = p +:+ rest.
Proof.
  intros (rest & ->). unfold emit. destruct (negb (v =? RLIMIT_UNCHANGED)).
  - exists (rest +:+ flag +:+ FormatInt v). rewrite !append_assoc. reflexivity.
  - exists rest. reflexivity.
Qed.

Lemma emit_unchanged (buffer flag : string) : emit buffer flag RLIMIT_UNCHANGED = buffer.
Proof. reflexivity. Qed.

Example limits_nofile :
  exists soft, nofile soft = 1024 /\
    ResourceLimitsToIexecArgString (Some soft) None
    = make_bytes 1024 +:+ " --rlimit-nofile-soft 1024".
Proof.
  exists {| cpu := -2; fsize := -2; data := -2; stack := -2; core := -2; rss := -2;
            nofile := 1024; as_ := -2; nproc := -2; memproc := -2; locks := -2;
            sigpending := -2; msgqueue := -2; nice := -2; rtprio := -2 |}.
  split; [reflexivity | vm_compute; reflexivity].
Qed.

(** C10. Whatever the two records, nil included, the string returned by
    [ResourceLimitsToIexecArgString] begins with the 1024 zero bytes the
    buffer is made with; when both records are nil or hold the sentinel in
    every field, it is exactly these 1024 zero bytes, never the empty
    string. *)
Theorem limits_string_starts_with_zero_bytes :
  (forall soft hard, exists rest,
     ResourceLimitsToIexecArgString soft hard = make_bytes 1024 +:+ rest) /\
  String.length (make_bytes 1024) = 1024%nat /\
  ResourceLimitsToIexecArgString None None = make_bytes 1024 /\
  ResourceLimitsToIexecArgString (Some NewResourceLimits) None = make_bytes 1024 /\
  ResourceLimitsToIexecArgString None (Some NewResourceLimits) = make_bytes 1024 /\
  ResourceLimitsToIexecArgString (Some NewResourceLimits) (Some NewResourceLimits)
  = make_bytes 1024 /\
  ResourceLimitsToIexecArgString None None <> EmptyString.
Proof.
  split; [|split; [apply make_bytes_length | repeat split; try reflexivity; discriminate]].
  intros soft hard. unfold ResourceLimitsToIexecArgString. cbv zeta.
  assert (Hbase : exists rest, make_bytes 1024 = make_bytes 1024 +:+ rest)
    by (exists EmptyString; rewrite append_nil_r; reflexivity).
  destruct soft as [soft|]; destruct hard as [hard|];
    repeat apply emit_keeps_prefix; exact Hbase.
Qed.

End ResourceLimitFlags.

(** ** The command server *)

Section CommandServer.

Import Util Status Client Server.

Example server_three_frames :
  RunServer (NewFIFOCommand "/root/.cmd" EmptyString) three_frames
  = ({| executed := [["ls"; "-l"]]; run_failures := [] |}, SrvReturned None).
Proof. vm_compute. reflexivity. Qed.

Lemma split_frames_nonempty (lines : list string) :
  exists frame frames, split_frames lines = frame :: frames.
Proof.
  induction lines as [|l rest (f & fs & IH)]; simpl; [eauto|].
  destruct (String.eqb l sentinel_token); [eauto|]. rewrite IH. eauto.
Qed.

Lemma append_to_last_snoc (init : list (list string)) (cur : list string) (sline : string) :
  append_to_last (init ++ [cur]) sline = (init ++ [(cur ++ [sline])%list])%list.
Proof.
  induction init as [|a init IH]; [reflexivity|].
  cbn [app append_to_last]. rewrite IH.
  destruct (init ++ [cur])%list eqn:E; [|reflexivity].
  destruct init; discriminate E.
Qed.

(** The reading loop joins the pieces of a line and cuts the lines into
    frames at the sentinels. *)
Lemma read_line_steps (evs : list read_event) :
  forall pending init cur,
  arg_lists (fold_left read_line_step evs
               {| buffer := pending; arg_lists := (init ++ [cur])%list |})
  = (init ++ match split_frames (assemble pending evs) with
             | frame :: frames => (cur ++ frame)%list :: frames
             | [] => [cur]
             end)%list.
Proof.
  induction evs as [|ev rest IH]; intros pending init cur.
  - simpl. rewrite app_nil_r. reflexivity.
  - cbn [fold_left assemble].
    assert (Hline : forall buf,
      arg_lists (fold_left read_line_step rest
        (if String.eqb buf sentinel_token
         then {| buffer := EmptyString; arg_lists := ((init ++ [cur]) ++ [[]])%list |}
         else {| buffer := EmptyString;
                 arg_lists := append_to_last (init ++ [cur]) buf |}))
      = (init ++ match split_frames (buf :: assemble EmptyString rest) with
                 | frame :: frames => (cur ++ frame)%list :: frames
                 | [] => [cur]
                 end)%list).
    { intros buf. cbn [split_frames].
      destruct (split_frames_nonempty (assemble EmptyString rest)) as (f & fs & Hs).
      destruct (String.eqb buf sentinel_token).
      - rewrite (IH EmptyString (init ++ [cur])%list []), Hs.
        rewrite app_nil_r, <- app_assoc. reflexivity.
      - rewrite append_to_last_snoc, (IH EmptyString init (cur ++ [buf])%list), Hs.
        rewrite <- app_assoc. reflexivity. }
    destruct ev as [piece [|]|]; unfold read_line_step; cbn [buffer arg_lists].
    + apply IH.
    + apply Hline.
    + rewrite append_nil_r. apply Hline.
Qed.

Lemma read_frames_assemble (evs : list read_event) :
  read_frames evs = split_frames (assemble EmptyString evs).
Proof.
  unfold read_frames. pose proof (read_line_steps evs EmptyString [] []) as H.
  cbn [app] in H. rewrite H.
  destruct (split_frames_nonempty (assemble EmptyString evs)) as (f & fs & ->).
  reflexivity.
Qed.

Lemma Split_app_sep (sep : ascii) (t rest : string) :
  string_forall (fun c => negb (Ascii.eqb c sep)) t = true ->
  Split (t +:+ String sep rest) sep = t :: Split rest sep.
Proof.
  induction t as [|c t IH]; intros H.
  - change (EmptyString +:+ String sep rest) with (String sep rest).
    cbn [Split]. rewrite Ascii.eqb_refl. reflexivity.
  - cbn [string_forall] in H. apply andb_true_iff in H as [Hc Ht].
    rewrite append_cons. cbn [Split]. rewrite (IH Ht).
    destruct (Ascii.eqb c sep); [discriminate | reflexivity].
Qed.

Lemma Split_written (tokens : list string) :
  Forall (fun t => string_forall (fun c => negb (Ascii.eqb c LF)) t = true) tokens ->
  Split (bytes_of (map line tokens)) LF = (tokens ++ [EmptyString])%list.
Proof.
  induction tokens as [|t rest IH]; intros H; [reflexivity|].
  inversion H as [|? ? Ht Hrest]; subst.
  change (bytes_of (map line (t :: rest)))
    with ((t +:+ String LF EmptyString) +:+ bytes_of (map line rest)).
  rewrite append_assoc.
  change (String LF EmptyString +:+ bytes_of (map line rest))
    with (String LF (bytes_of (map line rest))).
  rewrite (Split_app_sep LF t _ Ht), (IH Hrest). reflexivity.
Qed.

(** What is written line by line is read back line by line. *)
Lemma lines_of_written (tokens : list string) :
  Forall (fun t => string_forall (fun c => negb (Ascii.eqb c LF)) t = true) tokens ->
  Forall (fun t => strip_cr t = t) tokens ->
  lines_of_bytes (bytes_of (map line tokens)) = tokens.
Proof.
  intros Hlf Hcr. unfold lines_of_bytes. rewrite (Split_written tokens Hlf).
  rewrite removelast_last, last_snoc, app_nil_r.
  induction Hcr as [|t rest Ht Hrest IH]; [reflexivity|].
  inversion Hlf; subst. cbn [map]. rewrite Ht, IH by assumption. reflexivity.
Qed.

Lemma split_frames_one (tokens : list string) :
  Forall (fun t => t <> sentinel_token) tokens ->
  split_frames (tokens ++ [sentinel_token]) = [tokens; []].
Proof.
  induction tokens as [|t rest IH]; intros H; [reflexivity|].
  inversion H as [|? ? Ht Hrest]; subst.
  cbn [app split_frames]. rewrite (IH Hrest).
  destruct (String.eqb_spec t sentinel_token); [contradiction | reflexivity].
Qed.

(** The lines of tokens and of the sentinel are read back as one frame. *)
Lemma read_frames_of_lines (tokens : list string) (evs : list read_event) :
  Forall plain_token tokens ->
  assemble EmptyString evs
  = lines_of_bytes (bytes_of (map line (tokens ++ [sentinel_token]))) ->
  read_frames evs = [tokens; []].
Proof.
  intros Hplain Hevs.
  assert (Hlf : Forall (fun t => string_forall (fun c => negb (Ascii.eqb c LF)) t = true)
                  (tokens ++ [sentinel_token])).
  { apply Forall_app. split.
    - eapply Forall_impl; [exact Hplain|]. intros t (H & _ & _). exact H.
    - constructor; [reflexivity | constructor]. }
  assert (Hcr : Forall (fun t => strip_cr t = t) (tokens ++ [sentinel_token])).
  { apply Forall_app. split.
    - eapply Forall_impl; [exact Hplain|]. intros t (_ & H & _). exact H.
    - constructor; [reflexivity | constructor]. }
  assert (Hne : Forall (fun t => t <> sentinel_token) tokens).
  { eapply Forall_impl; [exact Hplain|]. intros t (_ & _ & H). exact H. }
  rewrite (lines_of_written _ Hlf Hcr) in Hevs.
  rewrite read_frames_assemble, Hevs. apply split_frames_one. exact Hne.
Qed.

(** X1. A frame goes through the pipe unchanged. When the client has
    written the lines of [written] and the sentinel, and no token holds a
    line feed, ends in a carriage return or is the sentinel itself, then
    however [ReadLine] cuts the lines into pieces, the server reads back
    one frame with exactly these tokens, and an empty frame after it. *)
Theorem frame_round_trip (written : list string) (evs : list read_event) :
  Forall plain_token written ->
  assemble EmptyString evs
  = lines_of_bytes (bytes_of (map line written ++ [sentinel])) ->
  read_frames evs = [written; []].
Proof.
  intros Hplain Hevs. apply read_frames_of_lines; [exact Hplain|].
  rewrite map_app. exact Hevs.
Qed.

(** The frame [iexec ls], the second token read in two pieces. *)
Lemma frame_round_trip_witness :
  read_frames [complete "iexec"; ReadLine_ok "l" true; complete "s";
               complete sentinel_token]
  = [["iexec"; "ls"]; []].
Proof.
  apply frame_round_trip.
  - repeat constructor; discriminate.
  - vm_compute. reflexivity.
Defined.

Lemma Run_executed (r : runner) (argv : list string) :
  executed (fst (Run r argv)) = (executed r ++ [argv])%list.
Proof. unfold Run. destruct (run_failures r) as [|[|] ?]; reflexivity. Qed.

Lemma Run_no_failure (r : runner) (argv : list string) :
  Forall (fun b => b = false) (run_failures r) ->
  snd (Run r argv) = None /\
  Forall (fun b => b = false) (run_failures (fst (Run r argv))).
Proof.
  unfold Run. intros H. destruct (run_failures r) as [|b rest]; [auto|].
  inversion H; subst. auto.
Qed.

(** What one batch does: it runs the commands up to and including the first
    whose run fails, and ends on that failure, or on what the frames say
    when no run fails. *)
Lemma process_frames_spec (frames : list (list string)) : forall r,
  executed (fst (process_frames r frames))
  = (executed r
     ++ take (attempted (run_failures r) (length (commands_of frames)))
          (commands_of frames))%list /\
  snd (process_frames r frames)
  = if fails_within (run_failures r) (length (commands_of frames))
    then BatchFailed else batch_end frames.
Proof.
  pose proof attempted_0 as H0.
  induction frames as [|frame rest IH]; intros r.
  - cbn [process_frames commands_of length fst snd batch_end].
    destruct (H0 (run_failures r)) as [-> ->]. rewrite app_nil_r. auto.
  - destruct frame as [|a0 args]; [exact (IH r)|].
    cbn [process_frames commands_of is_control_frame is_skipped_frame batch_end].
    destruct (String.eqb a0 "@exit").
    { cbn [orb length fst snd]. destruct (H0 (run_failures r)) as [-> ->].
      rewrite app_nil_r. auto. }
    destruct (String.eqb a0 "@restart").
    { cbn [orb length fst snd]. destruct (H0 (run_failures r)) as [-> ->].
      rewrite app_nil_r. auto. }
    cbn [orb]. destruct (String.eqb a0 "@alive"); [exact (IH r)|].
    cbn [length]. unfold Run. destruct (run_failures r) as [|[|] fs] eqn:Ef.
    + specialize (IH {| executed := executed r ++ [a0 :: args]; run_failures := [] |}).
      cbn [executed run_failures] in IH. destruct IH as [IHe IHs].
      rewrite IHe, IHs, !(proj1 (attempted_nil _)), !(proj2 (attempted_nil _)).
      cbn [take]. rewrite <- app_assoc. auto.
    + destruct (attempted_cons_true fs (length (commands_of rest))) as [-> ->].
      cbn [fst snd executed take]. rewrite take_0. auto.
    + specialize (IH {| executed := executed r ++ [a0 :: args]; run_failures := fs |}).
      cbn [executed run_failures] in IH. destruct IH as [IHe IHs].
      rewrite IHe, IHs, attempted_cons_false, fails_within_cons_false.
      cbn [take]. rewrite <- app_assoc. auto.
Qed.

(** X2. The commands of one batch of frames are the frames before the
    first [@exit] or [@restart], without the empty and the [@alive] ones.
    The server runs them in their order up to and including the first one
    whose run fails, and no frame after it; the batch ends on a failure
    exactly when one of these commands fails, and it ends on the first
    [@exit] or [@restart], or at the end of the frames, otherwise. When no
    command fails, all of them are run. *)
Theorem batch_runs_commands_in_order (r : runner) (frames : list (list string)) :
  let commands := commands_of frames in
  executed (fst (process_frames r frames))
  = (executed r ++ take (attempted (run_failures r) (length commands)) commands)%list /\
  (snd (process_frames r frames) = BatchFailed
   <-> fails_within (run_failures r) (length commands) = true) /\
  (fails_within (run_failures r) (length commands) = false ->
   snd (process_frames r frames) = batch_end frames /\
   executed (fst (process_frames r frames)) = (executed r ++ commands)%list).
Proof.
  intros commands. destruct (process_frames_spec frames r) as [He Hs].
  fold commands in He, Hs. split; [exact He|]. split.
  - rewrite Hs. destruct (fails_within (run_failures r) (length commands)).
    + split; reflexivity.
    + split; [|discriminate]. intros H. exfalso.
      clear - H. induction frames as [|[|a0 args] rest IH]; cbn [batch_end] in H.
      * discriminate.
      * exact (IH H).
      * destruct (String.eqb a0 "@exit"); [discriminate|].
        destruct (String.eqb a0 "@restart"); [discriminate | exact (IH H)].
  - intros Hf. rewrite Hs, Hf. split; [reflexivity|]. rewrite He. f_equal.
    unfold attempted. unfold fails_within in Hf.
    destruct (first_failure (run_failures r)) as [i|]; [|apply firstn_all].
    apply Nat.ltb_ge in Hf. rewrite Nat.min_r by lia. apply firstn_all.
Qed.

(** The second command fails: the third one and the frames after it are
    not run. Without a failure the frames after an [@exit] are not run. *)
Lemma batch_runs_commands_in_order_witness :
  (executed (fst (process_frames {| executed := []; run_failures := [false; true] |}
                    [["@alive"]; ["a"]; []; ["b"; "-x"]; ["c"]; ["@exit"]]))
   = [["a"]; ["b"; "-x"]] /\
   snd (process_frames {| executed := []; run_failures := [false; true] |}
          [["@alive"]; ["a"]; []; ["b"; "-x"]; ["c"]; ["@exit"]])
   = BatchFailed) /\
  (snd (process_frames {| executed := []; run_failures := [] |}
          [["@alive"]; ["ls"; "-l"]; []; ["@exit"]; ["never"]])
   = BatchExit /\
   executed (fst (process_frames {| executed := []; run_failures := [] |}
                    [["@alive"]; ["ls"; "-l"]; []; ["@exit"]; ["never"]]))
   = [["ls"; "-l"]]).
Proof.
  split.
  - split.
    + exact (proj1 (batch_runs_commands_in_order
                      {| executed := []; run_failures := [false; true] |}
                      [["@alive"]; ["a"]; []; ["b"; "-x"]; ["c"]; ["@exit"]])).
    + exact (proj2 (proj1 (proj2 (batch_runs_commands_in_order
                      {| executed := []; run_failures := [false; true] |}
                      [["@alive"]; ["a"]; []; ["b"; "-x"]; ["c"]; ["@exit"]]))) eq_refl).
  - exact (proj2 (proj2 (batch_runs_commands_in_order
                           {| executed := []; run_failures := [] |}
                           [["@alive"]; ["ls"; "-l"]; []; ["@exit"]; ["never"]])) eq_refl).
Defined.

Lemma process_frames_exit (frames : list (list string)) : forall r,
  snd (process_frames r frames) = BatchExit ->
  exists rest, In ("@exit" :: rest) frames.
Proof.
  induction frames as [|frame more IH]; intros r H; [discriminate|].
  destruct frame as [|a0 args].
  - destruct (IH r H) as (rest & Hin). exists rest. right. exact Hin.
  - cbn [process_frames] in H.
    destruct (String.eqb_spec a0 "@exit") as [->|_].
    { exists args. left. reflexivity. }
    destruct (String.eqb a0 "@restart"); [discriminate|].
    destruct (String.eqb a0 "@alive").
    { destruct (IH r H) as (rest & Hin). exists rest. right. exact Hin. }
    destruct (Run r (a0 :: args)) as [r1 [e|]]; [discriminate|].
    destruct (IH r1 H) as (rest & Hin). exists rest. right. exact Hin.
Qed.

Lemma serve_clean_return (nonblocking unlock : bool) (ts : list turn) :
  forall tries r r',
  serve nonblocking unlock ts tries r = (r', SrvReturned None) ->
  unlock = false /\
  exists t rest, In t ts /\ In ("@exit" :: rest) (frames_of_turn t).
Proof.
  induction ts as [|t more IH]; intros tries r r' H; [discriminate|].
  cbn [serve] in H.
  assert (Hgo : match pipe_open t with
                | None => (r, SrvReturned (Some SrvOpen))
                | Some evs =>
                    match process_frames r (read_frames evs) with
                    | (r, BatchDone) => serve nonblocking unlock more tries r
                    | (r, BatchExit) =>
                        (r, SrvReturned (if unlock then Some SrvUnlock else None))
                    | (r, BatchRestart) =>
                        match server_acquire_lock nonblocking tries with
                        | SrvAcquired tries => serve nonblocking unlock more tries r
                        | SrvAcquireError e => (r, SrvReturned (Some e))
                        | SrvAcquireBlocked => (r, SrvBlocked)
                        end
                    | (r, BatchFailed) => (r, SrvReturned (Some SrvRun))
                    end
                end = (r', SrvReturned None)).
  { destruct (pipe_stat t) as [[]|]; try discriminate; exact H. }
  clear H. unfold frames_of_turn.
  destruct (pipe_open t) as [evs|] eqn:Eopen; [|discriminate].
  pose proof (process_frames_exit (read_frames evs) r) as Hexit.
  destruct (process_frames r (read_frames evs)) as [r1 [| | |]]; cbn [snd] in Hexit.
  - destruct (IH _ _ _ Hgo) as (Hu & t' & rest & Hin & Hfr).
    split; [exact Hu|]. exists t', rest. split; [right|]; assumption.
  - destruct unlock; [discriminate|]. split; [reflexivity|].
    destruct (Hexit eq_refl) as (rest & Hin). exists t, rest.
    split; [left; reflexivity|]. unfold frames_of_turn. rewrite Eopen. exact Hin.
  - destruct (server_acquire_lock nonblocking tries) as [tries'|e|]; try discriminate.
    destruct (IH _ _ _ Hgo) as (Hu & t' & rest & Hin & Hfr).
    split; [exact Hu|]. exists t', rest. split; [right|]; assumption.
  - discriminate.
Qed.

(** X3. The server returns without error only on an [@exit]: when
    [RunServer] returns nil, one of the frames it read starts with [@exit]
    and the unlocking succeeded. *)
Theorem server_returns_cleanly_only_on_exit (this : FIFOCommand) (env : server_env)
    (r : runner) :
  RunServer this env = (r, SrvReturned None) ->
  unlock_fails env = false /\
  exists t rest, In t (turns env) /\ In ("@exit" :: rest) (frames_of_turn t).
Proof.
  unfold RunServer.
  destruct (server_acquire_lock (ServerNonBlocking this) (lock_tries env))
    as [tries|e|]; try discriminate.
  apply serve_clean_return.
Qed.

(** The server that is sent [@alive], [ls -l], [@exit] and [never]. *)
Lemma server_returns_cleanly_only_on_exit_witness :
  exists t rest, In t (turns three_frames) /\ In ("@exit" :: rest) (frames_of_turn t).
Proof.
  apply (proj2 (server_returns_cleanly_only_on_exit
                  (NewFIFOCommand "/root/.cmd" EmptyString) three_frames
                  {| executed := [["ls"; "-l"]]; run_failures := [] |} eq_refl)).
Defined.

End CommandServer.

(** ** The [iexec] frame *)

Section IexecFrame.

Import Util Status Client Server Frames.

Lemma Clean_not_empty (p : string) : Clean p <> EmptyString.
Proof.
  unfold Clean. destruct (String.eqb p EmptyString); [discriminate|].
  match goal with |- context [String.eqb ?out EmptyString] =>
    destruct (String.eqb_spec out EmptyString) as [E|E]; [discriminate | exact E] end.
Qed.

Lemma Join_not_empty (a b : string) : b <> EmptyString -> Join a b <> EmptyString.
Proof.
  intros Hb. unfold Join. destruct (String.eqb a EmptyString).
  - destruct (String.eqb_spec b EmptyString); [contradiction | apply Clean_not_empty].
  - destruct (String.eqb b EmptyString); apply Clean_not_empty.
Qed.

Ltac step_ok :=
  match goal with
  | Hf : Forall (fun b => b = false) (failing ?f) |- context [Fprintf ?f ?t] =>
      let Hn := fresh "Hn" in
      let Hw := fresh "Hw" in
      pose proof (Fprintf_written f t) as Hw;
      pose proof (Fprintf_no_failure f t Hf) as Hn;
      destruct (Fprintf f t) as [? ?]; cbn [fst snd] in Hn, Hw;
      destruct Hn as [-> ?]; clear Hf
  end.

(** Without a failed write the header is written whole. *)
Lemma write_header_no_failure (callback : option FIFOCallback) (dir so se : string)
    (f : pipe) :
  Forall (fun b => b = false) (failing f) ->
  (so <> EmptyString <-> exists cb, callback = Some cb /\ ShouldStoreStandardOutput cb = true) ->
  (se <> EmptyString <-> exists cb, callback = Some cb /\ ShouldStoreStandardError cb = true) ->
  snd (write_header callback dir so se f) = None /\
  Forall (fun b => b = false) (failing (fst (write_header callback dir so se f))) /\
  written (fst (write_header callback dir so se f))
  = (written f ++ line "iexec" :: option_lines dir callback)%list.
Proof.
  intros Hf Hso Hse. unfold write_header, option_lines.
  destruct callback as [cb|].
  - assert (Eso : negb (String.eqb so EmptyString) = ShouldStoreStandardOutput cb).
    { destruct (String.eqb_spec so EmptyString) as [E|E]; simpl.
      - destruct (ShouldStoreStandardOutput cb) eqn:F; [|reflexivity].
        exfalso. apply (proj2 Hso); [eauto | exact E].
      - destruct (proj1 Hso E) as (cb' & Hcb & Hs). injection Hcb as <-. auto. }
    assert (Ese : negb (String.eqb se EmptyString) = ShouldStoreStandardError cb).
    { destruct (String.eqb_spec se EmptyString) as [E|E]; simpl.
      - destruct (ShouldStoreStandardError cb) eqn:F; [|reflexivity].
        exfalso. apply (proj2 Hse); [eauto | exact E].
      - destruct (proj1 Hse E) as (cb' & Hcb & Hs). injection Hcb as <-. auto. }
    rewrite Eso, Ese. do 3 step_ok.
    destruct (ShouldStoreStandardOutput cb); destruct (ShouldStoreStandardError cb);
      repeat step_ok; cbn [fst snd];
      (split; [reflexivity|]); (split; [assumption|]);
      repeat match goal with H : written _ = _ |- _ => rewrite H; clear H end;
      rewrite <- ?app_assoc; reflexivity.
  - step_ok. cbn [fst snd]. split; [reflexivity|]. split; [assumption|].
    rewrite Hw. reflexivity.
Qed.

Lemma write_frame_plain (env : client_env) (a0 : string) (rest : list string)
    (callback : option FIFOCallback) (dir so se : string) :
  is_control_verb a0 = false ->
  Forall (fun b => b = false) (write_failures env) ->
  (so <> EmptyString <-> exists cb, callback = Some cb /\ ShouldStoreStandardOutput cb = true) ->
  (se <> EmptyString <-> exists cb, callback = Some cb /\ ShouldStoreStandardError cb = true) ->
  frame (write_frame env (a0 :: rest) callback dir so se)
  = (line "iexec" :: option_lines dir callback ++ map line (a0 :: rest) ++ [sentinel])%list.
Proof.
  intros Hv Hf Hso Hse. unfold write_frame. rewrite Hv. cbn [negb].
  set (f0 := {| written := []; failing := write_failures env |}).
  destruct (write_header_no_failure callback dir so se f0 Hf Hso Hse) as (He & Hf1 & Hw1).
  destruct (write_header callback dir so se f0) as [f1 e]; cbn [fst snd] in He, Hf1, Hw1.
  subst e.
  destruct (write_args_no_failure (a0 :: rest) f1 Hf1) as [Hr Hw2].
  destruct (write_args f1 (a0 :: rest)) as [f2 r]; cbn [fst snd] in Hr, Hw2. subst r.
  pose proof (Fprintf_written f2 sentinel) as Hw3.
  destruct (Fprintf f2 sentinel) as [f3 e3]; cbn [fst] in Hw3.
  assert (Hframe : written f3
    = (line "iexec" :: option_lines dir callback ++ map line (a0 :: rest) ++ [sentinel])%list).
  { rewrite Hw3, Hw2, Hw1. cbn [written f0 app]. rewrite <- app_assoc. reflexivity. }
  destruct callback as [cb|]; [|exact Hframe].
  destruct (ShouldBlockUntilTerminated cb); [|exact Hframe].
  destruct (WaitUntilDone _ _ _); exact Hframe.
Qed.

(** The frame of a call that is not a control verb. *)
Lemma call_frame_plain (this : FIFOCommand) (env : client_env)
    (callback : option FIFOCallback) (a0 : string) (rest : list string) :
  is_control_verb a0 = false ->
  pre_lock_ok this env callback = true ->
  acquire (ClientNonBlocking this) (attempts env) = Acquired ->
  Forall (fun b => b = false) (write_failures env) ->
  frame (ExecuteDaemonOnServerWithCallback (Some this) env (a0 :: rest) callback)
  = (line "iexec"
     :: option_lines (match TempDir_suffix env with
                      | Some suffix => server_dir this suffix
                      | None => EmptyString
                      end) callback
     ++ map line (a0 :: rest) ++ [sentinel])%list.
Proof.
  intros Hv Hpre Hacq Hf. unfold pre_lock_ok in Hpre.
  apply andb_true_iff in Hpre as [Hpre Hfifo]. apply andb_true_iff in Hpre as [Hcb Hex].
  unfold ExecuteDaemonOnServerWithCallback.
  destruct callback as [cb|].
  - destruct (TempDir_suffix env) as [suffix|]; [|discriminate].
    rewrite Hcb, Hex, Hfifo, Hacq. cbn [negb].
    apply write_frame_plain; [exact Hv | exact Hf | |].
    + destruct (ShouldStoreStandardOutput cb) eqn:E; split.
      * intros _. exists cb. auto.
      * intros _. apply Join_not_empty. discriminate.
      * intros H. contradiction.
      * intros (cb' & Hc & Hs). injection Hc as <-. congruence.
    + destruct (ShouldStoreStandardError cb) eqn:E; split.
      * intros _. exists cb. auto.
      * intros _. apply Join_not_empty. discriminate.
      * intros H. contradiction.
      * intros (cb' & Hc & Hs). injection Hc as <-. congruence.
  - rewrite Hex, Hfifo, Hacq. cbn [negb].
    rewrite (write_frame_plain env a0 rest None EmptyString EmptyString EmptyString Hv Hf).
    + destruct (TempDir_suffix env); reflexivity.
    + split; [intros H; contradiction | intros (cb & Hc & _); discriminate].
    + split; [intros H; contradiction | intros (cb & Hc & _); discriminate].
Qed.

(** X4. The frame of a command that is not a control verb, when the lock
    is acquired and no write fails: the line [iexec]; with a callback the
    option lines [-s] and the status pipe, [-o] and [-e] with the capture
    files the callback asks for, each as a path under [/tmp] in the
    container, and the separator [--]; then the tokens of the command, one
    per line; then the sentinel. Without a callback there is no option
    line and no separator. *)
Theorem iexec_frame (this : FIFOCommand) (env : client_env)
    (callback : option FIFOCallback) (a0 : string) (rest : list string) :
  is_control_verb a0 = false ->
  pre_lock_ok this env callback = true ->
  acquire (ClientNonBlocking this) (attempts env) = Acquired ->
  Forall (fun b => b = false) (write_failures env) ->
  frame (ExecuteDaemonOnServerWithCallback (Some this) env (a0 :: rest) callback)
  = (line "iexec"
     :: option_lines (match TempDir_suffix env with
                      | Some suffix => server_dir this suffix
                      | None => EmptyString
                      end) callback
     ++ map line (a0 :: rest) ++ [sentinel])%list /\
  (callback = None ->
   frame (ExecuteDaemonOnServerWithCallback (Some this) env (a0 :: rest) callback)
   = (line "iexec" :: map line (a0 :: rest) ++ [sentinel])%list).
Proof.
  intros Hv Hpre Hacq Hf.
  pose proof (call_frame_plain this env callback a0 rest Hv Hpre Hacq Hf) as H.
  split; [exact H|]. intros ->. exact H.
Qed.

(** The frame of [/bin/echo hello] with a callback that captures the
    standard output only. *)
Lemma iexec_frame_witness :
  frame (ExecuteDaemonOnServerWithCallback (Some (sample_command false))
           (quiet_env "/root/.cmd" (env_of [])) ["/bin/echo"; "hello"]
           (Some (NewSimpleFIFOCallback false true false)))
  = [line "iexec"; line "-s"; line "/tmp/iexec7/status"; line "-o";
     line "/tmp/iexec7/stdout"; line "--"; line "/bin/echo"; line "hello"; sentinel].
Proof.
  apply (proj1 (iexec_frame (sample_command false) (quiet_env "/root/.cmd" (env_of []))
                  (Some (NewSimpleFIFOCallback false true false)) "/bin/echo" ["hello"]
                  eq_refl eq_refl eq_refl (List.Forall_nil _))).
Defined.

(** X5. Before the lock is tried the client gives up, with nothing written,
    no handler called and no goroutine started: with the error of the
    temporary directory or of the status pipe when a callback is given and
    they cannot be made; otherwise with the no-such-file error when the
    path of the command pipe does not exist, and with the not-a-FIFO error
    when it exists and is no FIFO. *)
Theorem client_stops_before_lock (this : FIFOCommand) (env : client_env)
    (args : list string) (callback : option FIFOCallback) :
  let r := ExecuteDaemonOnServerWithCallback (Some this) env args callback in
  (callback <> None -> TempDir_suffix env = None ->
   r = stop (Returned (Some ErrTempDir))) /\
  (callback <> None -> TempDir_suffix env <> None -> MkFIFO_ok env = false ->
   r = stop (Returned (Some ErrMkFIFO))) /\
  (setup_ok env callback = true -> FileExists (fs env) (Filename this) = false ->
   r = stop (Returned (Some ErrNoSuchFile))) /\
  (setup_ok env callback = true -> FileExists (fs env) (Filename this) = true ->
   IsFIFO (fs env) (Filename this) = false ->
   r = stop (Returned (Some ErrNotAFifo))).
Proof.
  intros r. subst r. unfold ExecuteDaemonOnServerWithCallback, setup_ok.
  repeat split.
  - intros Hcb Ht. destruct callback; [|contradiction]. rewrite Ht. reflexivity.
  - intros Hcb Ht Hm. destruct callback; [|contradiction].
    destruct (TempDir_suffix env); [|contradiction]. rewrite Hm. reflexivity.
  - intros Hs Hex. destruct callback.
    + destruct (TempDir_suffix env); [|discriminate]. rewrite Hs, Hex. reflexivity.
    + rewrite Hex. reflexivity.
  - intros Hs Hex Hfifo. destruct callback.
    + destruct (TempDir_suffix env); [|discriminate]. rewrite Hs, Hex, Hfifo. reflexivity.
    + rewrite Hex, Hfifo. reflexivity.
Qed.

(** A regular file at the path of the command pipe. *)
Lemma client_stops_before_lock_witness :
  ExecuteDaemonOnServerWithCallback (Some (sample_command false)) regular_file_env
    ["ls"] (Some (NewSimpleFIFOCallback true true true))
  = stop (Returned (Some ErrNotAFifo)).
Proof.
  apply (proj2 (proj2 (proj2 (client_stops_before_lock (sample_command false)
           regular_file_env ["ls"] (Some (NewSimpleFIFOCallback true true true))))));
    reflexivity.
Defined.

Lemma option_lines_tokens (dir : string) (callback : option FIFOCallback) :
  option_lines dir callback = map line (option_tokens dir callback).
Proof.
  destruct callback as [cb|]; [|reflexivity]. unfold option_lines, option_tokens.
  destruct (ShouldStoreStandardOutput cb); destruct (ShouldStoreStandardError cb);
    reflexivity.
Qed.

(** X6. What the client sends is what the server runs. When a command that
    is not a control verb is written without failure and its tokens (and
    the paths of the header) hold no line feed, end in no carriage return
    and are not the sentinel, the server reads back one frame, [iexec]
    followed by the options and the tokens of the command, and that frame
    is the one command of the batch. *)
Theorem server_runs_what_client_sends (this : FIFOCommand) (env : client_env)
    (callback : option FIFOCallback) (a0 : string) (rest : list string)
    (evs : list read_event) :
  is_control_verb a0 = false ->
  pre_lock_ok this env callback = true ->
  acquire (ClientNonBlocking this) (attempts env) = Acquired ->
  Forall (fun b => b = false) (write_failures env) ->
  let dir := match TempDir_suffix env with
             | Some suffix => server_dir this suffix
             | None => EmptyString
             end in
  Forall plain_token (option_tokens dir callback ++ a0 :: rest) ->
  assemble EmptyString evs
  = lines_of_bytes (bytes_of (frame (ExecuteDaemonOnServerWithCallback (Some this) env
                                       (a0 :: rest) callback))) ->
  read_frames evs = [("iexec" :: option_tokens dir callback ++ a0 :: rest)%list; []] /\
  commands_of (read_frames evs)
  = [("iexec" :: option_tokens dir callback ++ a0 :: rest)%list].
Proof.
  intros Hv Hpre Hacq Hf dir Hplain Hevs.
  rewrite (call_frame_plain this env callback a0 rest Hv Hpre Hacq Hf) in Hevs.
  fold dir in Hevs. rewrite option_lines_tokens in Hevs.
  assert (Hread : read_frames evs
                  = [("iexec" :: option_tokens dir callback ++ a0 :: rest)%list; []]).
  { apply read_frames_of_lines.
    - constructor; [repeat split; discriminate | exact Hplain].
    - rewrite Hevs. f_equal. f_equal.
      cbn [map app]. rewrite !map_app. cbn [map]. rewrite <- app_assoc. reflexivity. }
  split; [exact Hread|]. rewrite Hread. reflexivity.
Qed.

(** The command [ls -l] sent without callback, [-l] read in two pieces. *)
Lemma server_runs_what_client_sends_witness :
  commands_of (read_frames [complete "iexec"; complete "ls"; ReadLine_ok "-" true;
                            complete "l"; complete sentinel_token])
  = [["iexec"; "ls"; "-l"]].
Proof.
  apply (proj2 (server_runs_what_client_sends (sample_command false)
                  (quiet_env "/root/.cmd" (env_of [])) None "ls" ["-l"]
                  [complete "iexec"; complete "ls"; ReadLine_ok "-" true;
                   complete "l"; complete sentinel_token]
                  eq_refl eq_refl eq_refl (List.Forall_nil _)
                  ltac:(repeat constructor; discriminate)
                  ltac:(vm_compute; reflexivity))).
Defined.

Lemma call_frame_control (this : FIFOCommand) (env : client_env)
    (callback : option FIFOCallback) (a0 : string) (rest : list string) :
  is_control_verb a0 = true ->
  pre_lock_ok this env callback = true ->
  acquire (ClientNonBlocking this) (attempts env) = Acquired ->
  Forall (fun b => b = false) (write_failures env) ->
  frame (ExecuteDaemonOnServerWithCallback (Some this) env (a0 :: rest) callback)
  = map line ((a0 :: rest) ++ [sentinel_token]).
Proof.
  intros Hv Hpre Hacq Hf.
  destruct (call_reaches_write_frame this env (a0 :: rest) callback Hpre Hacq)
    as (sd & so & se & ->).
  rewrite (write_frame_control env a0 rest callback sd so se Hv).
  set (f0 := {| written := []; failing := write_failures env |}).
  destruct (write_args_no_failure (a0 :: rest) f0 Hf) as [Hr Hw].
  destruct (write_args f0 (a0 :: rest)) as [f r]; cbn [fst snd] in Hr, Hw. subst r.
  rewrite Hw, map_app. reflexivity.
Qed.

(** X7. A control verb at the server. When the client has written a frame
    that starts with [@exit], [@restart] or [@alive] without failure, the
    server reads it back as one frame and runs no command for it: on
    [@alive] it goes on with the next frames, on [@exit] and [@restart] it
    leaves the batch. *)
Theorem control_verb_runs_nothing (this : FIFOCommand) (env : client_env)
    (callback : option FIFOCallback) (a0 : string) (rest : list string)
    (evs : list read_event) (r0 : runner) :
  is_control_verb a0 = true ->
  pre_lock_ok this env callback = true ->
  acquire (ClientNonBlocking this) (attempts env) = Acquired ->
  Forall (fun b => b = false) (write_failures env) ->
  Forall plain_token (a0 :: rest) ->
  assemble EmptyString evs
  = lines_of_bytes (bytes_of (frame (ExecuteDaemonOnServerWithCallback (Some this) env
                                       (a0 :: rest) callback))) ->
  read_frames evs = [a0 :: rest; []] /\
  process_frames r0 (read_frames evs)
  = (r0, if String.eqb a0 "@exit" then BatchExit
         else if String.eqb a0 "@restart" then BatchRestart
         else BatchDone).
Proof.
  intros Hv Hpre Hacq Hf Hplain Hevs.
  rewrite (call_frame_control this env callback a0 rest Hv Hpre Hacq Hf) in Hevs.
  pose proof (read_frames_of_lines (a0 :: rest) evs Hplain Hevs) as Hread.
  split; [exact Hread|]. rewrite Hread. cbn [process_frames].
  unfold is_control_verb in Hv.
  destruct (String.eqb a0 "@exit"); [reflexivity|].
  destruct (String.eqb a0 "@restart"); [reflexivity|].
  cbn [orb] in Hv. rewrite Hv. reflexivity.
Qed.

(** [@alive] sent by [WaitUntilServerIsAlive]. *)
Lemma control_verb_runs_nothing_witness :
  process_frames {| executed := []; run_failures := [] |}
    (read_frames [complete "@alive"; complete sentinel_token])
  = ({| executed := []; run_failures := [] |}, BatchDone).
Proof.
  apply (proj2 (control_verb_runs_nothing (sample_command false)
                  (quiet_env "/root/.cmd" (env_of [])) None "@alive" []
                  [complete "@alive"; complete sentinel_token]
                  {| executed := []; run_failures := [] |}
                  eq_refl eq_refl eq_refl (List.Forall_nil _)
                  ltac:(repeat constructor; discriminate)
                  ltac:(vm_compute; reflexivity))).
Defined.

End IexecFrame.

(** ** The records of the status pipe *)

Section StatusDecoding.

Import Status StatusRecords.

Lemma handle_line_kill (st : reader_state) (n : Z) :
  - 2 ^ 63 <= n < 2 ^ 63 ->
  handle_line st ("kill " +:+ FormatInt n) = append_signal (set_terminated st) n.
Proof.
  intros Hn. unfold handle_line. rewrite (HasPrefix_self "kill " (FormatInt n)).
  change ("kill " +:+ FormatInt n) with ("kill" +:+ String " " (FormatInt n)).
  rewrite (code_of_formatted "kill" n eq_refl Hn). reflexivity.
Qed.

Lemma handle_line_pid (st : reader_state) (n : Z) :
  - 2 ^ 63 <= n < 2 ^ 63 ->
  handle_line st ("pid " +:+ FormatInt n) = set_pid (set_terminated st) n.
Proof.
  intros Hn. unfold handle_line.
  pose proof (HasPrefix_self "pid " (FormatInt n)) as Hp.
  rewrite (HasPrefix_disjoint _ "k" _ "ill " _ Hp) by discriminate.
  rewrite (HasPrefix_disjoint _ "e" _ "xit " _ Hp) by discriminate. rewrite Hp.
  change ("pid " +:+ FormatInt n) with ("pid" +:+ String " " (FormatInt n)).
  rewrite (code_of_formatted "pid" n eq_refl Hn). reflexivity.
Qed.

(** What one record does to the variables of the reader. *)
Lemma handle_record (st : reader_state) (rec : status_record) :
  in_range rec ->
  handle_line st (record_line rec)
  = match rec with
    | RecKill n => append_signal (set_terminated st) n
    | RecExit n => set_exit_code (set_terminated st) n
    | RecPid n => set_pid (set_terminated st) n
    | RecStop n | RecCont n => append_signal st n
    end.
Proof.
  unfold in_range. destruct rec as [n|n|n|n|n]; cbn [record_value record_line]; intros Hn.
  - apply handle_line_kill, Hn.
  - apply handle_line_exit, Hn.
  - apply handle_line_pid, Hn.
  - apply (handle_line_signal_formatted st "stop" n); [left; reflexivity | exact Hn].
  - apply (handle_line_signal_formatted st "cont" n); [right; reflexivity | exact Hn].
Qed.

Lemma fold_records (recs : list status_record) : forall st,
  Forall in_range recs ->
  let st' := fold_left handle_line (map record_line recs) st in
  signal_codes st' = (signal_codes st ++ signals_of recs)%list /\
  exit_code st' = exit_of (exit_code st) recs /\
  pid st' = pid_of (pid st) recs.
Proof.
  induction recs as [|rec rest IH]; intros st Hr; cbn zeta.
  - simpl. rewrite app_nil_r. auto.
  - inversion Hr as [|? ? Hrec Hrest]; subst. cbn [map fold_left].
    rewrite (handle_record st rec Hrec).
    destruct (IH (match rec with
                  | RecKill n => append_signal (set_terminated st) n
                  | RecExit n => set_exit_code (set_terminated st) n
                  | RecPid n => set_pid (set_terminated st) n
                  | RecStop n | RecCont n => append_signal st n
                  end) Hrest) as (Hs & He & Hp).
    rewrite Hs, He, Hp.
    destruct rec; cbn [signals_of flat_map exit_of pid_of signal_codes exit_code pid
                       append_signal set_terminated set_exit_code set_pid app];
      rewrite <- ?app_assoc; auto.
Qed.

(** X8. The reader decodes the records of the status pipe. When the lines
    it reads, up to the end of file of the open that delivered a terminal
    record, are the records [recs], the result handed to the callback
    holds the signals of the kill, stop and cont records in the order they
    were read, the code of the last exit record (-1 without one) and the
    process id of the last pid record (0 without one). *)
Theorem reader_decodes_records (env : status_env) (stdout_fn stderr_fn : string)
    (e : option error) (result : FIFOCommandResult) (recs : list status_record) :
  forallb clean_open (status_opens env) = true ->
  consumed (status_opens env) = map record_line recs ->
  Forall in_range recs ->
  WaitUntilDone env stdout_fn stderr_fn = WaitReturned e (Some result) ->
  SignalCodes result = signals_of recs /\
  ExitCode result = exit_of (-1) recs /\
  Pid result = pid_of 0 recs.
Proof.
  intros Hc Hlines Hr Hw.
  destruct (WaitUntilDone_result _ _ _ _ _ Hw) as (st & Hloop & _ & Hsig & Hexit & Hpid).
  pose proof (status_loop_clean _ initial_state Hc eq_refl) as Hl.
  rewrite Hloop, Hlines in Hl.
  assert (Hst : st = fold_left handle_line (map record_line recs) initial_state).
  { destruct (existsb is_terminal_line (map record_line recs)); congruence. }
  destruct (fold_records recs initial_state Hr) as (Hs & He & Hp).
  rewrite Hsig, Hexit, Hpid, Hst. auto.
Qed.

(** Stop, cont, pid, stop and kill. *)
Lemma reader_decodes_records_witness :
  exists e result,
    WaitUntilDone (env_of stop_cont_kill) EmptyString EmptyString
    = WaitReturned e (Some result) /\
    SignalCodes result = [19; 18; 19; 9] /\ ExitCode result = -1 /\ Pid result = 4321.
Proof.
  eexists. eexists. split; [reflexivity|].
  eapply (reader_decodes_records (env_of stop_cont_kill) EmptyString EmptyString)
    with (recs := [RecStop 19; RecCont 18; RecPid 4321; RecStop 19; RecKill 9]);
    [reflexivity | reflexivity | | reflexivity].
  repeat constructor; unfold in_range; simpl; lia.
Defined.

Lemma err_not_other_prefix (l : string) :
  is_err_line l = true ->
  HasPrefix l "kill " = false /\ HasPrefix l "exit " = false /\
  HasPrefix l "pid " = false /\ is_signal_line l = false.
Proof.
  unfold is_err_line, is_signal_line. intros H.
  rewrite (HasPrefix_disjoint _ "k" _ "ill " _ H) by discriminate.
  rewrite (HasPrefix_disjoint _ "p" _ "id " _ H) by discriminate.
  rewrite (HasPrefix_disjoint _ "s" _ "top " _ H) by discriminate.
  rewrite (HasPrefix_disjoint _ "c" _ "ont " _ H) by discriminate.
  repeat split; try reflexivity.
  apply HasPrefix_cons in H as (r & -> & Hr). apply HasPrefix_cons in Hr as (r' & -> & _).
  reflexivity.
Qed.

Lemma handle_line_err_occurred (st : reader_state) (l : string) :
  err_occurred (handle_line st l) = err_occurred st || is_err_line l.
Proof.
  destruct (is_err_line l) eqn:E.
  - destruct (err_not_other_prefix l E) as (Hk & Hx & Hp & Hs).
    unfold is_signal_line in Hs. unfold is_err_line in E.
    unfold handle_line. rewrite Hk, Hx, Hp, Hs, E. simpl. apply eq_sym, orb_true_r.
  - unfold is_err_line in E. unfold handle_line. rewrite E, orb_false_r.
    destruct (HasPrefix l "kill "); [destruct (code_of l); reflexivity|].
    destruct (HasPrefix l "exit "); [destruct (code_of l); reflexivity|].
    destruct (HasPrefix l "pid "); [destruct (code_of l); reflexivity|].
    destruct (HasPrefix l "stop " || HasPrefix l "cont "); [destruct (code_of l)|];
      reflexivity.
Qed.

Lemma err_occurred_fold (ls : list string) : forall st,
  err_occurred (fold_left handle_line ls st) = err_occurred st || existsb is_err_line ls.
Proof.
  induction ls as [|l r IH]; intros st; simpl; [rewrite orb_false_r; reflexivity|].
  rewrite IH, handle_line_err_occurred, orb_assoc. reflexivity.
Qed.

(** X9. An error record takes precedence. On a stream without I/O failure
    in which the status pipe exists, when one of the lines read up to the
    end of file of the open that delivered a terminal record starts with
    [err], [WaitUntilDone] returns the status error and does not call the
    completion handler, whatever exit or kill record was read with it;
    when a terminal record was read and no line starts with [err], the
    handler is called and the result of the last clean-up is returned. *)
Theorem err_record_wins (env : status_env) (stdout_fn stderr_fn : string) :
  status_exists env = true -> status_is_fifo env = true ->
  forallb clean_open (status_opens env) = true ->
  let lines := consumed (status_opens env) in
  (existsb is_err_line lines = true ->
   WaitUntilDone env stdout_fn stderr_fn = WaitReturned (Some ErrStatus) None) /\
  (existsb is_terminal_line lines = true -> existsb is_err_line lines = false ->
   exists result,
     WaitUntilDone env stdout_fn stderr_fn
     = WaitReturned (if last_remove_fails env then Some ErrRemove else None)
         (Some result)).
Proof.
  intros Hex Hfifo Hc lines.
  pose proof (status_loop_clean _ initial_state Hc eq_refl) as Hl. fold lines in Hl.
  pose proof (err_occurred_fold lines initial_state) as Herr. cbn [err_occurred initial_state orb] in Herr.
  assert (Hterm : forall l, is_err_line l = true -> is_terminal_line l = true).
  { intros l H. unfold is_terminal_line. unfold is_err_line in H. rewrite H.
    rewrite !orb_true_r. reflexivity. }
  unfold WaitUntilDone. rewrite Hex, Hfifo. cbn [negb]. split.
  - intros He.
    assert (Ht : existsb is_terminal_line lines = true).
    { apply existsb_exists in He as (l & Hin & Hl'). apply existsb_exists.
      exists l. auto. }
    rewrite Hl, Ht, Herr, He. reflexivity.
  - intros Ht He. rewrite Hl, Ht, Herr, He. eauto.
Qed.

(** An exit record and an error record in one open. *)
Lemma err_record_wins_witness :
  WaitUntilDone (env_of exit_then_err) EmptyString EmptyString
  = WaitReturned (Some ErrStatus) None.
Proof.
  apply (proj1 (err_record_wins (env_of exit_then_err) EmptyString EmptyString
                  eq_refl eq_refl eq_refl)).
  reflexivity.
Defined.

End StatusDecoding.

(** ** The end of the status reader *)

Section StatusReaderEnd.

Import Status StatusRecords.

(** The lines read when the open [o] is the first one that holds a terminal
    line: every line of the opens before it and every line of [o]. *)
Lemma consumed_split (before after : list open_result) (o : open_result) :
  existsb is_terminal_line (flat_map lines_of before) = false ->
  existsb is_terminal_line (lines_of o) = true ->
  consumed (before ++ o :: after) = (flat_map lines_of before ++ lines_of o)%list.
Proof.
  induction before as [|b rest IH]; intros Hb Ho.
  - cbn [app consumed flat_map]. rewrite Ho. reflexivity.
  - cbn [flat_map] in Hb. rewrite existsb_app in Hb.
    apply orb_false_iff in Hb as [Hb1 Hb2].
    cbn [app consumed flat_map]. rewrite Hb1, (IH Hb2 Ho), app_assoc. reflexivity.
Qed.

(** Unknown lines leave the variables of the reader as they are: the lines
    do what their records alone do. *)
Lemma fold_status_lines (ls : list status_line) : forall st,
  Forall well_formed ls ->
  fold_left handle_line (map line_text ls) st
  = fold_left handle_line (map record_line (records_of ls)) st /\
  Forall in_range (records_of ls).
Proof.
  induction ls as [|l rest IH]; intros st Hwf.
  - split; [reflexivity | constructor].
  - inversion Hwf as [|? ? Hl Hrest]; subst. destruct l as [rec|text].
    + cbn [map fold_left line_text records_of flat_map app].
      destruct (IH (handle_line st (record_line rec)) Hrest) as [Hf Hr].
      split; [exact Hf | constructor; [exact Hl | exact Hr]].
    + cbn [map fold_left line_text records_of flat_map app].
      destruct Hl as [Ht Hs]. rewrite (handle_line_ignored st text Ht Hs).
      exact (IH st Hrest).
Qed.

Lemma record_line_not_err (rec : status_record) : is_err_line (record_line rec) = false.
Proof.
  destruct (is_err_line (record_line rec)) eqn:E; [|reflexivity].
  destruct (err_not_other_prefix _ E) as (Hk & Hx & Hp & Hs).
  unfold is_signal_line in Hs. apply orb_false_iff in Hs as [Hst Hc].
  destruct rec as [n|n|n|n|n]; cbn [record_line] in *.
  - rewrite HasPrefix_self in Hk. discriminate.
  - rewrite HasPrefix_self in Hx. discriminate.
  - rewrite HasPrefix_self in Hp. discriminate.
  - rewrite HasPrefix_self in Hst. discriminate.
  - rewrite HasPrefix_self in Hc. discriminate.
Qed.

Lemma status_lines_no_err (ls : list status_line) :
  Forall well_formed ls -> existsb is_err_line (map line_text ls) = false.
Proof.
  induction 1 as [|l rest Hl Hrest IH]; [reflexivity|].
  cbn [map existsb]. rewrite IH, orb_false_r. destruct l as [rec|text].
  - apply record_line_not_err.
  - destruct Hl as [Ht _]. unfold is_terminal_line in Ht.
    apply orb_false_iff in Ht as [_ Ht]. exact Ht.
Qed.

(** C1, as stated, fails. The reader does not terminate when it reads a
    terminal line: it reads the open that delivered the line to its end of
    file. On an open that delivers [exit 0], [stop 5] and [exit 9] the
    result handed to the callback has the signal 5 and the exit code 9; a
    reader that terminated on reading [exit 0] would hand over what the
    open cut after that line gives, no signal and the exit code 0. *)
Lemma status_reader_reads_to_end_of_file :
  is_terminal_line "exit 0" = true /\
  WaitUntilDone (env_of exit_stop_exit) EmptyString EmptyString
  = WaitReturned None
      (Some {| Out := EmptyString; Err := EmptyString; SignalCodes := [5];
               ExitCode := 9; Pid := 0 |}) /\
  WaitUntilDone (env_of exit_alone) EmptyString EmptyString
  = WaitReturned None
      (Some {| Out := EmptyString; Err := EmptyString; SignalCodes := [];
               ExitCode := 0; Pid := 0 |}).
Proof. repeat split; vm_compute; reflexivity. Qed.

(** C1, amended. A line is what [ReadLine] returns with [isPrefix] false
    (of a line longer than the buffer of the reader, the last piece), and
    an open that succeeds delivers its lines and then the end of file.
    When the status pipe exists and is a FIFO, the completion handler is
    called only after a line that starts with [kill ], [exit ], [pid ] or
    [err] was read. On a stream without I/O failure [WaitUntilDone] returns
    if and only if some open delivers such a line, and it waits for a
    further open for ever otherwise, whatever [stop ], [cont ] and other
    lines it reads. It does not terminate at that line: it reads every open
    before the first one that holds such a line and that open to its end of
    file, and opens the pipe no more. When the lines read up to there are
    records with 64-bit integers and lines with none of the six prefixes,
    the handler is called, and the result is what the records alone give:
    its signal codes are the integers of the [kill], [stop] and [cont]
    records in the order read, so that a [stop N] or [cont N] line appends
    [N], and a line with another prefix changes nothing. *)
Theorem status_reader_terminal_set (env : status_env) (stdout_fn stderr_fn : string) :
  status_exists env = true -> status_is_fifo env = true ->
  let opens := status_opens env in
  let terminal_line_read :=
    exists evs l, In (Open_ok evs) opens /\ In (complete l) evs /\
                  is_terminal_line l = true in
  (forall e result,
     WaitUntilDone env stdout_fn stderr_fn = WaitReturned e (Some result) ->
     terminal_line_read) /\
  (forallb clean_open opens = true ->
   ((exists e h, WaitUntilDone env stdout_fn stderr_fn = WaitReturned e h)
    <-> terminal_line_read) /\
   (WaitUntilDone env stdout_fn stderr_fn = WaitBlocked <-> ~ terminal_line_read) /\
   (forall before o after ls,
      opens = (before ++ o :: after)%list ->
      existsb is_terminal_line (flat_map lines_of before) = false ->
      existsb is_terminal_line (lines_of o) = true ->
      (flat_map lines_of before ++ lines_of o)%list = map line_text ls ->
      Forall well_formed ls ->
      exists result,
        WaitUntilDone env stdout_fn stderr_fn
        = WaitReturned (if last_remove_fails env then Some ErrRemove else None)
            (Some result) /\
        SignalCodes result = signals_of (records_of ls) /\
        ExitCode result = exit_of (-1) (records_of ls) /\
        Pid result = pid_of 0 (records_of ls))).
Proof.
  intros Hex Hfifo opens terminal_line_read. split.
  { intros e result Hw.
    destruct (WaitUntilDone_result _ _ _ _ _ Hw) as (st & Hloop & _).
    exact (status_loop_done_terminal _ initial_state st eq_refl Hloop). }
  intros Hc. pose proof (status_loop_clean opens initial_state Hc eq_refl) as Hl.
  pose proof (consumed_terminal opens) as Hterm.
  fold terminal_line_read in Hterm.
  assert (Hw : WaitUntilDone env stdout_fn stderr_fn
               = match status_loop initial_state opens with
                 | LoopError e => WaitReturned (Some e) None
                 | LoopBlocked _ => WaitBlocked
                 | LoopDone st =>
                     if err_occurred st then WaitReturned (Some ErrStatus) None
                     else WaitReturned
                            (if last_remove_fails env then Some ErrRemove else None)
                            (Some {| Out := read_capture env stdout_fn;
                                     Err := read_capture env stderr_fn;
                                     SignalCodes := signal_codes st;
                                     ExitCode := exit_code st; Pid := pid st |})
                 end).
  { unfold WaitUntilDone. rewrite Hex, Hfifo. reflexivity. }
  rewrite Hw, Hl. split; [|split].
  - rewrite <- Hterm. destruct (existsb is_terminal_line (consumed opens)).
    + split; [reflexivity|]. intros _.
      destruct (err_occurred _); eauto.
    + split; [intros (e & h & H); discriminate H | discriminate].
  - rewrite <- Hterm. destruct (existsb is_terminal_line (consumed opens)).
    + split; [|intros H; exfalso; apply H; reflexivity].
      destruct (err_occurred _); discriminate.
    + split; [intros _; discriminate | reflexivity].
  - intros before o after ls Hopens Hb Ho Hlines Hwf.
    rewrite Hopens, (consumed_split before after o Hb Ho), Hlines.
    assert (Ht : existsb is_terminal_line (map line_text ls) = true).
    { rewrite <- Hlines, existsb_app, Ho. apply orb_true_r. }
    rewrite Ht.
    pose proof (err_occurred_fold (map line_text ls) initial_state) as Herr.
    rewrite (status_lines_no_err ls Hwf) in Herr. cbn [err_occurred initial_state orb] in Herr.
    rewrite Herr.
    destruct (fold_status_lines ls initial_state Hwf) as [Hfold Hrange].
    destruct (fold_records (records_of ls) initial_state Hrange) as (Hs & He & Hp).
    rewrite <- Hfold in Hs, He, Hp.
    eexists. split; [reflexivity|]. cbn [SignalCodes ExitCode Pid].
    rewrite Hs, He, Hp. auto.
Qed.

(** Three opens: the reader goes through the stop record and the unknown
    line of the first, reads the second, with the cont record after its
    exit record, to the end, and never opens the third. *)
Lemma status_reader_terminal_set_witness :
  exists result,
    WaitUntilDone (env_of three_opens) EmptyString EmptyString
    = WaitReturned None (Some result) /\
    SignalCodes result = [19; 18] /\ ExitCode result = 7 /\ Pid result = 0.
Proof.
  assert (Hwf : Forall well_formed
                  [Rec (RecStop 19); Unknown "hello"; Rec (RecExit 7); Rec (RecCont 18)]).
  { repeat constructor; unfold in_range; simpl; lia. }
  exact (proj2 (proj2 (proj2 (status_reader_terminal_set (env_of three_opens)
                                 EmptyString EmptyString eq_refl eq_refl) eq_refl))
           [Open_ok [complete "stop 19"; complete "hello"]]
           (Open_ok [complete "exit 7"; complete "cont 18"])
           [Open_ok [complete "kill 9"]]
           [Rec (RecStop 19); Unknown "hello"; Rec (RecExit 7); Rec (RecCont 18)]
           eq_refl eq_refl eq_refl eq_refl Hwf).
Defined.

End StatusReaderEnd.

(** ** The pipe helpers *)

Section PipeHelpers.

Import Util Client Pipes.

(** X10. [FlushFIFO] flushes nothing: its loop runs while the error is not
    nil and the error starts as nil, so that whenever the open succeeds it
    returns nil without a single read, whatever the pipe holds; when the
    open fails it returns that error. *)
Theorem FlushFIFO_reads_nothing (env : flush_env) :
  FlushFIFO env = Some (if flush_open_ok env then None else Some IoOpen, 0%nat).
Proof.
  unfold FlushFIFO. destruct (flush_open_ok env); [|reflexivity].
  destruct (flush_reads env); reflexivity.
Qed.

(** X11. The probes agree with each other: a path exists exactly when it
    is a directory or a non-directory, never both; a FIFO is a
    non-directory; and [FIFOCommand.Exists] holds exactly when the path of
    the command pipe is a FIFO, so that it implies
    [FIFOCommand.FileExists]. *)
Theorem probes_agree (this : FIFOCommand) (fs : gmap string file_kind) (p : string) :
  Util.FileExists fs p = DirExists fs p || NonDirExists fs p /\
  DirExists fs p && NonDirExists fs p = false /\
  (IsFIFO fs p = true -> NonDirExists fs p = true) /\
  Exists this fs = IsFIFO fs (Filename this) /\
  (Exists this fs = true -> FileExists this fs = true) /\
  (Exists this fs = true <-> fs !! Filename this = Some KFifo).
Proof.
  unfold Exists, FileExists, Util.FileExists, DirExists, NonDirExists, IsFIFO.
  destruct (fs !! p) as [[]|]; destruct (fs !! Filename this) as [[]|];
    repeat split; try reflexivity; try discriminate; intros; congruence.
Qed.

(** A command pipe that is a FIFO. *)
Lemma probes_agree_witness :
  NonDirExists {[ "/root/.cmd" := KFifo ]} "/root/.cmd" = true /\
  FileExists (sample_command false) {[ "/root/.cmd" := KFifo ]} = true.
Proof.
  split.
  - apply (proj1 (proj2 (proj2 (probes_agree (sample_command false)
             {[ "/root/.cmd" := KFifo ]} "/root/.cmd")))). reflexivity.
  - apply (proj1 (proj2 (proj2 (proj2 (proj2 (probes_agree (sample_command false)
             {[ "/root/.cmd" := KFifo ]} "/root/.cmd")))))). reflexivity.
Defined.

End PipeHelpers.

(** ** The default configuration *)

Section DefaultConfiguration.

Import Cgroups DefaultConfig Limits.

Lemma default_dom (container_name rootfs fstab : string) :
  dom (GetDefaultCgroupInfo container_name rootfs fstab)
  = list_to_set (C:=gset string) default_keys.
Proof. unfold GetDefaultCgroupInfo. rewrite dom_list_to_map_L. reflexivity. Qed.

Lemma default_keys_valid (key : string) : key ∈ default_keys -> key ∈ GetCGroupKeys.
Proof.
  unfold default_keys. intros H.
  repeat (apply elem_of_cons in H as [->|H];
          [apply (bool_decide_unpack _); vm_compute; reflexivity|]).
  inversion H.
Qed.

Lemma default_config_lines (container_name rootfs fstab : string) :
  config_lines (GetDefaultCgroupInfo container_name rootfs fstab)
  = map (fun kv => key_value_line (fst kv) (snd kv))
      (default_entries container_name rootfs fstab).
Proof. vm_compute. reflexivity. Qed.

(** X12. The default configuration always renders: for every container
    name, root file system and fstab path, and every order in which the map
    is ranged over, [GetCgroupInfoBytes] succeeds on
    [GetDefaultCgroupInfo], and the bytes are the 28 lines [key = value] of
    the default entries in the order of the allow-list. *)
Theorem default_config_renders (container_name rootfs fstab : string)
    (order : list string) :
  iteration_of (GetDefaultCgroupInfo container_name rootfs fstab) order ->
  GetCgroupInfoBytes order (GetDefaultCgroupInfo container_name rootfs fstab)
  = (concat_lines (map (fun kv => key_value_line (fst kv) (snd kv))
                     (default_entries container_name rootfs fstab)), None) /\
  length (default_entries container_name rootfs fstab) = 28%nat.
Proof.
  intros Hit. split; [|reflexivity].
  rewrite GetCgroupInfoBytes_unfold.
  assert (Hvalid : first_invalid (snd GetCGroupKeyArrayAndSet) order = None).
  { apply (render_fails_iff _ order Hit). intros key Hk.
    apply default_keys_valid. apply elem_of_dom in Hk.
    rewrite default_dom in Hk. apply elem_of_list_to_set in Hk. exact Hk. }
  rewrite Hvalid, append_keys_spec.
  change (flat_map _ GetCGroupKeys)
    with (config_lines (GetDefaultCgroupInfo container_name rootfs fstab)).
  rewrite default_config_lines. reflexivity.
Qed.

(** The default configuration of the container [c1], ranged over in the
    order of its literal. *)
Lemma default_config_renders_witness :
  fst (GetCgroupInfoBytes default_keys
         (GetDefaultCgroupInfo "c1" "/web/c1/rootfs" "/web/c1/fstab"))
  = concat_lines
      (map (fun l => l +:+ String "010" EmptyString)
         ["lxc.utsname = c1"; "lxc.tty = 4"; "lxc.pts = 1024";
          "lxc.rootfs = /web/c1/rootfs"; "lxc.mount = /web/c1/fstab";
          "lxc.arch = amd64"; "lxc.cap.drop = sys_module";
          "lxc.network.type = veth"; "lxc.network.flags = up";
          "lxc.network.name = eth0"; "lxc.network.link = br0";
          "lxc.network.ipv4 = 0.0.0.0"; "lxc.cgroup.devices.deny = a";
          "lxc.cgroup.devices.allow = c *:* m"; "lxc.cgroup.devices.allow = b *:* m";
          "lxc.cgroup.devices.allow = c 1:3 rwm"; "lxc.cgroup.devices.allow = c 1:5 rwm";
          "lxc.cgroup.devices.allow = c 5:1 rwm"; "lxc.cgroup.devices.allow = c 5:0 rwm";
          "lxc.cgroup.devices.allow = c 4:0 rwm"; "lxc.cgroup.devices.allow = c 4:1 rwm";
          "lxc.cgroup.devices.allow = c 1:9 rwm"; "lxc.cgroup.devices.allow = c 1:8 rwm";
          "lxc.cgroup.devices.allow = c 136:* rwm"; "lxc.cgroup.devices.allow = c 5:2 rwm";
          "lxc.cgroup.devices.allow = c 254:0 rwm";
          "lxc.cgroup.devices.allow = c 10:229 rwm";
          "lxc.cgroup.devices.allow = c 10:200 rwm"]).
Proof.
  assert (Hit : iteration_of (GetDefaultCgroupInfo "c1" "/web/c1/rootfs" "/web/c1/fstab")
                  default_keys).
  { split; [apply (bool_decide_unpack _); vm_compute; reflexivity | apply default_dom]. }
  rewrite (proj1 (default_config_renders "c1" "/web/c1/rootfs" "/web/c1/fstab"
                    default_keys Hit)).
  reflexivity.
Defined.

Lemma emit_shift (a b flag : string) (v : Z) :
  emit (a +:+ b) flag v = a +:+ emit b flag v.
Proof.
  unfold emit. destruct (negb (v =? RLIMIT_UNCHANGED)); [|reflexivity].
  rewrite !append_assoc. reflexivity.
Qed.

(** X13. The flags of the soft limits come first and those of the hard
    limits follow, each set independent of the other: the string for both
    records is the string for the soft record alone followed by what the
    hard record alone puts after the 1024 zero bytes. *)
Theorem soft_flags_then_hard_flags (soft hard : option ResourceLimits) :
  exists tail,
    ResourceLimitsToIexecArgString None hard = make_bytes 1024 +:+ tail /\
    ResourceLimitsToIexecArgString soft hard
    = ResourceLimitsToIexecArgString soft None +:+ tail.
Proof.
  destruct hard as [hard|].
  - unfold ResourceLimitsToIexecArgString. cbv zeta.
    set (zeros := make_bytes 1024).
    eexists. split.
    + rewrite <- (append_nil_r zeros) at 1. rewrite !emit_shift. reflexivity.
    + destruct soft as [soft|].
      * match goal with |- context [emit ?b " --rlimit-cpu-hard " _] =>
          set (base := b) end.
        rewrite <- (append_nil_r base) at 1. rewrite !emit_shift. reflexivity.
      * rewrite <- (append_nil_r zeros) at 1. rewrite !emit_shift. reflexivity.
  - exists EmptyString. rewrite !append_nil_r. split; [reflexivity|].
    destruct soft; reflexivity.
Qed.

End DefaultConfiguration.

(** ** Mounting *)

Section MountingTheContainer.

Import Util Containers Mounting.

(** X14. Mounting and remounting. On a mounted container [Mount] returns
    the already-mounted error whatever the system call would do; on an
    unmounted one [Mount] and [Remount] make the same call. On a mounted
    container with an image set [Remount] calls [mount] with the remount
    flag added and the very option string, target and file system type
    that [Mount] uses; on a mounted container without image set it
    panics. *)
Theorem mount_and_remount (this : Container) (fs : gmap string file_kind)
    (sys_Mount : mount_call -> option Z) :
  (IsMounted this fs = true -> Mount this fs sys_Mount = Some AlreadyMounted) /\
  (IsMounted this fs = false ->
   Remount this fs sys_Mount = MountReturned (Mount this fs sys_Mount)) /\
  (IsMounted this fs = true -> image_set this = None ->
   Remount this fs sys_Mount = MountPanicked) /\
  (forall image_set fs', IsMounted this fs = true -> IsMounted this fs' = false ->
     Containers.image_set this = Some image_set ->
     exists call,
       Mount this fs' sys_Mount = of_errno (sys_Mount call) /\
       flags call = MS_MGC_VAL /\
       data call = "br=" +:+ private_dir this +:+ "=rw:" +:+ is_rootfs image_set +:+ "=ro" /\
       Remount this fs sys_Mount
       = MountReturned (of_errno (sys_Mount
           {| source := source call; target := target call; fstype := fstype call;
              flags := Z.lor (flags call) MS_REMOUNT; data := data call |}))).
Proof.
  unfold Remount, Mount. repeat split.
  - intros ->. reflexivity.
  - intros ->. reflexivity.
  - intros -> ->. reflexivity.
  - intros image_set fs' -> -> ->. eexists. split; [reflexivity|].
    cbn [flags data source target fstype]. repeat split; reflexivity.
Qed.

(** A mounted container of an image set: the remount is a call with the
    remount flag. *)
Lemma mount_and_remount_witness :
  Mount container_of_oneiric running_with_bob mount_denied = Some AlreadyMounted /\
  Remount sample_container running_with_bob mount_denied = MountPanicked.
Proof.
  split.
  - apply (proj1 (mount_and_remount container_of_oneiric running_with_bob mount_denied)).
    vm_compute. reflexivity.
  - apply (proj1 (proj2 (proj2 (mount_and_remount sample_container running_with_bob
                                  mount_denied)))); vm_compute; reflexivity.
Defined.

(** X15. [Stop] returns an error exactly when [lxc-stop] failed. When
    [lxc-stop] succeeded it returns nil for every container with an image
    set, also when the remount fails, and panics for a container without
    image set whose root file system is still mounted. *)
Theorem stop_ignores_remount (this : Container) (lxc_stop_ok : bool)
    (fs : gmap string file_kind) (sys_Mount : mount_call -> option Z) :
  (lxc_stop_ok = false ->
   Stop this lxc_stop_ok fs sys_Mount = MountReturned (Some LxcStopFailed)) /\
  (lxc_stop_ok = true -> image_set this <> None ->
   Stop this lxc_stop_ok fs sys_Mount = MountReturned None) /\
  (lxc_stop_ok = true -> image_set this = None -> IsMounted this fs = true ->
   Stop this lxc_stop_ok fs sys_Mount = MountPanicked) /\
  (lxc_stop_ok = true -> IsMounted this fs = false ->
   Stop this lxc_stop_ok fs sys_Mount = MountReturned None).
Proof.
  unfold Stop, Remount. repeat split.
  - intros ->. reflexivity.
  - intros -> His. destruct (IsMounted this fs); [|reflexivity].
    destruct (image_set this); [reflexivity | contradiction].
  - intros -> -> ->. reflexivity.
  - intros -> ->. reflexivity.
Qed.

(** A remount that is denied goes unnoticed. *)
Lemma stop_ignores_remount_witness :
  Stop container_of_oneiric true running_with_bob mount_denied = MountReturned None /\
  Remount container_of_oneiric running_with_bob mount_denied
  = MountReturned (Some (Errno 1)).
Proof.
  split.
  - apply (proj1 (proj2 (stop_ignores_remount container_of_oneiric true running_with_bob
                           mount_denied))); [reflexivity | discriminate].
  - vm_compute. reflexivity.
Defined.

End MountingTheContainer.

(** ** Paths and the persisted image set *)

Section PersistedImageSet.

Import Util Containers Meta.

Lemma Split_no_sep (sep : ascii) (s : string) :
  string_forall (fun c => negb (Ascii.eqb c sep)) s = true -> Split s sep = [s].
Proof.
  induction s as [|c r IH]; intros H; [reflexivity|].
  cbn [string_forall] in H. apply andb_true_iff in H as [Hc Hr].
  cbn [Split]. rewrite (IH Hr). destruct (Ascii.eqb c sep); [discriminate | reflexivity].
Qed.

Lemma join_slash_cons (e : string) (es : list string) :
  es <> [] -> join_slash (e :: es) = e +:+ String "/" (join_slash es).
Proof. destruct es; [contradiction | reflexivity]. Qed.

Lemma Split_join_slash (es : list string) :
  Forall (fun e => no_slash e = true) es -> es <> [] ->
  Split (join_slash es) "/" = es.
Proof.
  induction es as [|e rest IH]; intros H Hne; [contradiction|].
  inversion H as [|? ? He Hrest]; subst. destruct rest as [|e2 rest'].
  - apply Split_no_sep. exact He.
  - rewrite join_slash_cons by discriminate.
    rewrite (Split_app_sep "/" e _ He), (IH Hrest) by discriminate. reflexivity.
Qed.

Lemma join_slash_app (es1 es2 : list string) :
  es1 <> [] -> es2 <> [] ->
  join_slash (es1 ++ es2) = join_slash es1 +:+ String "/" (join_slash es2).
Proof.
  induction es1 as [|e rest IH]; intros H1 H2; [contradiction|].
  destruct rest as [|e2 rest'].
  - cbn [app]. rewrite join_slash_cons by exact H2. reflexivity.
  - rewrite <- app_comm_cons, join_slash_cons by (destruct rest'; discriminate).
    rewrite IH by (discriminate || exact H2).
    rewrite (join_slash_cons e (e2 :: rest')) by discriminate.
    rewrite append_assoc, append_cons. reflexivity.
Qed.

Lemma plain_elem_no_slash (es : list string) :
  Forall plain_elem es -> Forall (fun e => no_slash e = true) es.
Proof.
  intros H. eapply Forall_impl; [exact H|].
  intros e [->|(Hs & _)]; [reflexivity | exact Hs].
Qed.

(** On plain elements [path.Clean] only drops the empty ones. *)
Lemma clean_elems_plain (rooted : bool) (es : list string) : forall stack,
  Forall plain_elem es ->
  clean_elems rooted stack es
  = (rev stack ++ List.filter (fun e => negb (String.eqb e EmptyString)) es)%list.
Proof.
  induction es as [|e rest IH]; intros stack H; cbn [clean_elems List.filter].
  - rewrite app_nil_r. reflexivity.
  - inversion H as [|? ? He Hrest]; subst. destruct He as [->|(_ & Hne & Hdot & Hdd)].
    + cbn. apply IH. exact Hrest.
    + destruct (String.eqb_spec e EmptyString); [contradiction|].
      destruct (String.eqb_spec e "."); [contradiction|].
      destruct (String.eqb_spec e ".."); [contradiction|].
      cbn [orb negb]. rewrite (IH (e :: stack) Hrest). cbn [rev].
      rewrite <- app_assoc. reflexivity.
Qed.

Lemma abs_path_not_empty (es : list string) : String.eqb (abs_path es) EmptyString = false.
Proof. reflexivity. Qed.

(** [path.Clean] on an absolute path of plain elements. *)
Lemma Clean_abs_path (es : list string) :
  Forall plain_elem es ->
  Clean (abs_path es)
  = abs_path (List.filter (fun e => negb (String.eqb e EmptyString)) es).
Proof.
  intros H. unfold Clean. rewrite abs_path_not_empty.
  pose proof (HasPrefix_self "/" (join_slash es)) as Hp.
  change ("/" +:+ join_slash es) with (abs_path es) in Hp. rewrite Hp. cbv zeta.
  assert (Hsplit : clean_elems true [] (Split (abs_path es) "/")
                   = List.filter (fun e => negb (String.eqb e EmptyString)) es).
  { destruct es as [|e rest]; [reflexivity|].
    change (abs_path (e :: rest)) with (EmptyString +:+ String "/" (join_slash (e :: rest))).
    rewrite (Split_app_sep "/" EmptyString _ eq_refl).
    rewrite Split_join_slash; [| apply plain_elem_no_slash; exact H | discriminate].
    rewrite clean_elems_plain by (constructor; [left; reflexivity | exact H]).
    reflexivity. }
  rewrite Hsplit. reflexivity.
Qed.

Lemma filter_simple (es : list string) :
  Forall simple_name es ->
  List.filter (fun e => negb (String.eqb e EmptyString)) es = es.
Proof.
  induction es as [|e rest IH]; intros H; [reflexivity|].
  inversion H as [|? ? (_ & Hne & _) Hrest]; subst. cbn [List.filter].
  destruct (String.eqb_spec e EmptyString); [contradiction|].
  cbn [negb]. rewrite (IH Hrest). reflexivity.
Qed.

Lemma simple_plain (es : list string) : Forall simple_name es -> Forall plain_elem es.
Proof. intros H. eapply Forall_impl; [exact H|]. intros e He. right. exact He. Qed.

(** [path.Join] of an absolute path of plain elements and further
    elements. *)
Lemma Join_abs_path (es1 es2 : list string) :
  es1 <> [] -> es2 <> [] -> join_slash es2 <> EmptyString ->
  Forall plain_elem es1 -> Forall plain_elem es2 ->
  Join (abs_path es1) (join_slash es2)
  = abs_path (List.filter (fun e => negb (String.eqb e EmptyString)) (es1 ++ es2)).
Proof.
  intros H1 H2 Hb Hp1 Hp2. unfold Join. rewrite abs_path_not_empty.
  destruct (String.eqb_spec (join_slash es2) EmptyString); [contradiction|].
  replace (abs_path es1 +:+ "/" +:+ join_slash es2) with (abs_path (es1 ++ es2)).
  - apply Clean_abs_path. apply Forall_app. auto.
  - unfold abs_path. rewrite (join_slash_app es1 es2 H1 H2), append_assoc. reflexivity.
Qed.

(** The paths of a container under a directory of simple names. *)
Lemma container_paths (cs : list string) (cname : string) (tail : list string) :
  cs <> [] -> Forall simple_name cs -> simple_name cname ->
  tail <> [] -> join_slash tail <> EmptyString -> Forall plain_elem tail ->
  Join (Join (abs_path cs) cname) (join_slash tail)
  = abs_path (cs ++ cname :: List.filter (fun e => negb (String.eqb e EmptyString)) tail).
Proof.
  intros Hcs Hs Hn Ht Hj Hp.
  assert (Hdir : Join (abs_path cs) cname = abs_path (cs ++ [cname])).
  { change cname with (join_slash [cname]) at 1.
    rewrite Join_abs_path; [| exact Hcs | discriminate | | apply simple_plain, Hs
                            | constructor; [right; exact Hn | constructor]].
    - rewrite filter_simple; [reflexivity|]. apply Forall_app. split; [exact Hs|].
      constructor; [exact Hn | constructor].
    - destruct Hn as (_ & Hne & _). exact Hne. }
  rewrite Hdir, Join_abs_path; [| destruct cs; discriminate | exact Ht | exact Hj | | exact Hp].
  - rewrite !List.filter_app, filter_simple by exact Hs. cbn [List.filter].
    destruct Hn as (_ & Hne & _). destruct (String.eqb_spec cname EmptyString); [contradiction|].
    cbn [negb]. rewrite <- app_assoc. reflexivity.
  - apply Forall_app. split; [apply simple_plain, Hs|].
    constructor; [right; exact Hn | constructor].
Qed.

Lemma string_forall_app_sep (P : ascii -> bool) (a n : string) (sep : ascii) :
  P sep = false -> string_forall P (a +:+ String sep n) = false.
Proof.
  intros Hsep. induction a as [|c a IH].
  - change (EmptyString +:+ String sep n) with (String sep n).
    cbn [string_forall]. rewrite Hsep. reflexivity.
  - rewrite append_cons. cbn [string_forall]. rewrite IH. apply andb_false_r.
Qed.

Lemma dir_part_app (a n : string) :
  no_slash n = true -> dir_part (a +:+ String "/" n) = a +:+ "/".
Proof.
  intros Hn. induction a as [|c a IH].
  - change (EmptyString +:+ String "/" n) with (String "/" n). cbn [dir_part].
    unfold no_slash in Hn. rewrite Hn. reflexivity.
  - rewrite !append_cons. cbn [dir_part].
    rewrite (string_forall_app_sep _ a n "/" eq_refl). cbn [negb]. rewrite IH. reflexivity.
Qed.

(** The directory of an image set is the directory of the image sets. *)
Lemma Dir_idir (ps : list string) (iname : string) :
  ps <> [] -> Forall simple_name ps -> simple_name iname ->
  Dir (idir (NewImageSet iname (abs_path ps))) = abs_path ps.
Proof.
  intros Hps Hs Hn. cbn [NewImageSet idir].
  change iname with (join_slash [iname]) at 1.
  rewrite Join_abs_path; [| exact Hps | discriminate | | apply simple_plain, Hs
                          | constructor; [right; exact Hn | constructor]].
  2: { destruct Hn as (_ & Hne & _). exact Hne. }
  rewrite filter_simple
    by (apply Forall_app; split; [exact Hs | constructor; [exact Hn | constructor]]).
  unfold Dir.
  replace (abs_path (ps ++ [iname])) with (abs_path ps +:+ String "/" iname).
  - rewrite dir_part_app by (destruct Hn as (H & _); exact H).
    replace (abs_path ps +:+ "/") with (abs_path (ps ++ [EmptyString])).
    + rewrite Clean_abs_path.
      * rewrite List.filter_app, filter_simple by exact Hs. cbn. rewrite app_nil_r. reflexivity.
      * apply Forall_app. split; [apply simple_plain, Hs|].
        constructor; [left; reflexivity | constructor].
    + unfold abs_path. rewrite (join_slash_app ps [EmptyString] Hps) by discriminate.
      rewrite append_assoc. reflexivity.
  - unfold abs_path. rewrite (join_slash_app ps [iname] Hps) by discriminate.
    rewrite append_assoc. reflexivity.
Qed.

Ltac path_side :=
  first
    [ assumption
    | discriminate
    | repeat (first [ apply List.Forall_nil
                    | apply List.Forall_cons;
                      [ first [ assumption
                              | left; reflexivity
                              | right; assumption
                              | right; repeat split; discriminate ] | ] ]) ].

Lemma simple_meta : simple_name "meta".
Proof. repeat split; discriminate. Qed.

(** A meta file has the same path from the container directory and from
    the meta-data directory. *)
Lemma meta_file_path (cs : list string) (cname file : string) :
  cs <> [] -> Forall simple_name cs -> simple_name cname -> simple_name file ->
  Join (Join (Join (abs_path cs) cname) "meta") ("/" +:+ file)
  = Join (Join (abs_path cs) cname) ("/meta/" +:+ file).
Proof.
  intros Hcs Hs Hc Hf. pose proof simple_meta as Hm.
  assert (Hfile : file <> EmptyString) by (destruct Hf as (_ & H & _); exact H).
  change ("/meta/" +:+ file) with (join_slash [EmptyString; "meta"; file]).
  change "meta" with (join_slash ["meta"]) at 1.
  change ("/" +:+ file) with (join_slash [EmptyString; file]).
  rewrite (container_paths cs cname ["meta"]); [| path_side ..].
  rewrite (container_paths cs cname [EmptyString; "meta"; file]); [| path_side ..].
  cbn [List.filter].
  change (negb (String.eqb EmptyString EmptyString)) with false.
  change (negb (String.eqb "meta" EmptyString)) with true.
  destruct (String.eqb_spec file EmptyString); [contradiction|]. cbn [negb].
  rewrite Join_abs_path.
  - rewrite List.filter_app. cbn [List.filter].
    change (negb (String.eqb EmptyString EmptyString)) with false.
    destruct (String.eqb_spec file EmptyString); [contradiction|]. cbn [negb].
    rewrite (filter_simple (cs ++ [cname; "meta"])).
    + rewrite <- app_assoc. reflexivity.
    + apply Forall_app. split; [exact Hs | path_side].
  - destruct cs; discriminate.
  - discriminate.
  - discriminate.
  - apply Forall_app. split; [apply simple_plain, Hs | path_side].
  - path_side.
Qed.

(** X16. The persisted image set is read back. For a containers directory
    and an image sets directory that are absolute paths of simple names,
    and a container and an image set with simple names: when the two meta
    files hold what [Create] writes into them, the name and the directory
    of the image set, [NewContainerFromImageSetMeta] returns, without
    error, the very container [NewContainerFromImageSet] builds from that
    image set. *)
Theorem persisted_image_set_round_trip (cs ps : list string) (cname iname : string)
    (fs : gmap string file_kind) (read : string -> option string) :
  cs <> [] -> ps <> [] ->
  Forall simple_name cs -> Forall simple_name ps ->
  simple_name cname -> simple_name iname ->
  let image_set := NewImageSet iname (abs_path ps) in
  let c := NewContainerFromImageSet cname (abs_path cs) (Some image_set) in
  FileExists fs (Join (meta_dir c) "/image-set-name") = true ->
  FileExists fs (Join (meta_dir c) "/image-set-dir") = true ->
  read (Join (meta_dir c) "/image-set-name") = Some (is_name image_set) ->
  read (Join (meta_dir c) "/image-set-dir") = Some (idir image_set) ->
  NewContainerFromImageSetMeta cname (abs_path cs) fs read = (Some c, None).
Proof.
  intros Hcs Hps Hs Hp Hc Hi image_set c.
  assert (Hname : Join (meta_dir c) "/image-set-name"
                  = Join (Join (abs_path cs) cname) "/meta/image-set-name").
  { apply (meta_file_path cs cname "image-set-name" Hcs Hs Hc).
    repeat split; discriminate. }
  assert (Hdir : Join (meta_dir c) "/image-set-dir"
                 = Join (Join (abs_path cs) cname) "/meta/image-set-dir").
  { apply (meta_file_path cs cname "image-set-dir" Hcs Hs Hc).
    repeat split; discriminate. }
  rewrite Hname, Hdir. intros Hex1 Hex2 Hr1 Hr2.
  unfold NewContainerFromImageSetMeta. rewrite Hex1, Hr1, Hex2, Hr2. cbn [negb].
  subst image_set. rewrite (Dir_idir ps iname Hps Hp Hi). reflexivity.
Qed.

(** The container [c1] under [/web] of the image set [oneiric] under
    [/isx]. *)
Lemma persisted_image_set_round_trip_witness :
  let image_set := NewImageSet "oneiric" "/isx" in
  let c := NewContainerFromImageSet "c1" "/web" (Some image_set) in
  NewContainerFromImageSetMeta "c1" "/web" (with_meta c) (written_meta c image_set)
  = (Some c, None).
Proof.
  apply (persisted_image_set_round_trip ["web"] ["isx"] "c1" "oneiric");
    try discriminate; try reflexivity;
    repeat constructor; discriminate.
Defined.

(** X17. When the file [meta/image-set-dir] exists and cannot be read,
    [NewContainerFromImageSetMeta] returns no container and no error: the
    error returned is the one of the first read, which is nil. *)
Theorem unreadable_image_set_dir (container_name containers_path image_set_name : string)
    (fs : gmap string file_kind) (read : string -> option string) :
  let container_dir := Join containers_path container_name in
  FileExists fs (Join container_dir "/meta/image-set-name") = true ->
  FileExists fs (Join container_dir "/meta/image-set-dir") = true ->
  read (Join container_dir "/meta/image-set-name") = Some image_set_name ->
  read (Join container_dir "/meta/image-set-dir") = None ->
  NewContainerFromImageSetMeta container_name containers_path fs read = (None, None).
Proof.
  intros container_dir Hex1 Hex2 Hr1 Hr2. unfold NewContainerFromImageSetMeta.
  fold container_dir. rewrite Hex1, Hr1, Hex2, Hr2. reflexivity.
Qed.

(** The directory of the image set is a directory, not a file. *)
Lemma unreadable_image_set_dir_witness :
  NewContainerFromImageSetMeta "c1" "/web"
    {[ "/web/c1/meta/image-set-name" := KRegular; "/web/c1/meta/image-set-dir" := KDir ]}
    (fun p => if String.eqb p "/web/c1/meta/image-set-name" then Some "oneiric" else None)
  = (None, None).
Proof.
  apply (unreadable_image_set_dir "c1" "/web" "oneiric"); reflexivity.
Defined.

End PersistedImageSet.

(** ** The command line *)

Section CommandLine.

Import Util Status Client CLI.

Example ProcessInput_create_one_arg :
  ProcessInput "create" ["c1"] = InputError (Exactly 2 1).
Proof. vm_compute. reflexivity. Qed.

Example ProcessInput_passwd :
  ProcessInput "passwd" ["c1"; "0"; "pw"] = InputError InvalidCommand.
Proof. vm_compute. reflexivity. Qed.

Lemma check_nargs_ok (n : Z) (args : list string) :
  check_nargs n args = None <-> nargs_ok n args.
Proof.
  unfold check_nargs, nargs_ok. destruct (Z.ltb_spec n 0).
  - rewrite Z.abs_neq by lia.
    destruct (Z.ltb_spec (Z.of_nat (length args)) (- n)); split; intros; try lia;
      try reflexivity; discriminate.
  - destruct (Z.eqb_spec (Z.of_nat (length args)) n); simpl; split; intros;
      try lia; try reflexivity; try discriminate; congruence.
Qed.

Lemma check_nargs_error (n : Z) (args : list string) (e : input_error) :
  check_nargs n args = Some e -> e <> InvalidCommand.
Proof.
  unfold check_nargs. destruct (n <? 0).
  - destruct (_ <? _); [|discriminate]. intros H. injection H as <-. discriminate.
  - destruct (negb _); [|discriminate]. intros H. injection H as <-. discriminate.
Qed.

Ltac table_cases H :=
  apply elem_of_list_to_map_2 in H; unfold required_table in H;
  repeat (apply elem_of_cons in H as [H|H]; [injection H as -> ->|]);
  [..|inversion H].

(** Every command of the table has its case in the switch, and the switch
    finds the arguments it indexes. *)
Lemma dispatch_calls (command : string) (args : list string) (n : Z) :
  required_cmd_nargs !! command = Some n -> nargs_ok n args ->
  is_call (dispatch command args).
Proof.
  intros H. unfold required_cmd_nargs in H. table_cases H;
    unfold nargs_ok; cbn [Z.ltb Z.compare Z.opp]; intros Hn;
    destruct args as [|a [|b [|c rest]]]; cbn [length] in Hn; try lia; exact I.
Qed.

(** X18. [ProcessInput] checks before it calls. A command that is not in
    the table is an invalid command. A command of the table is called
    exactly when the number of its arguments fits its entry, equal to a
    non-negative entry and at least the absolute value of a negative one,
    and is refused with the count error otherwise. No command of the table
    lacks its case in the switch, and no index is out of range. *)
Theorem ProcessInput_checks_then_calls (command : string) (args : list string) :
  (required_cmd_nargs !! command = None ->
   ProcessInput command args = InputError InvalidCommand) /\
  (forall n, required_cmd_nargs !! command = Some n ->
     (nargs_ok n args -> is_call (ProcessInput command args)) /\
     (~ nargs_ok n args ->
      exists e, ProcessInput command args = InputError e /\ e <> InvalidCommand)) /\
  ProcessInput command args <> InputPanics /\
  ProcessInput command args <> NoCase.
Proof.
  unfold ProcessInput. destruct (required_cmd_nargs !! command) as [n|] eqn:E.
  - pose proof (check_nargs_ok n args) as Hok.
    pose proof (check_nargs_error n args) as Herr.
    pose proof (dispatch_calls command args n E) as Hcall.
    destruct (check_nargs n args) as [e|].
    + split; [discriminate|]. split; [|split; discriminate].
      intros n' Hn'. injection Hn' as <-. split.
      * intros H. apply Hok in H. discriminate.
      * intros _. exists e. split; [reflexivity | apply Herr; reflexivity].
    + specialize (Hcall (proj1 Hok eq_refl)).
      split; [discriminate|]. split.
      * intros n' Hn'. injection Hn' as <-. split; [intros _; exact Hcall|].
        intros H. exfalso. apply H, Hok. reflexivity.
      * destruct (dispatch command args); try contradiction; split; discriminate.
  - split; [reflexivity|]. split; [discriminate | split; discriminate].
Qed.

(** [qb execute c1 web ls] and [qb create c1]. *)
Lemma ProcessInput_checks_then_calls_witness :
  is_call (ProcessInput "execute" ["c1"; "web"; "ls"]) /\
  exists e, ProcessInput "create" ["c1"] = InputError e /\ e <> InvalidCommand.
Proof.
  split.
  - apply (proj1 (proj1 (proj2 (ProcessInput_checks_then_calls "execute"
                                  ["c1"; "web"; "ls"])) (-3) eq_refl)).
    unfold nargs_ok. simpl. lia.
  - apply (proj2 (proj1 (proj2 (ProcessInput_checks_then_calls "create" ["c1"])) 2 eq_refl)).
    unfold nargs_ok. simpl. lia.
Defined.

Lemma write_frame_no_panic (env : client_env) (a0 : string) (rest : list string)
    (callback : option FIFOCallback) (sd so se : string) :
  ret (write_frame env (a0 :: rest) callback sd so se) <> Panicked.
Proof.
  unfold write_frame.
  destruct (if negb (is_control_verb a0) then _ else _) as [f [e|]]; [discriminate|].
  destruct (write_args f (a0 :: rest)) as [f1 [r|]]; [discriminate|].
  destruct (Fprintf f1 sentinel). destruct callback as [cb|]; [|discriminate].
  destruct (ShouldBlockUntilTerminated cb); [|discriminate].
  destruct (WaitUntilDone _ _ _); discriminate.
Qed.

(** With a receiver and a command the client does not panic. *)
Lemma client_no_panic (this : FIFOCommand) (env : client_env) (a0 : string)
    (rest : list string) (callback : option FIFOCallback) :
  ret (ExecuteDaemonOnServerWithCallback (Some this) env (a0 :: rest) callback) <> Panicked.
Proof.
  unfold ExecuteDaemonOnServerWithCallback.
  assert (Htail : forall sd so se,
            ret (if negb (FileExists (fs env) (Filename this))
                 then stop (Returned (Some ErrNoSuchFile))
                 else if negb (IsFIFO (fs env) (Filename this))
                      then stop (Returned (Some ErrNotAFifo))
                      else match acquire (ClientNonBlocking this) (attempts env) with
                           | Acquired => write_frame env (a0 :: rest) callback sd so se
                           | AcquireError e => stop (Returned (Some e))
                           | AcquireBlocked => stop Blocked
                           end) <> Panicked).
  { intros sd so se. destruct (negb (FileExists _ _)); [discriminate|].
    destruct (negb (IsFIFO _ _)); [discriminate|].
    destruct (acquire _ _); [apply write_frame_no_panic | discriminate | discriminate]. }
  destruct callback as [cb|]; [|apply Htail].
  destruct (TempDir_suffix env); [|discriminate].
  destruct (negb (MkFIFO_ok env)); [discriminate | apply Htail].
Qed.

(** X19. Through the command line the client is never called without a
    command. Whenever [ProcessInput] calls one of the three client
    commands, [execute-client], [execute-bclient] or [execute-tty], the
    call of the client does not panic: the pipe name and at least one token
    of the command are there. *)
Theorem cli_client_never_panics (command : string) (args : list string)
    (env : client_env) (a : action) :
  ProcessInput command args = Calls a ->
  match a with
  | ExecuteClient l => l = args /\ CommandExecuteClient l env <> Panicked
  | ExecuteClientBlocked l => l = args /\ CommandExecuteClientBlocked l env <> Panicked
  | ExecuteClientTTY l => l = args /\ CommandExecuteClientTTY l env <> Panicked
  | _ => True
  end.
Proof.
  unfold ProcessInput. destruct (required_cmd_nargs !! command) as [n|] eqn:E; [|discriminate].
  pose proof (check_nargs_ok n args) as Hok.
  destruct (check_nargs n args); [discriminate|].
  pose proof (proj1 Hok eq_refl) as Hn. clear Hok.
  unfold required_cmd_nargs in E. table_cases E;
    unfold nargs_ok in Hn; cbn [Z.ltb Z.compare Z.opp] in Hn;
    destruct args as [|x [|y [|z rest]]]; cbn [length] in Hn; try lia;
    intros H; vm_compute in H; injection H as <-; try exact I;
    (split; [reflexivity|]);
    unfold CommandExecuteClient, CommandExecuteClientBlocked, CommandExecuteClientTTY,
      ExecuteDaemonOnServer, ExecuteDaemonOnServerBlockOnClient; cbn [snd];
    apply client_no_panic.
Qed.

(** [qb execute-client /root/.cmd ls]. *)
Lemma cli_client_never_panics_witness :
  CommandExecuteClient ["/root/.cmd"; "ls"] (sample_env [Flock None] []) <> Panicked.
Proof.
  apply (proj2 (cli_client_never_panics "execute-client" ["/root/.cmd"; "ls"]
                  (sample_env [Flock None] []) (ExecuteClient ["/root/.cmd"; "ls"])
                  eq_refl)).
Defined.

End CommandLine.

(** ** Image sets *)

Section ImageSetCopy.

Import Util Containers Meta ImageSets.

(** X20. Copying an image set. The copy succeeds exactly when the
    destination does not exist, the source exists, the two names differ
    and [cp] runs without error. The same-directory error is never
    returned: two image sets with the same directory are both created or
    both not, and one of the first two tests has already returned. *)
Theorem copy_image_set (this src : ImageSet) (fs : gmap string file_kind) (cp_ok : bool) :
  Copy this src fs cp_ok <> Some SameDirectory /\
  (Copy this src fs cp_ok = None <->
   ImageSet_IsCreated this fs = false /\ ImageSet_IsCreated src fs = true /\
   is_name src <> is_name this /\ cp_ok = true) /\
  (ImageSet_IsCreated this fs = true -> Copy this src fs cp_ok = Some DestinationExists).
Proof.
  unfold Copy, ImageSet_IsCreated.
  destruct (DirExists fs (idir this)) eqn:Ethis.
  { repeat split; try discriminate. intros (H & _). discriminate. }
  destruct (DirExists fs (idir src)) eqn:Esrc; cbn [negb].
  2: { repeat split; try discriminate. intros (_ & H & _). discriminate. }
  destruct (String.eqb_spec (is_name src) (is_name this)) as [En|En].
  { repeat split; try discriminate. intros (_ & _ & H & _). contradiction. }
  destruct (String.eqb_spec (idir src) (idir this)) as [Ed|Ed].
  { exfalso. rewrite Ed in Esrc. congruence. }
  destruct cp_ok; cbn [negb]; repeat split; try discriminate; try assumption.
  intros (_ & _ & _ & H). discriminate.
Qed.

(** A copy of [oneiric] to [trimmed] under [/isx]. *)
Lemma copy_image_set_witness :
  Copy (NewImageSet "trimmed" "/isx") (NewImageSet "oneiric" "/isx")
    {[ "/isx" := KDir; "/isx/oneiric" := KDir ]} true = None.
Proof.
  apply (proj2 (proj1 (proj2 (copy_image_set (NewImageSet "trimmed" "/isx")
                                (NewImageSet "oneiric" "/isx")
                                {[ "/isx" := KDir; "/isx/oneiric" := KDir ]} true)))).
  repeat split; try reflexivity. discriminate.
Defined.

End ImageSetCopy.
